(** * initbox: formula resolution and execution engine

    A shallow embedding of the engine's decision logic:
    - the version constraint matcher and the version check of [BaseTask]
      (tasks/base.ts; its text follows the README in
      src/tasks/git/README.md),
    - the step executor [StepExecutor] (executor/step-executor.ts; its text
      follows the formula executor in src/executor/formula-executor.ts),
    - the formula executor [FormulaExecutor] of
      src/executor/formula-executor.ts: dependency gate, version gate, step
      loop, run loop and the dependency scheduler [topologicalSort],
    - the step types [FormulaParser.validateStep] accepts
      (src/parser/formula-parser.ts).

    Conventions of the embedding.
    - A JavaScript string is a [string]; each character stands for the
      UTF-16 code unit of the same number (so the text is Latin-1).
    - A JavaScript number read by [parseInt] is an exact integer of [Z],
      [None] standing for [NaN]; the two agree on every digit group below
      2^53.
    - External processes are oracles over the history of the run: the
      outcome of a command is a function of the events that happened before
      it.  Console output, spinners, durations and timestamps are left out.
    - The task registry ([taskRegistry] of tasks/index.ts) is a plain
      object: a finite map for its own keys, and behind it the properties
      every object inherits from [Object.prototype], which [getTask] and
      [hasTask] find as well. *)

From Stdlib Require Import ZArith Ascii String List Bool Lia.
From stdpp Require Import base option list gmap sets strings relations pretty.

Local Open Scope Z_scope.

(** ** Strings as the source uses them *)

Module Js.

(** [\s], and what [String.prototype.trim] removes: the white space and line
    terminator code units below 256. *)
Definition isWhiteSpace (c : ascii) : bool :=
  let n := N_of_ascii c in
  ((9 <=? n) && (n <=? 13) || (n =? 32) || (n =? 160))%N.

(** [\d] *)
Definition isDigit (c : ascii) : bool :=
  let n := N_of_ascii c in ((48 <=? n) && (n <=? 57))%N.

Definition digitVal (c : ascii) : Z := Z.of_N (N_of_ascii c) - 48.

Fixpoint trimStart (s : string) : string :=
  match s with
  | String c s' => if isWhiteSpace c then trimStart s' else s
  | EmptyString => EmptyString
  end.

Fixpoint trimEnd (s : string) : string :=
  match s with
  | String c s' =>
      match trimEnd s' with
      | EmptyString => if isWhiteSpace c then EmptyString else String c EmptyString
      | r => String c r
      end
  | EmptyString => EmptyString
  end.

(** [s.trim()] *)
Definition trim (s : string) : string := trimStart (trimEnd s).

(** [s.startsWith(p)] *)
Fixpoint startsWith (p s : string) : bool :=
  match p with
  | EmptyString => true
  | String a p' =>
      match s with
      | String b s' => Ascii.eqb a b && startsWith p' s'
      | EmptyString => false
      end
  end.

(** [s.slice(n)] for [0 <= n] *)
Fixpoint slice (n : nat) (s : string) : string :=
  match n with
  | O => s
  | S n' => match s with String _ s' => slice n' s' | EmptyString => EmptyString end
  end.

(** [s.includes(p)] *)
Fixpoint includes (p s : string) : bool :=
  startsWith p s ||
  match s with
  | String _ s' => includes p s'
  | EmptyString => false
  end.

(** [s.split(sep)] for a non-empty separator: [skip] counts the characters
    of a separator occurrence still to be passed over, [cur] is the piece
    being collected. *)
Fixpoint split_aux (sep : string) (skip : nat) (cur : string) (s : string)
  : list string :=
  match s with
  | EmptyString => [cur]
  | String ch s' =>
      match skip with
      | S k => split_aux sep k cur s'
      | O =>
          if startsWith sep s
          then cur :: split_aux sep (String.length sep - 1) EmptyString s'
          else split_aux sep O (cur +:+ String ch EmptyString) s'
      end
  end.

Definition split (sep s : string) : list string := split_aux sep O EmptyString s.

(** [s.split(/\s+/)] *)
Fixpoint splitWs_aux (inWs : bool) (cur : string) (s : string) : list string :=
  match s with
  | EmptyString => [cur]
  | String ch s' =>
      if isWhiteSpace ch
      then (if inWs then splitWs_aux true EmptyString s'
            else cur :: splitWs_aux true EmptyString s')
      else splitWs_aux false (cur +:+ String ch EmptyString) s'
  end.

Definition splitWs (s : string) : list string := splitWs_aux false EmptyString s.

(** [s.replace(/^v/, '')] *)
Definition stripV (s : string) : string :=
  match s with
  | String "v" r => r
  | _ => s
  end.

Fixpoint readDigits (acc : Z) (s : string) : Z :=
  match s with
  | String c s' => if isDigit c then readDigits (10 * acc + digitVal c) s' else acc
  | EmptyString => acc
  end.

Definition startsWithDigit (s : string) : bool :=
  match s with
  | String c _ => isDigit c
  | EmptyString => false
  end.

(** [parseInt(s, 10)]: leading white space, an optional sign, then the
    longest run of digits; [None] is [NaN]. *)
Definition parseInt (s : string) : option Z :=
  let s1 := trimStart s in
  let '(sign, s2) :=
    match s1 with
    | String "-" r => (-1, r)
    | String "+" r => (1, r)
    | _ => (1, s1)
    end in
  if startsWithDigit s2 then Some (sign * readDigits 0 s2) else None.

(** [parseInt(s, 10) || 0] *)
Definition parseIntOr0 (s : string) : Z := default 0 (parseInt s).

(** The longest run of digits at the front of [s], and what follows it. *)
Fixpoint spanDigits (s : string) : string * string :=
  match s with
  | String c s' =>
      if isDigit c then let '(d, r) := spanDigits s' in (String c d, r)
      else (EmptyString, s)
  | EmptyString => (EmptyString, EmptyString)
  end.

(** The regular expression piece [(?:\.(\d+))?]: the captured group, if the
    piece matched, and the rest of the input. *)
Definition dotGroup (s : string) : option string * string :=
  match s with
  | String "." r =>
      match spanDigits r with
      | (EmptyString, _) => (None, s)
      | (d, r') => (Some d, r')
      end
  | _ => (None, s)
  end.

(** Whether some character of [s] is white space. *)
Fixpoint hasWhiteSpace (s : string) : bool :=
  match s with
  | String c s' => isWhiteSpace c || hasWhiteSpace s'
  | EmptyString => false
  end.

End Js.

(** ** Version constraint matcher ([BaseTask.satisfiesVersion]) *)

Record VersionParts := { major : Z; minor : Z; patch : Z }.

(** [parseInt(match[i], 10) || 0], where an unmatched group is [undefined]. *)
Definition groupNumber (g : option string) : Z :=
  match g with
  | Some d => Js.parseIntOr0 d
  | None => 0
  end.

(** [version.replace(/^v/, '').match(/^(\d+)(?:\.(\d+))?(?:\.(\d+))?/)] *)
Definition parseVersionParts (version : string) : option VersionParts :=
  match Js.spanDigits (Js.stripV version) with
  | (EmptyString, _) => None
  | (g1, r1) =>
      let '(g2, r2) := Js.dotGroup r1 in
      let '(g3, _) := Js.dotGroup r2 in
      Some {| major := Js.parseIntOr0 g1;
              minor := groupNumber g2;
              patch := groupNumber g3 |}
  end.

Definition versionNumbers (s : string) : list Z :=
  Js.parseIntOr0 <$> Js.split "." (Js.stripV s).

(** The loop of [compareVersions]: [i] is the index, [n] the iterations left;
    [partsA[i] || 0] reads 0 past the end. *)
Fixpoint compareFrom (partsA partsB : list Z) (i n : nat) : Z :=
  match n with
  | O => 0
  | S n' =>
      let numA := nth i partsA 0 in
      let numB := nth i partsB 0 in
      if numA <? numB then -1
      else if numA >? numB then 1
      else compareFrom partsA partsB (S i) n'
  end.

Definition compareVersions (a b : string) : Z :=
  let partsA := versionNumbers a in
  let partsB := versionNumbers b in
  compareFrom partsA partsB 0 (Nat.max (length partsA) (length partsB)).

(** The loop of the wildcard rule over the dot-separated pieces of the
    constraint; [vParts[i]] is [undefined] from index 3 on, which differs
    from every number. *)
Fixpoint wildcardLoop (vParts : list Z) (parts : list string) (i : nat) : bool :=
  match parts with
  | [] => true
  | p :: rest =>
      if (p =? "x")%string || (p =? "*")%string then true
      else
        match Js.parseInt p with
        | None => wildcardLoop vParts rest (S i)
        | Some cPart =>
            match vParts !! i with
            | Some n => if n =? cPart then wildcardLoop vParts rest (S i) else false
            | None => false
            end
        end
  end.

(** [parts.some(f)] and [parts.every(f)] over a callback that may run out of
    fuel. *)
Fixpoint someM (f : string → option bool) (parts : list string) : option bool :=
  match parts with
  | [] => Some false
  | p :: rest =>
      match f p with
      | Some true => Some true
      | Some false => someM f rest
      | None => None
      end
  end.

Fixpoint everyM (f : string → option bool) (parts : list string) : option bool :=
  match parts with
  | [] => Some true
  | p :: rest =>
      match f p with
      | Some true => everyM f rest
      | Some false => Some false
      | None => None
      end
  end.

(** The body of [satisfiesVersion]; [recurse] stands for the recursive call
    [this.satisfiesVersion(version, _)] on a piece of the constraint. *)
Definition satisfiesVersion_body (recurse : string → option bool)
    (version constraint : string) : option bool :=
  match parseVersionParts version with
  | None => Some false
  | Some v =>
      let c := Js.trim constraint in
      if (c =? "latest")%string || (c =? "*")%string
         || (c =? "x")%string || (c =? "")%string
      then Some true
      else if Js.startsWith "^" c then
        match parseVersionParts (Js.slice 1 c) with
        | None => Some false
        | Some target =>
            if negb (major v =? major target) then Some false
            else Some (compareVersions version (Js.slice 1 c) >=? 0)
        end
      else if Js.startsWith "~" c then
        match parseVersionParts (Js.slice 1 c) with
        | None => Some false
        | Some target =>
            if negb (major v =? major target) || negb (minor v =? minor target)
            then Some false
            else Some (patch v >=? patch target)
        end
      else if Js.startsWith ">=" c then
        Some (compareVersions version (Js.trim (Js.slice 2 c)) >=? 0)
      else if Js.startsWith ">" c && negb (Js.startsWith ">=" c) then
        Some (compareVersions version (Js.trim (Js.slice 1 c)) >? 0)
      else if Js.startsWith "<=" c then
        Some (compareVersions version (Js.trim (Js.slice 2 c)) <=? 0)
      else if Js.startsWith "<" c && negb (Js.startsWith "<=" c) then
        Some (compareVersions version (Js.trim (Js.slice 1 c)) <? 0)
      else if Js.startsWith "=" c then
        Some (compareVersions version (Js.trim (Js.slice 1 c)) =? 0)
      else if Js.includes "x" c || Js.includes "*" c then
        Some (wildcardLoop [major v; minor v; patch v]
                (Js.split "." (Js.stripV c)) 0)
      else if Js.includes " - " c then
        (* [const [min, max] = ...]: the text holds " - ", so the split has
           at least two pieces *)
        match Js.trim <$> Js.split " - " c with
        | min :: max :: _ =>
            Some ((compareVersions version min >=? 0)
                  && (compareVersions version max <=? 0))
        | _ => Some false
        end
      else if Js.includes "||" c then
        someM (λ part, recurse (Js.trim part)) (Js.split "||" c)
      else if Js.includes " " c && negb (Js.includes " - " c) then
        everyM (λ part, recurse (Js.trim part)) (Js.splitWs c)
      else Some (compareVersions version c =? 0)
  end.

(** [satisfiesVersion], with the depth of the recursion through [||] and
    white space bounded by [fuel]; [None] means the bound was reached. *)
Fixpoint satisfiesVersion_fuel (fuel : nat) (version constraint : string)
  : option bool :=
  match fuel with
  | O => None
  | S fuel' =>
      satisfiesVersion_body (satisfiesVersion_fuel fuel' version) version constraint
  end.

(** The constraint gets strictly shorter at every recursive call, so its
    length plus one is enough fuel ([satisfiesVersion_fuel_total]), and the
    function obeys the recursive equation of the source
    ([satisfiesVersion_unfold]). *)
Definition satisfiesVersion (version constraint : string) : bool :=
  default false
    (satisfiesVersion_fuel (S (String.length constraint)) version constraint).

(** ** Data model (src/types/formula.ts, and [BaseTask]) *)

(** A call that either returns or throws. *)
Inductive Outcome (A : Type) : Type :=
| Returns (a : A)
| Throws (message : string).
Arguments Returns {A} a.
Arguments Throws {A} message.

(** What a call returned, if it did. *)
Definition returned {A} (o : Outcome A) : option A :=
  match o with
  | Returns a => Some a
  | Throws _ => None
  end.

(** JavaScript truthiness of an optional boolean and of an optional string. *)
Definition truthy (b : option bool) : bool := default false b.

Definition truthyString (s : option string) : bool :=
  match s with
  | Some s => negb (s =? "")%string
  | None => false
  end.

Module InstallStep.
Record t := {
  name : string;
  type : string;
  command : string;
  args : option (list string);
  optional : option bool;
  platforms : option (list string);
  env : option (gmap string string);
  cwd : option string;
  postInstall : option (list string)
}.
End InstallStep.

Module FormulaTask.
Record t := {
  id : string;
  name : string;
  description : option string;
  homepage : option string;
  steps : list InstallStep.t;
  dependencies : option (list string);
  tags : option (list string);
  category : string;
  version : option string
}.
End FormulaTask.

Module ResolvedFormula.
Record t := {
  name : string;
  version : string;
  description : option string;
  author : option string;
  updated : option string;
  tasks : list FormulaTask.t;
  categories : option (list string);
  variables : option (gmap string string);
  requireSudo : option bool
}.
End ResolvedFormula.

(** The fields of a [BaseTask] instance. *)
Module BaseTask.
Record t := {
  id : string;
  name : string;
  description : option string;
  homepage : option string;
  tags : list string;
  dependencies : list string;
  versionCommand : option string;
  versionParseRegex : option string;
  requireSudo : option bool;
  steps : list InstallStep.t
}.
End BaseTask.

Record VersionCheckResult := {
  installed : bool;
  currentVersion : option string;
  needsUpdate : bool;
  message : string
}.

Module StepResult.
Record t := {
  step : InstallStep.t;
  success : bool;
  output : option string;
  error : option string
}.
End StepResult.

Module TaskResult.
Record t := {
  task : FormulaTask.t;
  success : bool;
  steps : list StepResult.t;
  skipped : option bool;
  skipReason : option string
}.
End TaskResult.

Module InstallResult.
Record t := {
  formula : ResolvedFormula.t;
  success : bool;
  tasks : list TaskResult.t
}.
End InstallResult.

Module ExecutorOptions.
Record t := {
  selectedTasks : option (list string);
  selectedCategories : option (list string);
  dryRun : option bool;
  verbose : option bool;
  continueOnError : option bool;
  forceInstall : option bool;
  skipVersionCheck : option bool
}.
End ExecutorOptions.

(** ** The machine the engine runs on *)

(** What the engine asks of the outside world, in order. *)
Inductive Event :=
| EvExecSync (cmd : string)
| EvSpawn (command : string) (args : list string)
          (env : option (gmap string string)) (cwd : option string).

Definition Trace := list Event.

Definition isSpawn (e : Event) : bool :=
  match e with
  | EvSpawn _ _ _ _ => true
  | EvExecSync _ => false
  end.

(** How a spawned child process ends: it closes with an exit code ([None] is
    [null], a process ended by a signal), or it could not be spawned. *)
Inductive SpawnOutcome :=
| Closed (code : option Z) (stdout stderr : string)
| SpawnError (message : string).

(** [output.match(new RegExp(pattern))] for a pattern taken from a task
    document. *)
Inductive RegexOutcome :=
| RegexSyntaxError (message : string)
| RegexNoMatch
| RegexMatch (group1 : option string).

Record Machine := {
  (** [os.platform()] *)
  currentPlatform : string;
  (** [execSync(cmd, {timeout: 10000})]: the standard output, or [None] when
      it throws (non-zero exit, timeout, the command cannot be run). *)
  execSync : Trace → string → option string;
  (** [spawn(command, args, {cwd, env, shell: true})] until it settles. *)
  spawn : Trace → string → list string → option (gmap string string) →
          option string → SpawnOutcome;
  (** The regular expression engine on patterns of task documents. *)
  regexMatch : string → string → RegexOutcome;
  (** [taskRegistry] of tasks/index.ts: its own keys *)
  taskRegistry : gmap string BaseTask.t
}.

(** The names of the properties a plain object inherits from
    [Object.prototype]. *)
Definition objectPrototypeNames : list string :=
  ["constructor"; "__defineGetter__"; "__defineSetter__"; "hasOwnProperty";
   "__lookupGetter__"; "__lookupSetter__"; "isPrototypeOf";
   "propertyIsEnumerable"; "toString"; "valueOf"; "__proto__"; "toLocaleString"].

(** What [taskRegistry[id]] holds: a task, or an inherited property (a
    function, or the prototype itself), which is truthy and is not a task. *)
Inductive RegistryValue :=
| TaskInstance (task : BaseTask.t)
| InheritedProperty.

(** [getTask(id)], that is [taskRegistry[id]]; [None] is [undefined]. *)
Definition getTask (M : Machine) (id : string) : option RegistryValue :=
  match taskRegistry M !! id with
  | Some task => Some (TaskInstance task)
  | None =>
      if bool_decide (id ∈ objectPrototypeNames) then Some InheritedProperty
      else None
  end.


(** ** Version check ([BaseTask.parseVersion], [BaseTask.checkVersion]) *)

Definition isAlnumOrDot (c : ascii) : bool :=
  let n := N_of_ascii c in
  (Js.isDigit c || ((65 <=? n) && (n <=? 90)) || ((97 <=? n) && (n <=? 122))
   || (n =? 46))%N.

Fixpoint spanAlnumOrDot (s : string) : string :=
  match s with
  | String c s' => if isAlnumOrDot c then String c (spanAlnumOrDot s') else EmptyString
  | EmptyString => EmptyString
  end.

(** [(?:[-+][a-zA-Z0-9.]+)?] at the head of [s]: the text it matches. *)
Definition versionSuffix (s : string) : string :=
  match s with
  | String c r =>
      if (Ascii.eqb c "-" || Ascii.eqb c "+")
      then match spanAlnumOrDot r with
           | EmptyString => EmptyString
           | t => String c t
           end
      else EmptyString
  | EmptyString => EmptyString
  end.

(** [\d+\.\d+(?:\.\d+)?(?:[-+][a-zA-Z0-9.]+)?] at the head of [s]. *)
Definition versionCore (s : string) : option string :=
  match Js.spanDigits s with
  | (EmptyString, _) => None
  | (d1, String "." r) =>
      match Js.spanDigits r with
      | (EmptyString, _) => None
      | (d2, r2) =>
          let '(g3, r3) := Js.dotGroup r2 in
          let third := match g3 with Some d3 => "." +:+ d3 | None => EmptyString end in
          Some (d1 +:+ "." +:+ d2 +:+ third +:+ versionSuffix r3)
      end
  | _ => None
  end.

(** The default pattern at the head of [s]: an optional [v], then the
    captured group. *)
Definition versionAt (s : string) : option string :=
  match s with
  | String "v" r =>
      match versionCore r with
      | Some g => Some g
      | None => versionCore s
      end
  | _ => versionCore s
  end.

(** [output.match(/v?(\d+\.\d+(?:\.\d+)?(?:[-+][a-zA-Z0-9.]+)?)/)]: the first
    capture group of the leftmost match. *)
Fixpoint defaultVersionMatch (output : string) : option string :=
  match versionAt output with
  | Some g => Some g
  | None =>
      match output with
      | String _ rest => defaultVersionMatch rest
      | EmptyString => None
      end
  end.

Definition parseVersion (M : Machine) (task : BaseTask.t) (output : string)
  : Outcome (option string) :=
  if truthyString (BaseTask.versionParseRegex task) then
    match regexMatch M (default EmptyString (BaseTask.versionParseRegex task)) output with
    | RegexSyntaxError msg => Throws msg
    | RegexNoMatch => Returns None
    | RegexMatch group1 => Returns group1
    end
  else Returns (defaultVersionMatch output).

Definition checkVersion (M : Machine) (task : BaseTask.t)
    (desiredVersionArg : option string) (tr : Trace)
  : VersionCheckResult * Trace :=
  let desiredVersion := default "latest" desiredVersionArg in
  if negb (truthyString (BaseTask.versionCommand task)) then
    ({| installed := false; currentVersion := None; needsUpdate := true;
        message := "Version check not supported for " +:+ BaseTask.name task |},
     tr)
  else
    let versionCmd := default EmptyString (BaseTask.versionCommand task) in
    let tr1 := tr ++ [EvExecSync versionCmd] in
    let notInstalled :=
      {| installed := false; currentVersion := None; needsUpdate := true;
         message := BaseTask.name task +:+ " is not installed" |} in
    match execSync M tr versionCmd with
    | None => (notInstalled, tr1)
    | Some stdout =>
        let output := Js.trim stdout in
        match parseVersion M task output with
        | Throws _ => (notInstalled, tr1)
        | Returns parsed =>
            if negb (truthyString parsed) then
              ({| installed := true; currentVersion := None; needsUpdate := false;
                  message := BaseTask.name task +:+ " is installed (version unknown)" |},
               tr1)
            else
              let current := default EmptyString parsed in
              let satisfies := satisfiesVersion current desiredVersion in
              ({| installed := true; currentVersion := Some current;
                  needsUpdate := negb satisfies;
                  message :=
                    if satisfies
                    then BaseTask.name task +:+ " " +:+ current +:+ " satisfies "
                         +:+ desiredVersion
                    else BaseTask.name task +:+ " " +:+ current
                         +:+ " does not satisfy " +:+ desiredVersion |},
               tr1)
        end
    end.

(** ** Step executor ([StepExecutor]) *)

(** The step types [FormulaParser.validateStep] accepts. *)
Definition validTypes : list string :=
  ["brew"; "npm"; "apt"; "shell"; "curl"; "git"; "pip"].

(** [validTypes.includes(step.type)] *)
Definition isValidType (type : string) : bool :=
  bool_decide (type ∈ validTypes).

Definition shouldRunOnPlatform (M : Machine) (step : InstallStep.t) : bool :=
  match InstallStep.platforms step with
  | None => true
  | Some [] => true
  | Some platforms => bool_decide (currentPlatform M ∈ platforms)
  end.

Definition buildCommand (step : InstallStep.t) : Outcome (string * list string) :=
  let baseArgs := default [] (InstallStep.args step) in
  let type := InstallStep.type step in
  let command := InstallStep.command step in
  if (type =? "brew")%string then
    Returns ("brew", ["install"; command] ++ baseArgs)
  else if (type =? "npm")%string then
    Returns ("npm", ["install"; "-g"; command] ++ baseArgs)
  else if (type =? "pip")%string then
    Returns ("pip3", ["install"; command] ++ baseArgs)
  else if (type =? "apt")%string then
    Returns ("sudo", ["apt-get"; "install"; "-y"; command] ++ baseArgs)
  else if (type =? "shell")%string then
    Returns ("sh", ["-c"; command] ++ baseArgs)
  else if (type =? "curl")%string then
    Returns ("sh", ["-c"; "curl -fsSL " +:+ command +:+ " | sh"] ++ baseArgs)
  else if (type =? "git")%string then
    Returns ("git", ["clone"; command] ++ baseArgs)
  else Throws ("Unknown step type: " +:+ type).

(** The text of an exit code inside a template literal. *)
Definition showCode (code : option Z) : string :=
  match code with
  | Some n => pretty n
  | None => "null"
  end.

(** [runCommand]: the promise resolves with the standard output on exit code
    0 and rejects with an error message otherwise. *)
Definition runCommand (M : Machine) (command : string) (args : list string)
    (env : option (gmap string string)) (cwd : option string) (tr : Trace)
  : (string + string) * Trace :=
  let tr1 := tr ++ [EvSpawn command args env cwd] in
  match spawn M tr command args env cwd with
  | Closed code stdout stderr =>
      if bool_decide (code = Some 0) then (inl stdout, tr1)
      else if negb (stderr =? "")%string then (inr stderr, tr1)
      else (inr ("Command failed with exit code " +:+ showCode code), tr1)
  | SpawnError msg => (inr msg, tr1)
  end.

(** The loop over [step.postInstall]: the first rejection ends it. *)
Fixpoint runPostInstall (M : Machine) (step : InstallStep.t)
    (cmds : list string) (tr : Trace) : option string * Trace :=
  match cmds with
  | [] => (None, tr)
  | postCmd :: rest =>
      match runCommand M "sh" ["-c"; postCmd]
              (InstallStep.env step) (InstallStep.cwd step) tr with
      | (inl _, tr1) => runPostInstall M step rest tr1
      | (inr msg, tr1) => (Some msg, tr1)
      end
  end.

(** What the [catch] block of [StepExecutor.execute] returns. *)
Definition stepFailure (step : InstallStep.t) (errorMessage : string) : StepResult.t :=
  {| StepResult.step := step;
     StepResult.success := default false (InstallStep.optional step);
     StepResult.output := None;
     StepResult.error := Some errorMessage |}.

Definition stepExecute (M : Machine) (step : InstallStep.t) (tr : Trace)
  : StepResult.t * Trace :=
  if negb (shouldRunOnPlatform M step) then
    ({| StepResult.step := step;
        StepResult.success := true;
        StepResult.output :=
          Some ("Skipped: not applicable for " +:+ currentPlatform M);
        StepResult.error := None |}, tr)
  else
    match buildCommand step with
    | Throws msg => (stepFailure step msg, tr)
    | Returns (command, args) =>
        match runCommand M command args
                (InstallStep.env step) (InstallStep.cwd step) tr with
        | (inr msg, tr1) => (stepFailure step msg, tr1)
        | (inl output, tr1) =>
            match runPostInstall M step
                    (default [] (InstallStep.postInstall step)) tr1 with
            | (Some msg, tr2) => (stepFailure step msg, tr2)
            | (None, tr2) =>
                ({| StepResult.step := step;
                    StepResult.success := true;
                    StepResult.output := Some output;
                    StepResult.error := None |}, tr2)
            end
        end
    end.

(** ** Formula executor ([FormulaExecutor]) *)

(** A [FormulaExecutor] instance together with the history of the machine:
    [installedTasks] is the instance's private field. *)
Record ExecState := {
  installedTasks : gset string;
  trace : Trace
}.

(** [new FormulaExecutor()] on a machine with history [tr]. *)
Definition newFormulaExecutor (tr : Trace) : ExecState :=
  {| installedTasks := ∅; trace := tr |}.

Definition withTrace (st : ExecState) (tr : Trace) : ExecState :=
  {| installedTasks := installedTasks st; trace := tr |}.

Definition addInstalled (id : string) (st : ExecState) : ExecState :=
  {| installedTasks := installedTasks st ∪ {[id]}; trace := trace st |}.

(** [parts.join(', ')] *)
Fixpoint join (sep : string) (parts : list string) : string :=
  match parts with
  | [] => EmptyString
  | [p] => p
  | p :: rest => p +:+ sep +:+ join sep rest
  end.

(** [checkTaskVersion]: the promise is rejected with a [TypeError] when the
    value found under the task's id is an inherited property, which has no
    [checkVersion] method. *)
Definition checkTaskVersion (M : Machine) (task : FormulaTask.t) (tr : Trace)
  : Outcome VersionCheckResult * Trace :=
  match getTask M (FormulaTask.id task) with
  | None =>
      (Returns {| installed := false; currentVersion := None; needsUpdate := true;
                  message := "Task not found in registry" |}, tr)
  | Some InheritedProperty =>
      (Throws "taskInstance.checkVersion is not a function", tr)
  | Some (TaskInstance taskInstance) =>
      let desiredVersion :=
        if truthyString (FormulaTask.version task)
        then default EmptyString (FormulaTask.version task)
        else "latest" in
      let '(versionCheck, tr1) :=
        checkVersion M taskInstance (Some desiredVersion) tr in
      (Returns versionCheck, tr1)
  end.

(** [task.dependencies.filter(dep => !this.installedTasks.has(dep))] *)
Definition missingDeps (installed : gset string) (task : FormulaTask.t) : list string :=
  match FormulaTask.dependencies task with
  | Some deps => filter (λ dep, dep ∉ installed) deps
  | None => []
  end.

(** The result returned by the dependency gate. *)
Definition missingDepsResult (task : FormulaTask.t) (missing : list string)
  : TaskResult.t :=
  {| TaskResult.task := task;
     TaskResult.success := false;
     TaskResult.steps := [];
     TaskResult.skipped := Some true;
     TaskResult.skipReason := Some ("Missing dependencies: " +:+ join ", " missing) |}.

Definition dryRunStepResult (step : InstallStep.t) : StepResult.t :=
  {| StepResult.step := step;
     StepResult.success := true;
     StepResult.output := Some "Dry run - no action taken";
     StepResult.error := None |}.

(** The loop over [task.steps] of [executeTask]: [inl] is the early return
    on a failed step, [inr] the step results when the loop ran to its end. *)
Fixpoint stepLoop (M : Machine) (task : FormulaTask.t) (options : ExecutorOptions.t)
    (steps : list InstallStep.t) (stepResults : list StepResult.t) (tr : Trace)
  : (TaskResult.t + list StepResult.t) * Trace :=
  match steps with
  | [] => (inr stepResults, tr)
  | step :: rest =>
      if truthy (ExecutorOptions.dryRun options) then
        stepLoop M task options rest (stepResults ++ [dryRunStepResult step]) tr
      else
        let '(result, tr1) := stepExecute M step tr in
        let stepResults1 := stepResults ++ [result] in
        if StepResult.success result then
          stepLoop M task options rest stepResults1 tr1
        else if truthy (InstallStep.optional step) then
          stepLoop M task options rest stepResults1 tr1
        else
          (inl {| TaskResult.task := task;
                  TaskResult.success := false;
                  TaskResult.steps := stepResults1;
                  TaskResult.skipped := None;
                  TaskResult.skipReason := None |}, tr1)
  end.

(** What [executeTask] does once the dependency gate and the version gate
    let the task through; a rejected version check after the steps rejects
    the whole call. *)
Definition installTask (M : Machine) (task : FormulaTask.t)
    (options : ExecutorOptions.t) (tr : Trace) : Outcome TaskResult.t * Trace :=
  match stepLoop M task options (FormulaTask.steps task) [] tr with
  | (inl failed, tr1) => (Returns failed, tr1)
  | (inr stepResults, tr1) =>
      match checkTaskVersion M task tr1 with
      | (Throws error, tr2) => (Throws error, tr2)
      | (Returns _, tr2) =>
          (Returns {| TaskResult.task := task;
                      TaskResult.success := true;
                      TaskResult.steps := stepResults;
                      TaskResult.skipped := None;
                      TaskResult.skipReason := None |}, tr2)
      end
  end.

(** [executeTask]: the result, or the error of a rejected version check,
    and the executor afterwards. *)
Definition executeTask (M : Machine) (task : FormulaTask.t)
    (options : ExecutorOptions.t) (st : ExecState)
  : Outcome TaskResult.t * ExecState :=
  let missing := missingDeps (installedTasks st) task in
  if bool_decide (0 < length missing)%nat then
    (Returns (missingDepsResult task missing), st)
  else if negb (truthy (ExecutorOptions.forceInstall options))
          && negb (truthy (ExecutorOptions.skipVersionCheck options))
          && negb (truthy (ExecutorOptions.dryRun options)) then
    match checkTaskVersion M task (trace st) with
    | (Throws error, tr1) => (Throws error, withTrace st tr1)
    | (Returns versionCheck, tr1) =>
        if installed versionCheck && negb (needsUpdate versionCheck) then
          (Returns {| TaskResult.task := task;
                      TaskResult.success := true;
                      TaskResult.steps := [];
                      TaskResult.skipped := Some true;
                      TaskResult.skipReason := Some (message versionCheck) |},
           withTrace st tr1)
        else
          let '(result, tr2) := installTask M task options tr1 in
          (result, withTrace st tr2)
    end
  else
    let '(result, tr2) := installTask M task options (trace st) in
    (result, withTrace st tr2).

Definition nonEmpty {A} (l : option (list A)) : bool :=
  match l with
  | Some (_ :: _) => true
  | _ => false
  end.

Definition filterTasks (formula : ResolvedFormula.t) (options : ExecutorOptions.t)
  : list FormulaTask.t :=
  let tasks := ResolvedFormula.tasks formula in
  let tasks :=
    if nonEmpty (ExecutorOptions.selectedTasks options)
    then filter (λ task, FormulaTask.id task
                         ∈ default [] (ExecutorOptions.selectedTasks options)) tasks
    else tasks in
  if nonEmpty (ExecutorOptions.selectedCategories options)
  then filter (λ task, FormulaTask.category task ≠ EmptyString
                       ∧ FormulaTask.category task
                         ∈ default [] (ExecutorOptions.selectedCategories options)) tasks
  else tasks.

(** *** Dependency scheduler *)

(** [new Map(tasks.map(task => [task.id, task]))]: a later entry replaces an
    earlier one with the same id. *)
Definition taskMapOf (tasks : list FormulaTask.t) : gmap string FormulaTask.t :=
  foldl (λ m task, <[FormulaTask.id task := task]> m) ∅ tasks.

(** The closure variables [visited] and [result] of [topologicalSort]. *)
Record SortState := {
  visited : gset string;
  result : list FormulaTask.t
}.

(** [for (const depId of task.dependencies)]: the dependencies found in the
    map are visited in order, the others are passed over. *)
Fixpoint visitDependencies (visitTask : FormulaTask.t → SortState → option SortState)
    (taskMap : gmap string FormulaTask.t) (deps : list string) (st : SortState)
  : option SortState :=
  match deps with
  | [] => Some st
  | depId :: rest =>
      match taskMap !! depId with
      | Some dep =>
          st' ← visitTask dep st;
          visitDependencies visitTask taskMap rest st'
      | None => visitDependencies visitTask taskMap rest st
      end
  end.

(** The inner function [visit], its recursion depth bounded by [fuel];
    [None] means the bound was reached. *)
Fixpoint visit (fuel : nat) (taskMap : gmap string FormulaTask.t)
    (task : FormulaTask.t) (st : SortState) : option SortState :=
  match fuel with
  | O => None
  | S fuel' =>
      if bool_decide (FormulaTask.id task ∈ visited st) then Some st
      else
        let st1 := {| visited := visited st ∪ {[FormulaTask.id task]};
                      result := result st |} in
        st2 ← visitDependencies (visit fuel' taskMap) taskMap
                (default [] (FormulaTask.dependencies task)) st1;
        Some {| visited := visited st2; result := result st2 ++ [task] |}
  end.

(** [for (const task of tasks) visit(task)] *)
Fixpoint visitAll (fuel : nat) (taskMap : gmap string FormulaTask.t)
    (tasks : list FormulaTask.t) (st : SortState) : option SortState :=
  match tasks with
  | [] => Some st
  | task :: rest =>
      st' ← visit fuel taskMap task st;
      visitAll fuel taskMap rest st'
  end.

Definition topologicalSort_fuel (fuel : nat) (tasks : list FormulaTask.t)
  : option (list FormulaTask.t) :=
  result <$> visitAll fuel (taskMapOf tasks) tasks {| visited := ∅; result := [] |}.

(** Every nested call of [visit] marks one more id of the map as visited, so
    the number of tasks plus one bounds the depth
    ([topologicalSort_fuel_total]). *)
Definition topologicalSort (tasks : list FormulaTask.t) : list FormulaTask.t :=
  default [] (topologicalSort_fuel (S (length tasks)) tasks).

(** *** The run *)

(** [r.success || r.skipped] *)
Definition successOrSkipped (r : TaskResult.t) : bool :=
  TaskResult.success r || truthy (TaskResult.skipped r).

(** The loop over the sorted tasks of [execute]; a rejected [executeTask]
    ends it, and the results collected so far are lost with it. *)
Fixpoint taskLoop (M : Machine) (options : ExecutorOptions.t)
    (sortedTasks : list FormulaTask.t) (taskResults : list TaskResult.t)
    (st : ExecState) : Outcome (list TaskResult.t) * ExecState :=
  match sortedTasks with
  | [] => (Returns taskResults, st)
  | task :: rest =>
      match executeTask M task options st with
      | (Throws error, st1) => (Throws error, st1)
      | (Returns result, st1) =>
          let taskResults1 := taskResults ++ [result] in
          if successOrSkipped result then
            taskLoop M options rest taskResults1
              (addInstalled (FormulaTask.id task) st1)
          else if negb (truthy (ExecutorOptions.continueOnError options)) then
            (Returns taskResults1, st1)
          else taskLoop M options rest taskResults1 st1
      end
  end.

(** [execute]: the result of the run, or the error that rejected it, and the
    executor afterwards. *)
Definition execute (M : Machine) (formula : ResolvedFormula.t)
    (options : ExecutorOptions.t) (st : ExecState)
  : Outcome InstallResult.t * ExecState :=
  let tasksToInstall := filterTasks formula options in
  if bool_decide (length tasksToInstall = 0%nat) then
    (Returns {| InstallResult.formula := formula;
                InstallResult.success := true;
                InstallResult.tasks := [] |}, st)
  else
    let sortedTasks := topologicalSort tasksToInstall in
    match taskLoop M options sortedTasks [] st with
    | (Throws error, st1) => (Throws error, st1)
    | (Returns taskResults, st1) =>
        (Returns {| InstallResult.formula := formula;
                    InstallResult.success := forallb successOrSkipped taskResults;
                    InstallResult.tasks := taskResults |}, st1)
    end.

(** ** Notions the statements below use *)

(** A child process failed: it closed with an exit code other than 0, or it
    could not be spawned. *)
Definition commandFailed (o : SpawnOutcome) : bool :=
  match o with
  | Closed code _ _ => negb (bool_decide (code = Some 0))
  | SpawnError _ => true
  end.

(** The error objects of the runtime's spawn failures carry a message (such
    as "spawn /bin/sh ENOENT"). *)
Definition spawnErrorsHaveMessage (M : Machine) : Prop :=
  ∀ tr command args env cwd message,
    spawn M tr command args env cwd = SpawnError message → message ≠ EmptyString.

(** The history at which [executeTask] enters its loop over the steps, [None]
    when the dependency gate or the version gate returns first, or the
    version check of the gate is rejected. *)
Definition stepsStart (M : Machine) (task : FormulaTask.t)
    (options : ExecutorOptions.t) (st : ExecState) : option Trace :=
  if bool_decide (0 < length (missingDeps (installedTasks st) task))%nat then None
  else if negb (truthy (ExecutorOptions.forceInstall options))
          && negb (truthy (ExecutorOptions.skipVersionCheck options))
          && negb (truthy (ExecutorOptions.dryRun options)) then
    match checkTaskVersion M task (trace st) with
    | (Throws _, _) => None
    | (Returns versionCheck, tr1) =>
        if installed versionCheck && negb (needsUpdate versionCheck) then None
        else Some tr1
    end
  else Some (trace st).

(** The result [executeTask] returns at a failed step that is not optional. *)
Definition failedTaskResult (task : FormulaTask.t) (stepResults : list StepResult.t)
  : TaskResult.t :=
  {| TaskResult.task := task;
     TaskResult.success := false;
     TaskResult.steps := stepResults;
     TaskResult.skipped := None;
     TaskResult.skipReason := None |}.

(** The ids of a list of tasks. *)
Definition taskIds (tasks : list FormulaTask.t) : list string :=
  FormulaTask.id <$> tasks.

(** [task] lists [depId] as a dependency. *)
Definition listsDependency (task : FormulaTask.t) (depId : string) : Prop :=
  depId ∈ default [] (FormulaTask.dependencies task).

(** The dependency graph restricted to the input: [A] and [B] are tasks of
    the input and [A] lists the id of [B]. *)
Definition dependencyEdge (tasks : list FormulaTask.t) (A B : FormulaTask.t) : Prop :=
  A ∈ tasks ∧ B ∈ tasks ∧ listsDependency A (FormulaTask.id B).

(** No task reaches itself along one or more edges. *)
Definition acyclicDependencies (tasks : list FormulaTask.t) : Prop :=
  ∀ A, ¬ tc (dependencyEdge tasks) A A.

(** [B] comes before [A] in [sorted]. *)
Definition comesBefore (sorted : list FormulaTask.t) (B A : FormulaTask.t) : Prop :=
  ∃ i j, (i < j)%nat ∧ sorted !! i = Some B ∧ sorted !! j = Some A.

(** [task] with the dependency ids outside [keep] removed from its list. *)
Definition keepDependencies (keep : list string) (task : FormulaTask.t)
  : FormulaTask.t :=
  {| FormulaTask.id := FormulaTask.id task;
     FormulaTask.name := FormulaTask.name task;
     FormulaTask.description := FormulaTask.description task;
     FormulaTask.homepage := FormulaTask.homepage task;
     FormulaTask.steps := FormulaTask.steps task;
     FormulaTask.dependencies :=
       filter (λ depId, depId ∈ keep) <$> FormulaTask.dependencies task;
     FormulaTask.tags := FormulaTask.tags task;
     FormulaTask.category := FormulaTask.category task;
     FormulaTask.version := FormulaTask.version task |}.

(** The input with every dependency id that is the id of no task of the
    input removed. *)
Definition withoutAbsentDependencies (tasks : list FormulaTask.t)
  : list FormulaTask.t :=
  keepDependencies (taskIds tasks) <$> tasks.

(** The ids the run loop adds: those of the results that succeeded or were
    skipped. *)
Definition addedIds (taskResults : list TaskResult.t) : gset string :=
  list_to_set ((FormulaTask.id ∘ TaskResult.task)
                 <$> filter (λ r, successOrSkipped r = true) taskResults).

(** *** Invariants of the scheduler *)

(** Visited, and not yet in the result: the calls of [visit] in progress. *)
Definition inProgress (st : SortState) (g : string) : Prop :=
  g ∈ visited st ∧ g ∉ taskIds (result st).

(** No id occurs twice in the result; every task of the result is a visited
    task of the input, and the tasks of the input it depends on stand before
    it. *)
Definition sortedSoFar (tasks : list FormulaTask.t) (st : SortState) : Prop :=
  NoDup (taskIds (result st))
  ∧ ∀ i t, result st !! i = Some t →
      t ∈ tasks ∧ FormulaTask.id t ∈ visited st
      ∧ ∀ D, D ∈ tasks → listsDependency t (FormulaTask.id D) →
             ∃ j, (j < i)%nat ∧ result st !! j = Some D.

(** What a call [visit task] from [st] to [st'] achieves: the result grows
    by tasks that were not visited before, [task] is in it, and no call is
    left in progress that was not in progress before. *)
Definition visited_to (tasks : list FormulaTask.t) (task : FormulaTask.t)
    (st st' : SortState) : Prop :=
  sortedSoFar tasks st'
  ∧ (∃ ext, result st' = result st ++ ext
            ∧ ∀ t, t ∈ ext → FormulaTask.id t ∉ visited st)
  ∧ visited st ⊆ visited st'
  ∧ task ∈ result st'
  ∧ (∀ g, inProgress st' g → inProgress st g).

(** A state of the scheduler with the dependency ids outside [keep] removed
    from the tasks of its result. *)
Definition prunedState (keep : list string) (st : SortState) : SortState :=
  {| visited := visited st; result := keepDependencies keep <$> result st |}.

(** *** Notions for re-runs *)

(** The version check of [task] reports version [v]: the task is in the
    registry with a version command, and whenever that command is run it
    succeeds with an output from which [v] is parsed. *)
Definition reportsVersion (M : Machine) (task : FormulaTask.t) (v : string) : Prop :=
  ∃ taskInstance cmd,
    taskRegistry M !! FormulaTask.id task = Some taskInstance
    ∧ BaseTask.versionCommand taskInstance = Some cmd
    ∧ cmd ≠ EmptyString
    ∧ ∀ tr, ∃ stdout,
        execSync M tr cmd = Some stdout
        ∧ parseVersion M taskInstance (Js.trim stdout) = Returns (Some v).

(** Neither [forceInstall] nor [skipVersionCheck] nor [dryRun] is set. *)
Definition versionGateOn (options : ExecutorOptions.t) : Prop :=
  truthy (ExecutorOptions.forceInstall options) = false
  ∧ truthy (ExecutorOptions.skipVersionCheck options) = false
  ∧ truthy (ExecutorOptions.dryRun options) = false.

(** A result of the version gate: skipped, successful, no step run. *)
Definition alreadySatisfied (r : TaskResult.t) : Prop :=
  TaskResult.success r = true
  ∧ TaskResult.skipped r = Some true
  ∧ TaskResult.steps r = [].

(** A result of one of the two gates: skipped, no step run, and successful
    unless it is the result of the dependency gate. *)
Definition skippedByGate (r : TaskResult.t) : Prop :=
  TaskResult.skipped r = Some true
  ∧ TaskResult.steps r = []
  ∧ (TaskResult.success r = true
     ∨ ∃ missing, missing ≠ [] ∧ r = missingDepsResult (TaskResult.task r) missing).

(** ** Sample data *)

Module Sample.

Definition step (name type command : string) (optional : option bool)
  : InstallStep.t :=
  {| InstallStep.name := name;
     InstallStep.type := type;
     InstallStep.command := command;
     InstallStep.args := None;
     InstallStep.optional := optional;
     InstallStep.platforms := None;
     InstallStep.env := None;
     InstallStep.cwd := None;
     InstallStep.postInstall := None |}.

Definition task (id : string) (dependencies : option (list string))
    (steps : list InstallStep.t) (version : option string) : FormulaTask.t :=
  {| FormulaTask.id := id;
     FormulaTask.name := id;
     FormulaTask.description := None;
     FormulaTask.homepage := None;
     FormulaTask.steps := steps;
     FormulaTask.dependencies := dependencies;
     FormulaTask.tags := None;
     FormulaTask.category := "dev";
     FormulaTask.version := version |}.

Definition formula (tasks : list FormulaTask.t) : ResolvedFormula.t :=
  {| ResolvedFormula.name := "sample";
     ResolvedFormula.version := "1.0.0";
     ResolvedFormula.description := None;
     ResolvedFormula.author := None;
     ResolvedFormula.updated := None;
     ResolvedFormula.tasks := tasks;
     ResolvedFormula.categories := None;
     ResolvedFormula.variables := None;
     ResolvedFormula.requireSudo := None |}.

Definition options (dryRun : option bool) : ExecutorOptions.t :=
  {| ExecutorOptions.selectedTasks := None;
     ExecutorOptions.selectedCategories := None;
     ExecutorOptions.dryRun := dryRun;
     ExecutorOptions.verbose := None;
     ExecutorOptions.continueOnError := None;
     ExecutorOptions.forceInstall := None;
     ExecutorOptions.skipVersionCheck := None |}.

Definition bundled (id : string) (versionCommand : option string) : BaseTask.t :=
  {| BaseTask.id := id;
     BaseTask.name := id;
     BaseTask.description := None;
     BaseTask.homepage := None;
     BaseTask.tags := [];
     BaseTask.dependencies := [];
     BaseTask.versionCommand := versionCommand;
     BaseTask.versionParseRegex := None;
     BaseTask.requireSudo := None;
     BaseTask.steps := [] |}.

(** A machine on which every tool reports version 2.0.0, the command
    "broken" cannot be run, "quiet" prints no version, and every spawned
    command but "brew" exits with code 1. *)
Definition machine : Machine :=
  {| currentPlatform := "darwin";
     execSync := λ _ cmd,
       if (cmd =? "broken")%string then None
       else if (cmd =? "quiet")%string then Some "ready"
       else Some "tool version 2.0.0";
     spawn := λ _ command _ _ _,
       if (command =? "brew")%string then Closed (Some 0) "done" EmptyString
       else Closed (Some 1) EmptyString EmptyString;
     regexMatch := λ _ _, RegexNoMatch;
     taskRegistry :=
       {[ "git" := bundled "git" (Some "git --version");
          "gh" := bundled "gh" (Some "gh --version");
          "broken" := bundled "broken" (Some "broken");
          "quiet" := bundled "quiet" (Some "quiet");
          "plain" := bundled "plain" None ]} |}.

End Sample.

Module SampleSteps.
Definition fetch : InstallStep.t := Sample.step "Fetch" "brew" "git" None.
Definition tune : InstallStep.t := Sample.step "Tune" "shell" "false" (Some true).
Definition link : InstallStep.t := Sample.step "Link" "npm" "left-pad" None.
Definition finish : InstallStep.t := Sample.step "Finish" "git" "repo" None.

(** A task outside the registry with four steps: the second is optional
    and fails, the third is not optional and fails. *)
Definition tool : FormulaTask.t :=
  Sample.task "tool" None [fetch; tune; link; finish] None.
End SampleSteps.

Module SampleRun.
(** A task whose only dependency is not part of the formula. *)
Definition gh : FormulaTask.t :=
  Sample.task "gh" (Some ["git"]) [] (Some "^2.0.0").
Definition git : FormulaTask.t :=
  Sample.task "git" (Some []) [] (Some "^2.0.0").
Definition onlyGh : ResolvedFormula.t := Sample.formula [gh].
Definition onlyGit : ResolvedFormula.t := Sample.formula [git].
(** [gh] is listed before the task it depends on. *)
Definition both : ResolvedFormula.t := Sample.formula [gh; git].
End SampleRun.

Module SampleDuplicates.
(** Two tasks share the id "node"; only the second lists "nvm". *)
Definition node : FormulaTask.t := Sample.task "node" (Some []) [] None.
Definition node' : FormulaTask.t := Sample.task "node" (Some ["nvm"]) [] None.
Definition nvm : FormulaTask.t := Sample.task "nvm" (Some []) [] None.
Definition tasks : list FormulaTask.t := [node; node'; nvm].
End SampleDuplicates.


(** ** Further notions for statements *)

(** Every character of [s] satisfies [f]. *)
Fixpoint allChars (f : ascii → bool) (s : string) : bool :=
  match s with
  | String c s' => f c && allChars f s'
  | EmptyString => true
  end.

(** A digit or a dot. *)
Definition isDigitOrDot (c : ascii) : bool :=
  Js.isDigit c || Ascii.eqb c ".".


(** On the trimmed constraint [c], [satisfiesVersion] takes one of its
    branches for a single rule: any version, caret, tilde, a comparison
    operator or a wildcard. *)
Definition singleRule (c : string) : bool :=
  (c =? "latest")%string || (c =? "*")%string || (c =? "x")%string || (c =? "")%string
  || Js.startsWith "^" c || Js.startsWith "~" c
  || Js.startsWith ">" c || Js.startsWith "<" c || Js.startsWith "=" c
  || Js.includes "x" c || Js.includes "*" c.

(** The event of one post-install command of [step]. *)
Definition postInstallEvent (step : InstallStep.t) (postCmd : string) : Event :=
  EvSpawn "sh" ["-c"; postCmd] (InstallStep.env step) (InstallStep.cwd step).

(** What [execute] returns for a step that does not apply to the platform. *)
Definition platformSkip (M : Machine) (step : InstallStep.t) : StepResult.t :=
  {| StepResult.step := step;
     StepResult.success := true;
     StepResult.output := Some ("Skipped: not applicable for " +:+ currentPlatform M);
     StepResult.error := None |}.

(** What [executeTask] returns in a dry run for a task whose dependencies are
    not missing. *)
Definition dryRunResult (task : FormulaTask.t) : TaskResult.t :=
  {| TaskResult.task := task;
     TaskResult.success := true;
     TaskResult.steps := dryRunStepResult <$> FormulaTask.steps task;
     TaskResult.skipped := None;
     TaskResult.skipReason := None |}.

(** ** The summary ([FormulaExecutor.printSummary]) *)

(** [r.skipReason?.includes('installed')], as a condition. *)
Definition reasonIncludesInstalled (r : TaskResult.t) : bool :=
  match TaskResult.skipReason r with
  | Some reason => Js.includes "installed" reason
  | None => false
  end.

(** The four lists of [printSummary]: each one is printed, when it is not
    empty, with its length and the names of its tasks. *)
Module Summary.
Record t := {
  installed : list TaskResult.t;
  alreadyInstalled : list TaskResult.t;
  failed : list TaskResult.t;
  skippedOther : list TaskResult.t
}.
End Summary.

Definition printSummary (results : list TaskResult.t) : Summary.t :=
  {| Summary.installed :=
       filter (λ r, TaskResult.success r && negb (truthy (TaskResult.skipped r)) = true)
         results;
     Summary.alreadyInstalled :=
       filter (λ r, truthy (TaskResult.skipped r) && reasonIncludesInstalled r = true)
         results;
     Summary.failed :=
       filter (λ r, negb (TaskResult.success r) && negb (truthy (TaskResult.skipped r))
                    = true) results;
     Summary.skippedOther :=
       filter (λ r, truthy (TaskResult.skipped r) && negb (reasonIncludesInstalled r)
                    = true) results |}.

(** The character [c] occurs in [s]. *)
Fixpoint hasChar (c : ascii) (s : string) : bool :=
  match s with
  | String x s' => Ascii.eqb x c || hasChar c s'
  | EmptyString => false
  end.

(** ** Further notions for the scheduler *)

(** From [st] to [st'] the result grew by [new], tasks with pairwise distinct
    ids none of which was visited in [st], and the visited ids grew by the
    ids of [new]. *)
Definition grewBy (st st' : SortState) (new : list FormulaTask.t) : Prop :=
  result st' = result st ++ new
  ∧ visited st' = visited st ∪ list_to_set (taskIds new)
  ∧ NoDup (taskIds new)
  ∧ ∀ g, g ∈ taskIds new → g ∉ visited st.

(** Every dependency of a task that names a task of the list names the task
    itself or one that stands before it. *)
Definition dependenciesFirst (tasks : list FormulaTask.t) : Prop :=
  ∀ i t d, tasks !! i = Some t → listsDependency t d → d ∈ taskIds tasks →
           d ∈ taskIds (take (S i) tasks).

Module SampleCycle.
(** Two tasks that depend on each other, and a third one that lists itself
    and an id outside the list. *)
Definition a : FormulaTask.t := Sample.task "a" (Some ["b"]) [] None.
Definition b : FormulaTask.t := Sample.task "b" (Some ["a"]) [] None.
Definition c : FormulaTask.t := Sample.task "c" (Some ["c"; "zsh"]) [] None.
Definition tasks : list FormulaTask.t := [a; b; c].
End SampleCycle.

(** ** Resolving the task references of a formula
       ([FormulaParser.resolveBuiltinTasks]) *)

Module TaskReference.
Record t := {
  id : string;
  category : string;
  version : option string
}.
End TaskReference.

(** The double quote character of the messages. *)
Definition quote : string := String (Ascii.ascii_of_nat 34) EmptyString.





Module SampleRefs.
Definition git : TaskReference.t :=
  {| TaskReference.id := "git"; TaskReference.category := "vcs";
     TaskReference.version := Some "^2.0.0" |}.
Definition gh : TaskReference.t :=
  {| TaskReference.id := "gh"; TaskReference.category := "vcs";
     TaskReference.version := None |}.
End SampleRefs.

(** ** The dependency check of the [validate] command (src/cli.ts) *)

(** The flag [hasDepErrors] after the two nested [forEach] loops: it is set
    when a task lists an id that is not the id of a task of the formula. *)
Definition hasDepErrors (formula : ResolvedFormula.t) : bool :=
  let taskIds : gset string :=
    list_to_set (FormulaTask.id <$> ResolvedFormula.tasks formula) in
  foldl (λ flag task,
           match FormulaTask.dependencies task with
           | Some deps =>
               foldl (λ flag dep, if bool_decide (dep ∈ taskIds) then flag else true)
                 flag deps
           | None => flag
           end)
    false (ResolvedFormula.tasks formula).

(** A result that is neither a success nor a skip: an installation that
    failed. *)
Definition failedInstall (r : TaskResult.t) : Prop :=
  successOrSkipped r = false.

(** In a list of results, every skip for missing dependencies stands behind
    the failed installation of one of the dependencies of its task. *)
Definition skipsFollowFailures (results : list TaskResult.t) : Prop :=
  ∀ i r, results !! i = Some r →
         TaskResult.skipped r = Some true → TaskResult.success r = false →
         ∃ d j r', listsDependency (TaskResult.task r) d
                   ∧ (j < i)%nat ∧ results !! j = Some r'
                   ∧ FormulaTask.id (TaskResult.task r') = d
                   ∧ failedInstall r'.

(** ** Parsed YAML and the validators of [FormulaParser] *)

(** A value returned by [yaml.load].  [RNull] stands for [null] and for
    [undefined], the value of a key that is absent; the validators never
    look inside a number.  A mapping holds each key once. *)
Local Unset Elimination Schemes.
Inductive Raw :=
| RNull
| RBool (b : bool)
| RNumber (n : Z)
| RString (s : string)
| RArray (items : list Raw)
| RObject (fields : list (string * Raw)).
Local Set Elimination Schemes.

(** [raw && typeof raw === 'object'] *)
Definition isObject (raw : Raw) : bool :=
  match raw with
  | RArray _ | RObject _ => true
  | _ => false
  end.

(** [raw[key]] for one of the keys the validators read: none of them is a
    property of arrays.  (The validators read keys only of values that
    passed [isObject].) *)
Definition field (raw : Raw) (key : string) : Raw :=
  match raw with
  | RObject fields =>
      match find (λ kv, bool_decide (kv.1 = key)) fields with
      | Some kv => kv.2
      | None => RNull
      end
  | _ => RNull
  end.

(** The string [raw], when [!raw || typeof raw !== 'string'] is false. *)
Definition nonEmptyString (raw : Raw) : option string :=
  match raw with
  | RString s => if (s =? "")%string then None else Some s
  | _ => None
  end.

(** What [validateStep] returns: [name], [type] and [command] are checked,
    the other fields are handed on as they are (the casts check nothing). *)
Module UncheckedStep.
Record t := {
  name : string;
  type : string;
  command : string;
  args : Raw;
  optional : Raw;
  platforms : Raw;
  env : Raw;
  cwd : Raw;
  postInstall : Raw
}.
End UncheckedStep.

Definition validateStep (raw : Raw) (taskId : string) (index : nat)
  : Outcome UncheckedStep.t :=
  let place := "Step " +:+ pretty index +:+ " of " +:+ quote +:+ taskId +:+ quote in
  if negb (isObject raw) then Throws (place +:+ " must be an object")
  else
    match nonEmptyString (field raw "name") with
    | None => Throws (place +:+ " must have a " +:+ quote +:+ "name" +:+ quote +:+ " field")
    | Some name =>
        match nonEmptyString (field raw "type") with
        | None =>
            Throws (place +:+ " must have a " +:+ quote +:+ "type" +:+ quote +:+ " field")
        | Some type =>
            if negb (isValidType type) then
              Throws (place +:+ " has invalid type " +:+ quote +:+ type +:+ quote
                      +:+ ". Valid types: " +:+ join ", " validTypes)
            else
              match nonEmptyString (field raw "command") with
              | None =>
                  Throws (place +:+ " must have a " +:+ quote +:+ "command" +:+ quote
                          +:+ " field")
              | Some command =>
                  Returns {| UncheckedStep.name := name;
                             UncheckedStep.type := type;
                             UncheckedStep.command := command;
                             UncheckedStep.args := field raw "args";
                             UncheckedStep.optional := field raw "optional";
                             UncheckedStep.platforms := field raw "platforms";
                             UncheckedStep.env := field raw "env";
                             UncheckedStep.cwd := field raw "cwd";
                             UncheckedStep.postInstall := field raw "postInstall" |}
              end
        end
    end.

(** [items.map((item, index) => validate(item, index))], from [index] on:
    the first item that is refused ends the call. *)
Fixpoint mapIndexed {A} (validate : Raw → nat → Outcome A) (index : nat)
    (items : list Raw) : Outcome (list A) :=
  match items with
  | [] => Returns []
  | item :: rest =>
      match validate item index with
      | Throws message => Throws message
      | Returns a =>
          match mapIndexed validate (S index) rest with
          | Throws message => Throws message
          | Returns others => Returns (a :: others)
          end
      end
  end.

Module UncheckedDefinition.
Record t := {
  id : string;
  name : string;
  description : Raw;
  homepage : Raw;
  steps : list UncheckedStep.t;
  dependencies : Raw;
  tags : Raw
}.
End UncheckedDefinition.

Definition validateTaskDefinition (raw : Raw) : Outcome UncheckedDefinition.t :=
  match nonEmptyString (field raw "id") with
  | None => Throws ("Task definition must have an " +:+ quote +:+ "id" +:+ quote +:+ " field")
  | Some id =>
      match nonEmptyString (field raw "name") with
      | None =>
          Throws ("Task definition must have a " +:+ quote +:+ "name" +:+ quote +:+ " field")
      | Some name =>
          match field raw "steps" with
          | RArray rawSteps =>
              match mapIndexed (λ step stepIndex, validateStep step id stepIndex)
                      0 rawSteps with
              | Throws message => Throws message
              | Returns steps =>
                  Returns {| UncheckedDefinition.id := id;
                             UncheckedDefinition.name := name;
                             UncheckedDefinition.description := field raw "description";
                             UncheckedDefinition.homepage := field raw "homepage";
                             UncheckedDefinition.steps := steps;
                             UncheckedDefinition.dependencies := field raw "dependencies";
                             UncheckedDefinition.tags := field raw "tags" |}
              end
          | _ =>
              Throws ("Task " +:+ quote +:+ id +:+ quote +:+ " must have a "
                      +:+ quote +:+ "steps" +:+ quote +:+ " array")
          end
      end
  end.

Module UncheckedReference.
Record t := {
  id : string;
  category : string;
  version : Raw
}.
End UncheckedReference.

Definition validateTaskReference (raw : Raw) (index : nat)
  : Outcome UncheckedReference.t :=
  let place := "Task at index " +:+ pretty index in
  if negb (isObject raw) then Throws (place +:+ " must be an object")
  else
    match nonEmptyString (field raw "id") with
    | None => Throws (place +:+ " must have an " +:+ quote +:+ "id" +:+ quote +:+ " field")
    | Some id =>
        match nonEmptyString (field raw "category") with
        | None =>
            Throws (place +:+ " must have a " +:+ quote +:+ "category" +:+ quote
                    +:+ " field")
        | Some category =>
            Returns {| UncheckedReference.id := id;
                       UncheckedReference.category := category;
                       UncheckedReference.version := field raw "version" |}
        end
    end.

Module UncheckedFormula.
Record t := {
  name : string;
  version : string;
  description : Raw;
  author : Raw;
  updated : Raw;
  minVersion : Raw;
  tasksUrl : Raw;
  tasks : list UncheckedReference.t;
  categories : Raw;
  variables : Raw;
  requireSudo : Raw
}.
End UncheckedFormula.

Definition validateFormula (raw : Raw) : Outcome UncheckedFormula.t :=
  match nonEmptyString (field raw "name") with
  | None => Throws ("Formula must have a " +:+ quote +:+ "name" +:+ quote +:+ " field")
  | Some name =>
      match nonEmptyString (field raw "version") with
      | None =>
          Throws ("Formula must have a " +:+ quote +:+ "version" +:+ quote +:+ " field")
      | Some version =>
          match field raw "tasks" with
          | RArray rawTasks =>
              match mapIndexed validateTaskReference 0 rawTasks with
              | Throws message => Throws message
              | Returns tasks =>
                  Returns {| UncheckedFormula.name := name;
                             UncheckedFormula.version := version;
                             UncheckedFormula.description := field raw "description";
                             UncheckedFormula.author := field raw "author";
                             UncheckedFormula.updated := field raw "updated";
                             UncheckedFormula.minVersion := field raw "minVersion";
                             UncheckedFormula.tasksUrl := field raw "tasksUrl";
                             UncheckedFormula.tasks := tasks;
                             UncheckedFormula.categories := field raw "categories";
                             UncheckedFormula.variables := field raw "variables";
                             UncheckedFormula.requireSudo := field raw "require-sudo" |}
              end
          | _ =>
              Throws ("Formula must have a " +:+ quote +:+ "tasks" +:+ quote +:+ " array")
          end
      end
  end.

(** [FormulaParser.parse] behind [yaml.load]. *)
Definition parse (raw : Raw) : Outcome UncheckedFormula.t :=
  if negb (isObject raw) then Throws "Invalid YAML: expected an object"
  else validateFormula raw.

(** *** Unchecked values at their declared types *)

(** [raw] as a [string | undefined]. *)
Definition asString (raw : Raw) : option (option string) :=
  match raw with
  | RNull => Some None
  | RString s => Some (Some s)
  | _ => None
  end.

(** [raw] as a [boolean | undefined]. *)
Definition asBoolean (raw : Raw) : option (option bool) :=
  match raw with
  | RNull => Some None
  | RBool b => Some (Some b)
  | _ => None
  end.

Definition stringItem (raw : Raw) : option string :=
  match raw with
  | RString s => Some s
  | _ => None
  end.

(** [raw] as a [string[] | undefined]. *)
Definition asStrings (raw : Raw) : option (option (list string)) :=
  match raw with
  | RNull => Some None
  | RArray items => Some <$> mapM stringItem items
  | _ => None
  end.

(** [raw] as a [Record<string, string> | undefined]. *)
Definition asStringRecord (raw : Raw) : option (option (gmap string string)) :=
  match raw with
  | RNull => Some None
  | RObject fields =>
      (λ values, Some (list_to_map (zip (fields.*1) values)))
        <$> mapM stringItem (fields.*2)
  | _ => None
  end.

(** The step returned by [validateStep] as an [InstallStep], when the
    fields that were not checked have the types the interface declares. *)
Definition asInstallStep (step : UncheckedStep.t) : option InstallStep.t :=
  args ← asStrings (UncheckedStep.args step);
  optional ← asBoolean (UncheckedStep.optional step);
  platforms ← asStrings (UncheckedStep.platforms step);
  env ← asStringRecord (UncheckedStep.env step);
  cwd ← asString (UncheckedStep.cwd step);
  postInstall ← asStrings (UncheckedStep.postInstall step);
  Some {| InstallStep.name := UncheckedStep.name step;
          InstallStep.type := UncheckedStep.type step;
          InstallStep.command := UncheckedStep.command step;
          InstallStep.args := args;
          InstallStep.optional := optional;
          InstallStep.platforms := platforms;
          InstallStep.env := env;
          InstallStep.cwd := cwd;
          InstallStep.postInstall := postInstall |}.

Module SampleYaml.
Definition step : Raw :=
  RObject [("name", RString "Install jq"); ("type", RString "brew");
           ("command", RString "jq"); ("optional", RBool true);
           ("note", RString "ignored")].
Definition badStep : Raw :=
  RObject [("name", RString "Install"); ("type", RString "snap");
           ("command", RString "jq")].
Definition formula : Raw :=
  RObject [("name", RString "dev"); ("version", RString "1.0.0");
           ("tasks", RArray [RObject [("id", RString "git"); ("category", RString "vcs")];
                             RObject [("id", RString "gh")]])].
End SampleYaml.

Module SampleRegex.
(** A task whose [versionParseRegex] is "(", a pattern [new RegExp] rejects
    with a [SyntaxError]. *)
Definition unbalanced : BaseTask.t :=
  {| BaseTask.id := "tool";
     BaseTask.name := "tool";
     BaseTask.description := None;
     BaseTask.homepage := None;
     BaseTask.tags := [];
     BaseTask.dependencies := [];
     BaseTask.versionCommand := Some "tool --version";
     BaseTask.versionParseRegex := Some "(";
     BaseTask.requireSudo := None;
     BaseTask.steps := [] |}.

(** A machine on which every command prints "tool version 2.0.0". *)
Definition machine : Machine :=
  {| currentPlatform := "darwin";
     execSync := λ _ _, Some "tool version 2.0.0";
     spawn := λ _ _ _ _ _, Closed (Some 0) EmptyString EmptyString;
     regexMatch := λ pattern _,
       if (pattern =? "(")%string
       then RegexSyntaxError "Invalid regular expression: /(/: Unterminated group"
       else RegexNoMatch;
     taskRegistry := {[ "tool" := unbalanced ]} |}.
End SampleRegex.

Module SampleInherited.
(** A task whose id is no key of the registry, and the name of a property
    every object inherits. *)
Definition task : FormulaTask.t := Sample.task "constructor" None [] None.
Definition formula : ResolvedFormula.t := Sample.formula [task].
End SampleInherited.

Module SampleSkip.
(** "gh" lists "git", which is no task of the formula; "hub" lists "gh". *)
Definition hub : FormulaTask.t := Sample.task "hub" (Some ["gh"]) [] None.
Definition formula : ResolvedFormula.t := Sample.formula [SampleRun.gh; hub].
End SampleSkip.

Module SampleHooks.
(** A machine on which a shell command fails exactly when it is "exit 3". *)
Definition machine : Machine :=
  {| currentPlatform := "linux";
     execSync := λ _ _, None;
     spawn := λ _ command args _ _,
       if bool_decide (args = ["-c"; "exit 3"])
       then Closed (Some 3) EmptyString "boom"
       else Closed (Some 0) "ok" EmptyString;
     regexMatch := λ _ _, RegexNoMatch;
     taskRegistry := ∅ |}.

Definition step (postInstall : list string) (platforms : option (list string))
  : InstallStep.t :=
  {| InstallStep.name := "Install";
     InstallStep.type := "apt";
     InstallStep.command := "jq";
     InstallStep.args := None;
     InstallStep.optional := None;
     InstallStep.platforms := platforms;
     InstallStep.env := None;
     InstallStep.cwd := Some "/tmp";
     InstallStep.postInstall := Some postInstall |}.
End SampleHooks.

(** * Properties *)

(** ** Strings *)

Section string_lemmas.
Local Open Scope nat_scope.

Lemma length_app_char (s : string) (c : ascii) :
  String.length (s +:+ String c EmptyString) = S (String.length s).
Proof.
  induction s as [|a s IH]; [done|].
  change (String a s +:+ String c EmptyString)
    with (String a (s +:+ String c EmptyString)).
  cbn. by rewrite IH.
Qed.

Lemma trimStart_length (s : string) :
  String.length (Js.trimStart s) ≤ String.length s.
Proof. induction s as [|c s IH]; cbn; [done|]. destruct (Js.isWhiteSpace c); cbn; lia. Qed.

Lemma trimEnd_length (s : string) :
  String.length (Js.trimEnd s) ≤ String.length s.
Proof.
  induction s as [|c s IH]; cbn; [done|].
  destruct (Js.trimEnd s) eqn:E; [destruct (Js.isWhiteSpace c)|]; cbn in *; lia.
Qed.

Lemma trim_length (s : string) : String.length (Js.trim s) ≤ String.length s.
Proof.
  unfold Js.trim. etrans; [apply trimStart_length | apply trimEnd_length].
Qed.

Lemma split_aux_nonempty (sep : string) (s : string) (skip : nat) (cur : string) :
  0 < length (Js.split_aux sep skip cur s).
Proof.
  revert skip cur. induction s as [|ch s IH]; intros skip cur; cbn; [lia|].
  destruct skip; [|apply IH].
  destruct (Js.startsWith sep (String ch s)); cbn; [lia | apply IH].
Qed.

(** No piece is longer than the text it was cut from, and when the text was
    cut at all, every piece is strictly shorter. *)
Lemma split_aux_bound (sep : string) (s : string) (skip : nat) (cur : string) :
  let r := Js.split_aux sep skip cur s in
  Forall (λ p, String.length p ≤ String.length cur + String.length s) r
  ∧ (1 < length r →
     Forall (λ p, String.length p < String.length cur + String.length s) r).
Proof.
  revert skip cur. induction s as [|ch s IH]; intros skip cur; cbn.
  { split; [repeat constructor; lia | lia]. }
  destruct skip as [|k].
  - destruct (Js.startsWith sep (String ch s)).
    + destruct (IH (String.length sep - 1) EmptyString) as [IH1 _].
      cbn in IH1. split; [|intros _]; constructor; try lia;
        eapply Forall_impl; try exact IH1; cbn; intros; lia.
    + destruct (IH 0 (cur +:+ String ch EmptyString)) as [IH1 IH2].
      rewrite length_app_char in IH1, IH2.
      split; [|intros Hlen; specialize (IH2 Hlen)];
        eapply Forall_impl; try eassumption; cbn; intros; lia.
  - destruct (IH k cur) as [IH1 _].
    split; [|intros _]; eapply Forall_impl; try exact IH1; cbn; intros; lia.
Qed.

Lemma split_aux_cut (sep : string) (s : string) (cur : string) :
  sep ≠ EmptyString → Js.includes sep s = true →
  1 < length (Js.split_aux sep 0 cur s).
Proof.
  intros Hsep. revert cur. induction s as [|ch s IH]; intros cur; cbn [Js.includes].
  { destruct sep; [done|]. cbn. done. }
  intros Hinc. cbn [Js.split_aux].
  destruct (Js.startsWith sep (String ch s)) eqn:Hst.
  - cbn. pose proof (split_aux_nonempty sep s (String.length sep - 1) EmptyString). lia.
  - cbn in Hinc. by apply IH.
Qed.

Lemma split_shorter (sep s part : string) :
  sep ≠ EmptyString → Js.includes sep s = true → part ∈ Js.split sep s →
  String.length part < String.length s.
Proof.
  intros Hsep Hinc Hin. unfold Js.split in Hin.
  destruct (split_aux_bound sep s 0 EmptyString) as [_ Hb].
  specialize (Hb (split_aux_cut sep s EmptyString Hsep Hinc)).
  rewrite Forall_forall in Hb. apply (Hb _ Hin).
Qed.

Lemma splitWs_aux_bound (s : string) (inWs : bool) (cur : string) :
  let r := Js.splitWs_aux inWs cur s in
  Forall (λ p, String.length p ≤ String.length cur + String.length s) r
  ∧ (Js.hasWhiteSpace s = true →
     Forall (λ p, String.length p < String.length cur + String.length s) r).
Proof.
  revert inWs cur. induction s as [|ch s IH]; intros inWs cur; cbn.
  { split; [repeat constructor; lia | done]. }
  destruct (Js.isWhiteSpace ch); cbn.
  - destruct (IH true EmptyString) as [IH1 _]. cbn in IH1.
    destruct inWs; (split; [|intros _]); try constructor; try lia;
      eapply Forall_impl; try exact IH1; cbn; intros; lia.
  - destruct (IH false (cur +:+ String ch EmptyString)) as [IH1 IH2].
    rewrite length_app_char in IH1, IH2.
    split; [|intros Hws; specialize (IH2 Hws)];
      eapply Forall_impl; try eassumption; cbn; intros; lia.
Qed.

Lemma includes_space_hasWhiteSpace (s : string) :
  Js.includes " " s = true → Js.hasWhiteSpace s = true.
Proof.
  induction s as [|ch s IH]; [done|].
  cbn [Js.includes Js.startsWith Js.hasWhiteSpace].
  destruct (Ascii.eqb_spec " " ch) as [<-|_]; [done|].
  cbn [andb orb]. intros H. rewrite IH; [apply orb_true_r | done].
Qed.

Lemma splitWs_shorter (s part : string) :
  Js.includes " " s = true → part ∈ Js.splitWs s →
  String.length part < String.length s.
Proof.
  intros Hinc Hin. unfold Js.splitWs in Hin.
  destruct (splitWs_aux_bound s false EmptyString) as [_ Hb].
  specialize (Hb (includes_space_hasWhiteSpace s Hinc)).
  rewrite Forall_forall in Hb. apply (Hb _ Hin).
Qed.
End string_lemmas.


Lemma isDigitOrDot_not_space (c : ascii) :
  isDigitOrDot c = true → Js.isWhiteSpace c = false.
Proof. by destruct c as [[][][][][][][][]]. Qed.

Lemma allChars_trimStart (s : string) :
  allChars isDigitOrDot s = true → Js.trimStart s = s.
Proof.
  destruct s as [|c s]; [done|]. cbn. intros [Hc _]%andb_true_iff.
  by rewrite (isDigitOrDot_not_space c Hc).
Qed.

Lemma allChars_trimEnd (s : string) :
  allChars isDigitOrDot s = true → Js.trimEnd s = s.
Proof.
  induction s as [|c s IH]; [done|]. cbn. intros [Hc Hs]%andb_true_iff.
  rewrite (IH Hs), (isDigitOrDot_not_space c Hc). by destruct s.
Qed.

(** ** Version constraint matcher *)

Lemma someM_is_Some (f : string → option bool) (parts : list string) :
  (∀ p, p ∈ parts → is_Some (f p)) → is_Some (someM f parts).
Proof.
  induction parts as [|p rest IH]; intros Hf; cbn; [eauto|].
  destruct (Hf p) as [[] ->]; [left | eauto |]; [].
  apply IH. intros q Hq. apply Hf. by right.
Qed.

Lemma everyM_is_Some (f : string → option bool) (parts : list string) :
  (∀ p, p ∈ parts → is_Some (f p)) → is_Some (everyM f parts).
Proof.
  induction parts as [|p rest IH]; intros Hf; cbn; [eauto|].
  destruct (Hf p) as [[] ->]; [left | | eauto]; [].
  apply IH. intros q Hq. apply Hf. by right.
Qed.

(** The recursion of [satisfiesVersion] never reaches its bound. *)
Lemma satisfiesVersion_fuel_total (fuel : nat) (version constraint : string) :
  (String.length constraint < fuel)%nat →
  is_Some (satisfiesVersion_fuel fuel version constraint).
Proof.
  revert constraint. induction fuel as [|fuel IH]; intros constraint Hlen; [lia|].
  cbn [satisfiesVersion_fuel]. unfold satisfiesVersion_body.
  pose proof (trim_length constraint) as Htrim.
  destruct (parseVersionParts version) as [v|]; [|eauto].
  cbv zeta.
  repeat (match goal with
          | |- is_Some (Some _) => eauto
          | |- is_Some (if ?b then _ else _) => destruct b eqn:?
          | |- is_Some (match ?x with _ => _ end) => destruct x eqn:?
          end).
  - apply someM_is_Some. intros part Hin. apply IH.
    pose proof (trim_length part).
    pose proof (split_shorter "||" _ part ltac:(done) ltac:(eassumption) Hin). lia.
  - apply everyM_is_Some. intros part Hin. apply IH.
    pose proof (trim_length part).
    match goal with
    | H : Js.includes " " _ && _ = true |- _ => apply andb_true_iff in H as [Hsp _]
    end.
    pose proof (splitWs_shorter _ part Hsp Hin). lia.
Qed.

Lemma satisfiesVersion_fuel_eq (version constraint : string) :
  satisfiesVersion_fuel (S (String.length constraint)) version constraint
  = Some (satisfiesVersion version constraint).
Proof.
  unfold satisfiesVersion.
  destruct (satisfiesVersion_fuel_total (S (String.length constraint)) version constraint)
    as [b ->]; [lia | done].
Qed.

Lemma someM_mono (f g : string → option bool) (parts : list string) (b : bool) :
  (∀ p b, p ∈ parts → f p = Some b → g p = Some b) →
  someM f parts = Some b → someM g parts = Some b.
Proof.
  induction parts as [|p rest IH]; intros Hfg; cbn; [done|].
  destruct (f p) as [[]|] eqn:Hf; [| |done].
  - rewrite (Hfg p true); [done | left | done].
  - rewrite (Hfg p false); [|left|done]. apply IH. intros q c Hq. apply Hfg. by right.
Qed.

Lemma everyM_mono (f g : string → option bool) (parts : list string) (b : bool) :
  (∀ p b, p ∈ parts → f p = Some b → g p = Some b) →
  everyM f parts = Some b → everyM g parts = Some b.
Proof.
  induction parts as [|p rest IH]; intros Hfg; cbn; [done|].
  destruct (f p) as [[]|] eqn:Hf; [| |done].
  - rewrite (Hfg p true); [|left|done]. apply IH. intros q c Hq. apply Hfg. by right.
  - rewrite (Hfg p false); [done | left | done].
Qed.

(** More fuel does not change an answer. *)
Lemma satisfiesVersion_fuel_mono (n m : nat) (version constraint : string) (b : bool) :
  (n ≤ m)%nat →
  satisfiesVersion_fuel n version constraint = Some b →
  satisfiesVersion_fuel m version constraint = Some b.
Proof.
  revert m constraint b. induction n as [|n IH]; intros m constraint b Hnm; [done|].
  destruct m as [|m]; [lia|]. cbn [satisfiesVersion_fuel].
  unfold satisfiesVersion_body.
  destruct (parseVersionParts version) as [v|]; [|done].
  cbv zeta.
  repeat (match goal with
          | |- Some _ = Some _ → _ => done
          | |- (if ?b then _ else _) = _ → _ => destruct b eqn:?
          | |- (match ?x with _ => _ end) = _ → _ => destruct x eqn:?
          end).
  - apply someM_mono. intros p c _. apply IH. lia.
  - apply everyM_mono. intros p c _. apply IH. lia.
Qed.

Lemma satisfiesVersion_fuel_enough (n : nat) (version constraint : string) :
  (String.length constraint < n)%nat →
  satisfiesVersion_fuel n version constraint
  = Some (satisfiesVersion version constraint).
Proof.
  intros Hn. apply (satisfiesVersion_fuel_mono (S (String.length constraint))); [lia|].
  apply satisfiesVersion_fuel_eq.
Qed.

Lemma someM_ext (f g : string → option bool) (parts : list string) :
  (∀ p, p ∈ parts → f p = g p) → someM f parts = someM g parts.
Proof.
  induction parts as [|p rest IH]; intros Hfg; cbn; [done|].
  rewrite (Hfg p) by left. rewrite IH; [done|].
  intros q Hq. apply Hfg. by right.
Qed.

Lemma everyM_ext (f g : string → option bool) (parts : list string) :
  (∀ p, p ∈ parts → f p = g p) → everyM f parts = everyM g parts.
Proof.
  induction parts as [|p rest IH]; intros Hfg; cbn; [done|].
  rewrite (Hfg p) by left. rewrite IH; [done|].
  intros q Hq. apply Hfg. by right.
Qed.

(** [satisfiesVersion] is a solution of the recursive equation the source
    defines it by. *)
Lemma satisfiesVersion_unfold (version constraint : string) :
  satisfiesVersion_body (λ c, Some (satisfiesVersion version c)) version constraint
  = Some (satisfiesVersion version constraint).
Proof.
  rewrite <-satisfiesVersion_fuel_eq. cbn [satisfiesVersion_fuel].
  unfold satisfiesVersion_body.
  pose proof (trim_length constraint) as Htrim.
  destruct (parseVersionParts version) as [v|]; [|done].
  cbv zeta.
  repeat (match goal with
          | |- Some _ = Some _ => done
          | |- (if ?b then _ else _) = _ => destruct b eqn:?
          | |- (match ?x with _ => _ end) = _ => destruct x eqn:?
          end); try done.
  - apply someM_ext. intros part Hin. symmetry.
    apply satisfiesVersion_fuel_enough.
    pose proof (trim_length part).
    pose proof (split_shorter "||" _ part ltac:(done) ltac:(eassumption) Hin). lia.
  - apply everyM_ext. intros part Hin. symmetry.
    apply satisfiesVersion_fuel_enough.
    pose proof (trim_length part).
    match goal with
    | H : Js.includes " " _ && _ = true |- _ => apply andb_true_iff in H as [Hsp _]
    end.
    pose proof (splitWs_shorter _ part Hsp Hin). lia.
Qed.

(** Claim C5, as stated, fails: [satisfiesVersion] first reads the version
    parts of the installed version and answers [false] when there are none,
    before it looks at the constraint; the version string "abc" does not
    satisfy "latest". *)
Lemma satisfiesVersion_latest_unparsed :
  satisfiesVersion "abc" "latest" = false
  ∧ ¬ (∀ v : string, satisfiesVersion v "latest" = true).
Proof.
  split; [reflexivity|]. intros H. specialize (H "abc"). vm_compute in H. done.
Qed.

(** Claim C5, amended: for each of the constraints "latest", "*", "x" and the
    empty string, [satisfiesVersion v c] is [true] exactly for the version
    strings [v] that [parseVersionParts] accepts, and [false] for all others. *)
Theorem satisfiesVersion_any (v c : string) :
  c ∈ ["latest"; "*"; "x"; ""] →
  satisfiesVersion v c = true ↔ is_Some (parseVersionParts v).
Proof.
  intros Hc. unfold satisfiesVersion.
  assert (∀ n, satisfiesVersion_fuel (S n) v c
               = Some (bool_decide (is_Some (parseVersionParts v)))) as ->.
  { intros n. cbn [satisfiesVersion_fuel]. unfold satisfiesVersion_body.
    destruct (parseVersionParts v) as [parts|].
    - rewrite bool_decide_true by eauto.
      repeat (apply elem_of_cons in Hc as [->|Hc]; [reflexivity|]).
      by apply elem_of_nil in Hc.
    - rewrite bool_decide_false; [done|]. by intros [? ?]. }
  cbn. apply bool_decide_eq_true.
Qed.

Lemma satisfiesVersion_any_witness :
  satisfiesVersion "v2.39.1" "latest" = true.
Proof.
  apply (satisfiesVersion_any "v2.39.1" "latest").
  - set_solver.
  - vm_compute. eauto.
Defined.

(** *** Versions written in decimal *)

























(** ** Version check *)




(** ** Step executor *)

(** Claim C9: on a step whose type is one of the seven the validator accepts,
    [buildCommand] returns a command and its arguments; it does not throw.
    (On every other type it throws "Unknown step type".) *)
Theorem buildCommand_valid_type (step : InstallStep.t) :
  (isValidType (InstallStep.type step) = true →
   ∃ command args, buildCommand step = Returns (command, args))
  ∧ (isValidType (InstallStep.type step) = false →
     buildCommand step = Throws ("Unknown step type: " +:+ InstallStep.type step)).
Proof.
  unfold isValidType, validTypes, buildCommand. split.
  - intros Hin%bool_decide_eq_true.
    repeat (apply elem_of_cons in Hin as [->|Hin]; [cbn; eauto|]).
    by apply elem_of_nil in Hin.
  - intros Hout%bool_decide_eq_false.
    repeat (match goal with
            | |- context [(?a =? ?b)%string] =>
                destruct (String.eqb_spec a b) as [Heq|_];
                [exfalso; apply Hout; rewrite Heq; set_solver|]
            end).
    done.
Qed.

Lemma buildCommand_valid_type_witness :
  ∃ command args,
    buildCommand (Sample.step "Install git" "apt" "git" None)
    = Returns (command, args).
Proof.
  apply (buildCommand_valid_type (Sample.step "Install git" "apt" "git" None)).
  reflexivity.
Defined.

Lemma runCommand_failed (M : Machine) (command : string) (args : list string)
    (env : option (gmap string string)) (cwd : option string) (tr : Trace) :
  commandFailed (spawn M tr command args env cwd) = true →
  ∃ msg, runCommand M command args env cwd tr
         = (inr msg, tr ++ [EvSpawn command args env cwd])
         ∧ (spawnErrorsHaveMessage M → msg ≠ EmptyString).
Proof.
  unfold runCommand. intros Hfail.
  destruct (spawn M tr command args env cwd) as [code stdout stderr|message] eqn:Hs.
  - cbn in Hfail. apply negb_true_iff in Hfail. rewrite Hfail.
    destruct (String.eqb_spec stderr EmptyString) as [->|Hne]; cbn.
    + eexists. split; [done|]. intros _. done.
    + eexists. split; [done|]. done.
  - eexists. split; [done|]. intros Hmsg. by eapply Hmsg.
Qed.

Lemma stepExecute_failed (M : Machine) (step : InstallStep.t) (tr : Trace)
    (command : string) (args : list string) :
  shouldRunOnPlatform M step = true →
  buildCommand step = Returns (command, args) →
  commandFailed (spawn M tr command args
                   (InstallStep.env step) (InstallStep.cwd step)) = true →
  ∃ msg, stepExecute M step tr
         = (stepFailure step msg,
            tr ++ [EvSpawn command args (InstallStep.env step) (InstallStep.cwd step)])
         ∧ (spawnErrorsHaveMessage M → msg ≠ EmptyString).
Proof.
  intros Hrun Hbuild Hfail. unfold stepExecute. rewrite Hrun, Hbuild. cbn [negb].
  destruct (runCommand_failed M command args _ _ tr Hfail) as (msg & -> & Hmsg).
  eauto.
Qed.

Lemma stepLoop_app (M : Machine) (task : FormulaTask.t) (options : ExecutorOptions.t)
    (pre rest : list InstallStep.t) (acc : list StepResult.t) (tr : Trace) :
  stepLoop M task options (pre ++ rest) acc tr
  = match stepLoop M task options pre acc tr with
    | (inl failed, tr') => (inl failed, tr')
    | (inr acc', tr') => stepLoop M task options rest acc' tr'
    end.
Proof.
  revert acc tr. induction pre as [|step pre IH]; intros acc tr; [done|].
  cbn [app stepLoop].
  destruct (truthy (ExecutorOptions.dryRun options)); [apply IH|].
  destruct (stepExecute M step tr) as [result tr1].
  destruct (StepResult.success result); [apply IH|].
  destruct (truthy (InstallStep.optional step)); [apply IH | done].
Qed.

Lemma getTask_registry (M : Machine) (id : string) (task : BaseTask.t) :
  taskRegistry M !! id = Some task → getTask M id = Some (TaskInstance task).
Proof. intros Hreg. unfold getTask. by rewrite Hreg. Qed.

Lemma checkTaskVersion_registry (M : Machine) (task : FormulaTask.t) (tr : Trace)
    (taskInstance : BaseTask.t) :
  taskRegistry M !! FormulaTask.id task = Some taskInstance →
  let desiredVersion :=
    if truthyString (FormulaTask.version task)
    then default EmptyString (FormulaTask.version task)
    else "latest" in
  checkTaskVersion M task tr
  = (Returns (checkVersion M taskInstance (Some desiredVersion) tr).1,
     (checkVersion M taskInstance (Some desiredVersion) tr).2).
Proof.
  intros Hreg. cbv zeta. unfold checkTaskVersion.
  rewrite (getTask_registry _ _ _ Hreg). by destruct (checkVersion M taskInstance _ tr).
Qed.

Lemma executeTask_stepsStart (M : Machine) (task : FormulaTask.t)
    (options : ExecutorOptions.t) (st : ExecState) (tr0 : Trace) :
  stepsStart M task options st = Some tr0 →
  executeTask M task options st
  = ((installTask M task options tr0).1,
     withTrace st (installTask M task options tr0).2).
Proof.
  unfold stepsStart, executeTask.
  destruct (bool_decide _); [done|].
  destruct (_ && _).
  - destruct (checkTaskVersion M task (trace st)) as [[versionCheck|error] tr1]; [|done].
    destruct (installed versionCheck && negb (needsUpdate versionCheck)); [done|].
    intros [= <-]. by destruct (installTask M task options tr1).
  - intros [= <-]. by destruct (installTask M task options (trace st)).
Qed.

(** [executeTask] does not touch the installed set, and its result is about
    the task it was given. *)
Lemma executeTask_installed (M : Machine) (task : FormulaTask.t)
    (options : ExecutorOptions.t) (st : ExecState) :
  installedTasks (executeTask M task options st).2 = installedTasks st.
Proof.
  unfold executeTask.
  destruct (bool_decide _); [done|].
  destruct (_ && _).
  - destruct (checkTaskVersion M task (trace st)) as [[versionCheck|error] tr1]; [|done].
    destruct (_ && _); [done|]. by destruct (installTask M task options tr1).
  - by destruct (installTask M task options (trace st)).
Qed.

Lemma stepLoop_task (M : Machine) (task : FormulaTask.t) (options : ExecutorOptions.t)
    (steps : list InstallStep.t) (acc : list StepResult.t) (tr : Trace)
    (failed : TaskResult.t) (tr' : Trace) :
  stepLoop M task options steps acc tr = (inl failed, tr') →
  TaskResult.task failed = task.
Proof.
  revert acc tr. induction steps as [|step steps IH]; intros acc tr; cbn [stepLoop]; [done|].
  destruct (truthy (ExecutorOptions.dryRun options)); [apply IH|].
  destruct (stepExecute M step tr) as [result tr1].
  destruct (StepResult.success result); [apply IH|].
  destruct (truthy (InstallStep.optional step)); [apply IH|].
  by intros [= <- <-].
Qed.

(** Whatever [installTask] returns has a property that holds of the early
    return of the step loop and of the final result. *)
Lemma installTask_returns (M : Machine) (task : FormulaTask.t)
    (options : ExecutorOptions.t) (tr : Trace) (P : TaskResult.t → Prop) :
  (∀ failed tr1,
     stepLoop M task options (FormulaTask.steps task) [] tr = (inl failed, tr1) →
     P failed) →
  (∀ stepResults tr1,
     stepLoop M task options (FormulaTask.steps task) [] tr = (inr stepResults, tr1) →
     P {| TaskResult.task := task;
          TaskResult.success := true;
          TaskResult.steps := stepResults;
          TaskResult.skipped := None;
          TaskResult.skipReason := None |}) →
  ∀ r, (installTask M task options tr).1 = Returns r → P r.
Proof.
  intros Hfailed Hdone r. unfold installTask.
  destruct (stepLoop M task options (FormulaTask.steps task) [] tr)
    as [[failed|stepResults] tr1] eqn:Hloop.
  - intros [= <-]. by eapply Hfailed.
  - destruct (checkTaskVersion M task tr1) as [[postCheck|error] tr2]; [|done].
    intros [= <-]. by eapply Hdone.
Qed.

(** Whatever [executeTask] returns is the skip of the dependency gate, the
    skip of the version gate, or a result of [installTask]. *)
Lemma executeTask_returns (M : Machine) (task : FormulaTask.t)
    (options : ExecutorOptions.t) (st : ExecState) (P : TaskResult.t → Prop) :
  (missingDeps (installedTasks st) task ≠ [] →
   P (missingDepsResult task (missingDeps (installedTasks st) task))) →
  (∀ versionCheck,
     missingDeps (installedTasks st) task = [] →
     versionGateOn options →
     (checkTaskVersion M task (trace st)).1 = Returns versionCheck →
     installed versionCheck = true → needsUpdate versionCheck = false →
     P {| TaskResult.task := task;
          TaskResult.success := true;
          TaskResult.steps := [];
          TaskResult.skipped := Some true;
          TaskResult.skipReason := Some (message versionCheck) |}) →
  (∀ tr r, missingDeps (installedTasks st) task = [] →
           (installTask M task options tr).1 = Returns r → P r) →
  ∀ r, (executeTask M task options st).1 = Returns r → P r.
Proof.
  intros Hmissing Hgate Hinstall r. unfold executeTask.
  case_bool_decide as Hdeps.
  { intros [= <-]. apply Hmissing.
    destruct (missingDeps _ _); [cbn in Hdeps; lia | done]. }
  assert (missingDeps (installedTasks st) task = []) as Hnone.
  { destruct (missingDeps _ _); [done | cbn in Hdeps; lia]. }
  destruct (negb (truthy (ExecutorOptions.forceInstall options))) eqn:Hforce;
    destruct (negb (truthy (ExecutorOptions.skipVersionCheck options))) eqn:Hskip;
    destruct (negb (truthy (ExecutorOptions.dryRun options))) eqn:Hdry;
    cbn [andb].
  2-8: pose proof (Hinstall (trace st)) as Hr;
       destruct (installTask M task options (trace st)); by apply Hr.
  destruct (checkTaskVersion M task (trace st)) as [[versionCheck|error] tr1] eqn:Hcheck;
    [|done].
  destruct (installed versionCheck) eqn:Hinstalled; cbn [andb].
  2:{ pose proof (Hinstall tr1) as Hr.
      destruct (installTask M task options tr1); by apply Hr. }
  destruct (needsUpdate versionCheck) eqn:Hupdate; cbn [negb].
  { pose proof (Hinstall tr1) as Hr.
    destruct (installTask M task options tr1); by apply Hr. }
  intros [= <-]. apply (Hgate versionCheck); try done.
  unfold versionGateOn. by rewrite <-!negb_true_iff, Hforce, Hskip, Hdry.
Qed.

Lemma executeTask_task (M : Machine) (task : FormulaTask.t)
    (options : ExecutorOptions.t) (st : ExecState) (r : TaskResult.t) :
  (executeTask M task options st).1 = Returns r → TaskResult.task r = task.
Proof.
  revert r. apply executeTask_returns; [done | done |].
  intros tr r _. revert r. apply installTask_returns; [|done].
  intros failed tr1. apply stepLoop_task.
Qed.

(** The installed set after the run loop: the ids of the tasks with a result
    that was a success or a skip were added, also when the loop was ended by
    a rejected call. *)
Lemma taskLoop_installed (M : Machine) (options : ExecutorOptions.t)
    (sortedTasks : list FormulaTask.t) (acc : list TaskResult.t) (st : ExecState) :
  ∃ new,
    installedTasks (taskLoop M options sortedTasks acc st).2
    = installedTasks st ∪ addedIds new
    ∧ ∀ results, (taskLoop M options sortedTasks acc st).1 = Returns results →
                 results = acc ++ new.
Proof.
  revert acc st. induction sortedTasks as [|task rest IH]; intros acc st; cbn [taskLoop].
  { exists []. cbn. split; [unfold addedIds; cbn; set_solver|].
    intros results [= <-]. by rewrite app_nil_r. }
  pose proof (executeTask_installed M task options st) as Hinst.
  pose proof (executeTask_task M task options st) as Htask.
  destruct (executeTask M task options st) as [[result|error] st1]; cbn in Hinst, Htask.
  2:{ exists []. cbn. split; [unfold addedIds; cbn; set_solver | done]. }
  specialize (Htask result eq_refl).
  destruct (successOrSkipped result) eqn:Hok.
  - destruct (IH (acc ++ [result]) (addInstalled (FormulaTask.id task) st1))
      as (new & -> & Hres).
    exists (result :: new). split.
    + unfold addedIds. rewrite filter_cons_True by done. cbn. rewrite Htask, Hinst.
      set_solver.
    + intros results Hr. rewrite (Hres results Hr). by rewrite <-app_assoc.
  - destruct (negb (truthy (ExecutorOptions.continueOnError options))).
    + exists [result]. split.
      * unfold addedIds. rewrite filter_cons_False by (by rewrite Hok).
        cbn. rewrite Hinst. set_solver.
      * cbn. by intros results [= <-].
    + destruct (IH (acc ++ [result]) st1) as (new & -> & Hres).
      exists (result :: new). split.
      * unfold addedIds. rewrite filter_cons_False by (by rewrite Hok).
        by rewrite Hinst.
      * intros results Hr. rewrite (Hres results Hr). by rewrite <-app_assoc.
Qed.

(** Claim C8: a step whose underlying command fails, by a non-zero exit or a
    spawn error.  The step is the one after [pre] in the task's steps,
    reached by the step loop with the step results [acc] at history [tr];
    its command is the one [buildCommand] gives.  Its StepResult carries a
    non-empty error.  If the step is optional, the StepResult has
    [success = true] and the loop goes on with the remaining steps [post].
    If it is not, [executeTask] returns a TaskResult with [success = false]
    whose step results end with this one, and the history ends with the
    failed command: no later step is executed. *)
Theorem step_failure_policy (M : Machine) (options : ExecutorOptions.t)
    (task : FormulaTask.t) (step : InstallStep.t) (pre post : list InstallStep.t)
    (st : ExecState) (tr0 tr : Trace) (acc : list StepResult.t)
    (command : string) (args : list string) :
  spawnErrorsHaveMessage M →
  truthy (ExecutorOptions.dryRun options) = false →
  stepsStart M task options st = Some tr0 →
  FormulaTask.steps task = pre ++ step :: post →
  stepLoop M task options pre [] tr0 = (inr acc, tr) →
  shouldRunOnPlatform M step = true →
  buildCommand step = Returns (command, args) →
  commandFailed (spawn M tr command args
                   (InstallStep.env step) (InstallStep.cwd step)) = true →
  ∃ msg,
    let result := stepFailure step msg in
    let tr1 := tr ++ [EvSpawn command args
                        (InstallStep.env step) (InstallStep.cwd step)] in
    msg ≠ EmptyString
    ∧ stepExecute M step tr = (result, tr1)
    ∧ (InstallStep.optional step = Some true →
       StepResult.success result = true
       ∧ StepResult.error result = Some msg
       ∧ stepLoop M task options (FormulaTask.steps task) [] tr0
         = stepLoop M task options post (acc ++ [result]) tr1)
    ∧ (truthy (InstallStep.optional step) = false →
       TaskResult.success (failedTaskResult task (acc ++ [result])) = false
       ∧ executeTask M task options st
         = (Returns (failedTaskResult task (acc ++ [result])), withTrace st tr1)).
Proof.
  intros Hmsg Hdry Hstart Hsteps Hpre Hrun Hbuild Hfail.
  destruct (stepExecute_failed M step tr command args Hrun Hbuild Hfail)
    as (msg & Hexec & Hne).
  exists msg. cbv zeta. split; [by apply Hne|]. split; [done|].
  assert (stepLoop M task options (FormulaTask.steps task) [] tr0
          = stepLoop M task options (step :: post) acc tr) as Hloop.
  { by rewrite Hsteps, stepLoop_app, Hpre. }
  split.
  - intros Hopt.
    assert (StepResult.success (stepFailure step msg) = true) as Hs.
    { cbn. by rewrite Hopt. }
    split; [done|]. split; [done|].
    rewrite Hloop. cbn [stepLoop]. by rewrite Hdry, Hexec, Hs.
  - intros Hopt.
    assert (executeTask M task options st
            = (Returns (failedTaskResult task (acc ++ [stepFailure step msg])),
               withTrace st
                 (tr ++ [EvSpawn command args
                           (InstallStep.env step) (InstallStep.cwd step)]))) as ->.
    { rewrite (executeTask_stepsStart M task options st tr0 Hstart).
      assert (StepResult.success (stepFailure step msg) = false) as Hs by done.
      unfold installTask. rewrite Hloop. cbn [stepLoop].
      rewrite Hdry, Hexec, Hs, Hopt. done. }
    split; reflexivity.
Qed.

Lemma sample_spawnErrorsHaveMessage : spawnErrorsHaveMessage Sample.machine.
Proof.
  intros tr command args env cwd message. cbn.
  by destruct (command =? "brew")%string.
Qed.

Lemma step_failure_policy_witness :
  (∃ r tr1, stepExecute Sample.machine SampleSteps.tune
              [EvSpawn "brew" ["install"; "git"] None None] = (r, tr1)
            ∧ StepResult.success r = true
            ∧ StepResult.error r = Some "Command failed with exit code 1")
  ∧ TaskResult.success
      <$> returned (executeTask Sample.machine SampleSteps.tool (Sample.options None)
                      (newFormulaExecutor [])).1
    = Some false.
Proof.
  split.
  - edestruct (step_failure_policy Sample.machine (Sample.options None)
                 SampleSteps.tool SampleSteps.tune
                 [SampleSteps.fetch] [SampleSteps.link; SampleSteps.finish]
                 (newFormulaExecutor []) [])
      as (msg & Hmsg & Hexec & Hopt & _);
      [ apply sample_spawnErrorsHaveMessage | reflexivity | reflexivity
      | reflexivity | vm_compute; reflexivity | reflexivity | reflexivity
      | reflexivity | ].
    destruct (Hopt eq_refl) as (Hs & He & _).
    eexists _, _. split; [exact Hexec|]. split; [exact Hs|].
    rewrite He. f_equal.
    vm_compute in Hexec. by injection Hexec as <-.
  - edestruct (step_failure_policy Sample.machine (Sample.options None)
                 SampleSteps.tool SampleSteps.link
                 [SampleSteps.fetch; SampleSteps.tune] [SampleSteps.finish]
                 (newFormulaExecutor []) [])
      as (msg & _ & _ & _ & Hhard);
      [ apply sample_spawnErrorsHaveMessage | reflexivity | reflexivity
      | reflexivity | vm_compute; reflexivity | reflexivity | reflexivity
      | reflexivity | ].
    destruct (Hhard eq_refl) as [_ ->]. reflexivity.
Defined.

(** *** The dependency gate and the run loop *)

Lemma missingDeps_spec (installed : gset string) (task : FormulaTask.t) (dep : string) :
  dep ∈ missingDeps installed task ↔ listsDependency task dep ∧ dep ∉ installed.
Proof.
  unfold missingDeps, listsDependency.
  destruct (FormulaTask.dependencies task) as [deps|]; cbn.
  - rewrite list_elem_of_filter. tauto.
  - split; [by intros ?%elem_of_nil | by intros [?%elem_of_nil _]].
Qed.

Lemma missingDeps_nonempty (installed : gset string) (task : FormulaTask.t) :
  missingDeps installed task ≠ []
  ↔ ∃ dep, listsDependency task dep ∧ dep ∉ installed.
Proof.
  split.
  - destruct (missingDeps installed task) as [|dep rest] eqn:E; [done|].
    intros _. exists dep. apply missingDeps_spec. rewrite E. left.
  - intros (dep & Hdep) E. apply missingDeps_spec in Hdep. rewrite E in Hdep.
    by apply elem_of_nil in Hdep.
Qed.

Lemma executeTask_missing (M : Machine) (task : FormulaTask.t)
    (options : ExecutorOptions.t) (st : ExecState) :
  missingDeps (installedTasks st) task ≠ [] →
  executeTask M task options st
  = (Returns (missingDepsResult task (missingDeps (installedTasks st) task)), st).
Proof.
  intros Hne. unfold executeTask. rewrite bool_decide_true; [done|].
  destruct (missingDeps (installedTasks st) task); [done | cbn; lia].
Qed.

(** When the dependency gate lets the task through, a returned result is not
    a missing-dependencies skip: it is a success, or it carries no [skipped]
    flag. *)
Lemma executeTask_not_missing (M : Machine) (task : FormulaTask.t)
    (options : ExecutorOptions.t) (st : ExecState) (r : TaskResult.t) :
  missingDeps (installedTasks st) task = [] →
  (executeTask M task options st).1 = Returns r →
  TaskResult.success r = true ∨ TaskResult.skipped r = None.
Proof.
  intros Hnone. revert r. apply executeTask_returns; [done | by left |].
  intros tr r _. revert r. apply installTask_returns; [|by left].
  intros failed tr1 Hloop. right. revert Hloop. generalize (@nil StepResult.t).
  revert tr. induction (FormulaTask.steps task) as [|step steps IH];
    intros tr acc; cbn [stepLoop]; [done|].
  destruct (truthy (ExecutorOptions.dryRun options)); [apply IH|].
  destruct (stepExecute M step tr) as [result tr2].
  destruct (StepResult.success result); [apply IH|].
  destruct (truthy (InstallStep.optional step)); [apply IH|].
  by intros [= <- <-].
Qed.

(** A returned result that is a skip without success is the result of the
    dependency gate. *)
Lemma executeTask_skip_failed (M : Machine) (task : FormulaTask.t)
    (options : ExecutorOptions.t) (st : ExecState) (r : TaskResult.t) :
  (executeTask M task options st).1 = Returns r →
  TaskResult.skipped r = Some true → TaskResult.success r = false →
  missingDeps (installedTasks st) task ≠ []
  ∧ r = missingDepsResult task (missingDeps (installedTasks st) task).
Proof.
  intros Hr Hskip Hfail.
  destruct (decide (missingDeps (installedTasks st) task = [])) as [Hnone|Hne].
  - destruct (executeTask_not_missing M task options st r Hnone Hr); congruence.
  - split; [done|]. rewrite (executeTask_missing M task options st Hne) in Hr.
    by injection Hr as <-.
Qed.

Lemma successOrSkipped_true (r : TaskResult.t) :
  successOrSkipped r = true
  ↔ TaskResult.success r = true ∨ TaskResult.skipped r = Some true.
Proof.
  unfold successOrSkipped.
  destruct (TaskResult.success r), (TaskResult.skipped r) as [[]|]; cbn; naive_solver.
Qed.

(** The run loop, result by result, when it returns.  The new results belong
    to the tasks in order, and there is one unless there is no task; the loop
    goes on behind every result that is a success or a skip; and a skip for
    missing dependencies is owed to dependencies that were not installed
    before the loop and are the id of no earlier task with a success or a
    skip. *)
Lemma taskLoop_results (M : Machine) (options : ExecutorOptions.t)
    (sortedTasks : list FormulaTask.t) (acc results : list TaskResult.t)
    (st : ExecState) :
  (taskLoop M options sortedTasks acc st).1 = Returns results →
  ∃ new,
    results = acc ++ new
    ∧ (sortedTasks ≠ [] → is_Some (new !! 0%nat))
    ∧ (∀ i t, new !! i = Some t → sortedTasks !! i = Some (TaskResult.task t))
    ∧ (∀ i t, new !! i = Some t → successOrSkipped t = true →
              (S i < length sortedTasks)%nat → is_Some (new !! S i))
    ∧ (∀ j u, new !! j = Some u →
              TaskResult.skipped u = Some true → TaskResult.success u = false →
              ∃ missing,
                u = missingDepsResult (TaskResult.task u) missing
                ∧ missing ≠ []
                ∧ ∀ d, d ∈ missing →
                    listsDependency (TaskResult.task u) d
                    ∧ (d ∉ installedTasks st)
                    ∧ ∀ i t, (i < j)%nat → new !! i = Some t →
                             successOrSkipped t = true →
                             d ≠ FormulaTask.id (TaskResult.task t)).
Proof.
  revert acc results st.
  induction sortedTasks as [|task rest IH]; intros acc results st; cbn [taskLoop].
  { intros [= <-]. exists []. rewrite app_nil_r. split; [done|]. split; [done|].
    split; [by intros i t|]. split; [by intros i t | by intros j u]. }
  pose proof (executeTask_installed M task options st) as Hinst.
  pose proof (executeTask_task M task options st) as Htask.
  pose proof (executeTask_skip_failed M task options st) as Hskipped.
  destruct (executeTask M task options st) as [[result|error] st1];
    cbn in Hinst, Htask, Hskipped; [|done].
  specialize (Htask result eq_refl). specialize (Hskipped result eq_refl).
  assert (TaskResult.skipped result = Some true → TaskResult.success result = false →
          ∃ missing,
            result = missingDepsResult (TaskResult.task result) missing
            ∧ missing ≠ []
            ∧ ∀ d, d ∈ missing →
                listsDependency (TaskResult.task result) d ∧ d ∉ installedTasks st)
    as Hfirst.
  { intros Hskip Hfail. destruct (Hskipped Hskip Hfail) as [Hne Hres].
    exists (missingDeps (installedTasks st) task).
    rewrite Htask. split; [done|]. split; [done|].
    intros d Hd. by apply missingDeps_spec. }
  assert (∀ st2 new',
            installedTasks st ⊆ installedTasks st2 →
            (successOrSkipped result = true → FormulaTask.id task ∈ installedTasks st2) →
            (∀ j u, new' !! j = Some u →
               TaskResult.skipped u = Some true → TaskResult.success u = false →
               ∃ missing,
                 u = missingDepsResult (TaskResult.task u) missing
                 ∧ missing ≠ []
                 ∧ ∀ d, d ∈ missing →
                     listsDependency (TaskResult.task u) d
                     ∧ (d ∉ installedTasks st2)
                     ∧ ∀ i t, (i < j)%nat → new' !! i = Some t →
                              successOrSkipped t = true →
                              d ≠ FormulaTask.id (TaskResult.task t)) →
            ∀ j u, (result :: new') !! j = Some u →
               TaskResult.skipped u = Some true → TaskResult.success u = false →
               ∃ missing,
                 u = missingDepsResult (TaskResult.task u) missing
                 ∧ missing ≠ []
                 ∧ ∀ d, d ∈ missing →
                     listsDependency (TaskResult.task u) d
                     ∧ (d ∉ installedTasks st)
                     ∧ ∀ i t, (i < j)%nat → (result :: new') !! i = Some t →
                              successOrSkipped t = true →
                              d ≠ FormulaTask.id (TaskResult.task t)) as Hlater.
  { intros st2 new' Hsub Hadded Hnew' [|j] u Hj Hskip Hfail; cbn in Hj.
    - injection Hj as <-. destruct (Hfirst Hskip Hfail) as (missing & Hres & Hne & Hall).
      exists missing. split; [done|]. split; [done|].
      intros d Hd. destruct (Hall d Hd) as [Hdep Hnot].
      split; [done|]. split; [done|]. intros i t Hi. lia.
    - destruct (Hnew' j u Hj Hskip Hfail) as (missing & Hres & Hne & Hall).
      exists missing. split; [done|]. split; [done|].
      intros d Hd. destruct (Hall d Hd) as (Hdep & Hnot & Hearlier).
      split; [done|]. split; [set_solver|].
      intros [|i] t Hi Ht Hok; cbn in Ht.
      + injection Ht as <-. rewrite Htask. intros ->. apply Hnot. by apply Hadded.
      + apply (Hearlier i t); [lia | done | done]. }
  destruct (successOrSkipped result) eqn:Hok.
  - intros Hloop.
    destruct (IH _ _ _ Hloop) as (new & -> & Hsome & Htasks & Hnext & Hskips).
    exists (result :: new). split; [by rewrite <-app_assoc|].
    split; [eauto|]. split.
    { intros [|i] t Hi; cbn in Hi |- *; [injection Hi as <-; by rewrite Htask|].
      by apply Htasks. }
    split.
    { intros [|i] t Hi Ht Hlen; cbn in Hi, Hlen |- *.
      - apply Hsome. destruct rest; [cbn in Hlen; lia | done].
      - apply (Hnext i t Hi Ht). lia. }
    apply (Hlater (addInstalled (FormulaTask.id task) st1)); [| |done].
    + cbn. rewrite Hinst. set_solver.
    + intros _. cbn. set_solver.
  - assert (TaskResult.skipped result ≠ Some true) as Hnoskip.
    { intros Hskip. unfold successOrSkipped in Hok. rewrite Hskip in Hok.
      cbn in Hok. by rewrite orb_true_r in Hok. }
    destruct (negb (truthy (ExecutorOptions.continueOnError options))).
    + intros [= <-]. exists [result]. split; [done|]. split; [eauto|]. split.
      { intros [|i] t Hi; cbn in Hi |- *; [injection Hi as <-; by rewrite Htask|done]. }
      split.
      { intros [|i] t Hi Ht; cbn in Hi; [injection Hi as <-; congruence | done]. }
      intros [|j] u Hj Hskip; cbn in Hj; [injection Hj as <-; done | done].
    + intros Hloop.
      destruct (IH _ _ _ Hloop) as (new & -> & Hsome & Htasks & Hnext & Hskips).
      exists (result :: new). split; [by rewrite <-app_assoc|].
      split; [eauto|]. split.
      { intros [|i] t Hi; cbn in Hi |- *; [injection Hi as <-; by rewrite Htask|].
        by apply Htasks. }
      split.
      { intros [|i] t Hi Ht Hlen; cbn in Hi, Hlen |- *.
        - injection Hi as <-. congruence.
        - apply (Hnext i t Hi Ht). lia. }
      apply (Hlater st1); [by rewrite Hinst | done | done].
Qed.

(** Claim C10: a task skipped for missing dependencies.  Its result has
    [success = false] and [skipped = true]; the run loop adds its id to the
    installed set and goes on with the remaining tasks whatever
    [continueOnError] is; and in every later state of the run, whose
    installed set has only grown, the skipped task's id is not among the
    missing dependencies of any task.  For a whole run that returns:
    [InstallResult.success] is [true] exactly when every result is a success
    or a skip, so no skip makes the run fail; behind a skipped result the
    run goes on to the next scheduled task; the id of the skipped task is in
    the installed set at the end; and no later skip for missing dependencies
    names it. *)
Theorem missing_dependencies_skip (M : Machine) (options : ExecutorOptions.t)
    (task : FormulaTask.t) (rest : list FormulaTask.t)
    (taskResults : list TaskResult.t) (st : ExecState) :
  missingDeps (installedTasks st) task ≠ [] →
  let skip := missingDepsResult task (missingDeps (installedTasks st) task) in
  executeTask M task options st = (Returns skip, st)
  ∧ TaskResult.success skip = false
  ∧ TaskResult.skipped skip = Some true
  ∧ taskLoop M options (task :: rest) taskResults st
    = taskLoop M options rest (taskResults ++ [skip])
        (addInstalled (FormulaTask.id task) st)
  ∧ FormulaTask.id task
    ∈ installedTasks (taskLoop M options (task :: rest) taskResults st).2
  ∧ (∀ later st',
       installedTasks (addInstalled (FormulaTask.id task) st) ⊆ installedTasks st' →
       FormulaTask.id task ∉ missingDeps (installedTasks st') later)
  ∧ ∀ formula st0 r st',
      execute M formula options st0 = (Returns r, st') →
      let schedule := topologicalSort (filterTasks formula options) in
      (InstallResult.success r = true
       ↔ ∀ t, t ∈ InstallResult.tasks r →
              TaskResult.success t = true ∨ TaskResult.skipped t = Some true)
      ∧ ∀ i t,
          InstallResult.tasks r !! i = Some t →
          TaskResult.skipped t = Some true →
          schedule !! i = Some (TaskResult.task t)
          ∧ FormulaTask.id (TaskResult.task t) ∈ installedTasks st'
          ∧ ((S i < length schedule)%nat → is_Some (InstallResult.tasks r !! S i))
          ∧ ∀ j u,
              (i < j)%nat → InstallResult.tasks r !! j = Some u →
              TaskResult.skipped u = Some true → TaskResult.success u = false →
              ∃ missing,
                u = missingDepsResult (TaskResult.task u) missing
                ∧ missing ≠ []
                ∧ FormulaTask.id (TaskResult.task t) ∉ missing.
Proof.
  intros Hne skip.
  pose proof (executeTask_missing M task options st Hne) as Hexec.
  assert (taskLoop M options (task :: rest) taskResults st
          = taskLoop M options rest (taskResults ++ [skip])
              (addInstalled (FormulaTask.id task) st)) as Hloop.
  { cbn [taskLoop]. by rewrite Hexec. }
  split; [done|]. split; [done|]. split; [done|]. split; [done|]. split.
  { rewrite Hloop.
    destruct (taskLoop_installed M options rest (taskResults ++ [skip])
                (addInstalled (FormulaTask.id task) st)) as (new & -> & _).
    cbn. set_solver. }
  split.
  { intros later st' Hsub Hin. apply missingDeps_spec in Hin as [_ Hin].
    apply Hin, Hsub. cbn. set_solver. }
  clear. intros formula st0 r st' Hrun. cbv zeta. unfold execute in Hrun.
  case_bool_decide as Hempty.
  { injection Hrun as <- <-. cbn. split; [|by intros i t].
    split; [by intros _ t ?%elem_of_nil | done]. }
  pose proof (λ results,
                taskLoop_results M options
                  (topologicalSort (filterTasks formula options)) [] results st0)
    as Hresults.
  destruct (taskLoop_installed M options
              (topologicalSort (filterTasks formula options)) [] st0)
    as (added & Hinstalled & Hadded).
  destruct (taskLoop M options _ [] st0) as [[taskResults|error] st1]; [|done].
  injection Hrun as <- <-. cbn in Hinstalled, Hadded |- *.
  destruct (Hresults taskResults eq_refl)
    as (new & Hnew & _ & Htasks & Hnext & Hskips).
  cbn in Hnew. subst new. rewrite (Hadded taskResults eq_refl) in *. cbn in *.
  split.
  { rewrite forallb_forall. split.
    - intros Hall t Ht. apply successOrSkipped_true, Hall. by apply list_elem_of_In.
    - intros Hall t Ht. apply successOrSkipped_true, Hall. by apply list_elem_of_In. }
  intros i t Hi Hskip.
  assert (successOrSkipped t = true) as Hok by (apply successOrSkipped_true; by right).
  split; [by apply Htasks|]. split.
  { rewrite Hinstalled. apply elem_of_union_r. unfold addedIds.
    apply elem_of_list_to_set, list_elem_of_fmap.
    exists t. split; [done|]. apply list_elem_of_filter. split; [done|].
    by eapply list_elem_of_lookup_2. }
  split; [by apply (Hnext i t Hi Hok)|].
  intros j u Hij Hj Hskip' Hfail.
  destruct (Hskips j u Hj Hskip' Hfail) as (missing & Hu & Hmissing & Hall).
  exists missing. split; [done|]. split; [done|].
  intros Hin. destruct (Hall _ Hin) as (_ & _ & Hearlier).
  by apply (Hearlier i t Hij Hi Hok).
Qed.

Lemma missing_dependencies_skip_witness :
  let run := execute Sample.machine SampleSkip.formula (Sample.options None)
               (newFormulaExecutor []) in
  executeTask Sample.machine SampleRun.gh (Sample.options None) (newFormulaExecutor [])
  = (Returns (missingDepsResult SampleRun.gh ["git"]), newFormulaExecutor [])
  ∧ InstallResult.success <$> returned run.1 = Some true
  ∧ fmap TaskResult.success <$> (InstallResult.tasks <$> returned run.1)
    = Some [false; true].
Proof.
  cbv zeta.
  destruct (missing_dependencies_skip Sample.machine (Sample.options None)
              SampleRun.gh [] [] (newFormulaExecutor []))
    as (Hexec & _ & _ & _ & _ & _ & Hrun); [by vm_compute|].
  split; [exact Hexec|].
  assert (∃ r st', execute Sample.machine SampleSkip.formula (Sample.options None)
                     (newFormulaExecutor []) = (Returns r, st'))
    as (r & st' & Hexecute) by (vm_compute; eauto).
  destruct (Hrun SampleSkip.formula (newFormulaExecutor []) r st' Hexecute)
    as [Hsuccess _].
  assert (InstallResult.success r = true) as Hs.
  { apply Hsuccess. intros t Ht.
    vm_compute in Hexecute. injection Hexecute as <- _. cbn in Ht.
    apply elem_of_cons in Ht as [->|Ht]; [by right|].
    apply list_elem_of_singleton in Ht as ->. by left. }
  rewrite Hexecute. cbn [returned fmap option_fmap option_map fst].
  split; [by rewrite Hs|].
  vm_compute in Hexecute. injection Hexecute as <- _. reflexivity.
Defined.

(** Claim C4, as stated, fails: the gate of [executeTask] only asks whether
    a listed dependency is in the installed set.  The formula holds the single
    task "gh", which lists "git"; "git" is no task of the resolved set, and
    "gh" is skipped for it. *)
Lemma dependency_gate_outside_resolved_set :
  InstallResult.tasks
    <$> returned (execute Sample.machine SampleRun.onlyGh (Sample.options None)
                    (newFormulaExecutor [])).1
  = Some [missingDepsResult SampleRun.gh ["git"]]
  ∧ TaskResult.skipReason (missingDepsResult SampleRun.gh ["git"])
    = Some "Missing dependencies: git"
  ∧ ¬ (∃ dep, listsDependency SampleRun.gh dep
              ∧ (dep ∉ installedTasks (newFormulaExecutor []))
              ∧ dep ∈ taskIds (ResolvedFormula.tasks SampleRun.onlyGh)).
Proof.
  split; [by vm_compute|]. split; [reflexivity|].
  intros (dep & Hdep & _ & Hin).
  unfold listsDependency in Hdep. cbn in Hdep, Hin.
  apply list_elem_of_singleton in Hdep as ->.
  apply list_elem_of_singleton in Hin. done.
Qed.

(** Claim C4, amended: a task is skipped with the missing-dependencies reason
    exactly when some listed dependency id is not in the run's installed set,
    whether or not that id belongs to a task of the resolved set; the reason
    lists every such id. *)
Theorem dependency_gate (M : Machine) (task : FormulaTask.t)
    (options : ExecutorOptions.t) (st : ExecState) :
  (executeTask M task options st).1
  = Returns (missingDepsResult task (missingDeps (installedTasks st) task))
  ↔ ∃ dep, listsDependency task dep ∧ dep ∉ installedTasks st.
Proof.
  rewrite <-missingDeps_nonempty. split.
  - intros Hres Hnone.
    destruct (executeTask_not_missing M task options st _ Hnone Hres); done.
  - intros Hne. by rewrite executeTask_missing.
Qed.

Lemma dependency_gate_witness :
  (executeTask Sample.machine SampleRun.gh (Sample.options None)
     (newFormulaExecutor [])).1
  = Returns (missingDepsResult SampleRun.gh ["git"]).
Proof.
  apply (dependency_gate Sample.machine SampleRun.gh (Sample.options None)
           (newFormulaExecutor [])).
  exists "git". split; [by left | set_solver].
Defined.

(** *** The installed set across runs *)

Lemma execute_installed (M : Machine) (formula : ResolvedFormula.t)
    (options : ExecutorOptions.t) (st : ExecState) :
  ∃ finished,
    installedTasks (execute M formula options st).2
    = installedTasks st ∪ addedIds finished
    ∧ ∀ r, (execute M formula options st).1 = Returns r →
           InstallResult.tasks r = finished.
Proof.
  unfold execute. destruct (bool_decide _).
  { exists []. cbn. split; [unfold addedIds; cbn; set_solver | by intros r [= <-]]. }
  destruct (taskLoop_installed M options
              (topologicalSort (filterTasks formula options)) [] st)
    as (new & Hinst & Hres).
  destruct (taskLoop M options _ [] st) as [[taskResults|error] st1].
  - exists new. cbn in *. split; [done|]. intros r [= <-]. cbn. by apply Hres.
  - exists new. cbn in *. split; [done | done].
Qed.

(** Claim C3, as stated, fails: [installedTasks] is initialised once, when the
    instance is created, and [execute] never clears it.  After a dry run of a
    formula with the task "git" the set holds "git"; a second [execute] on
    the same instance starts in that state, and there the task "gh", which
    depends on "git", passes the dependency gate of a formula without "git",
    while on a new instance it is skipped. *)
Lemma installedTasks_kept_between_runs :
  let options := Sample.options (Some true) in
  let st1 := (execute Sample.machine SampleRun.onlyGit options
                (newFormulaExecutor [])).2 in
  installedTasks st1 = {["git"]}
  ∧ fmap TaskResult.skipped
      <$> (InstallResult.tasks
             <$> returned (execute Sample.machine SampleRun.onlyGh options st1).1)
    = Some [None]
  ∧ fmap TaskResult.skipped
      <$> (InstallResult.tasks
             <$> returned (execute Sample.machine SampleRun.onlyGh options
                             (newFormulaExecutor (trace st1))).1)
    = Some [Some true].
Proof. cbv zeta. split; [|split]; by vm_compute. Qed.

(** Claim C3, amended: the installed set is empty when a [FormulaExecutor] is
    created, and [execute] only adds to it: when an [execute] call returns,
    the set holds every id it held when the call began together with the ids
    of the tasks that succeeded or were skipped during the call, so the next
    call on the same instance begins with all of them. *)
Theorem installedTasks_across_runs (M : Machine) (formula : ResolvedFormula.t)
    (options : ExecutorOptions.t) (st : ExecState) (tr : Trace) :
  installedTasks (newFormulaExecutor tr) = ∅
  ∧ (∀ r, (execute M formula options st).1 = Returns r →
          installedTasks (execute M formula options st).2
          = installedTasks st ∪ addedIds (InstallResult.tasks r))
  ∧ installedTasks st ⊆ installedTasks (execute M formula options st).2.
Proof.
  destruct (execute_installed M formula options st) as (finished & Hinst & Hres).
  split; [done|]. split.
  - intros r Hr. by rewrite (Hres r Hr).
  - rewrite Hinst. set_solver.
Qed.

(** ** Dependency scheduler *)

(** *** The map from ids to tasks *)

Lemma taskMap_foldl_wf (l : list FormulaTask.t) (m : gmap string FormulaTask.t) :
  (∀ k t, m !! k = Some t → FormulaTask.id t = k) →
  ∀ k t, foldl (λ m task, <[FormulaTask.id task := task]> m) m l !! k = Some t →
         FormulaTask.id t = k.
Proof.
  revert m. induction l as [|a l IH]; intros m Hm k t; cbn; [apply Hm|].
  apply IH. intros k' t'. destruct (decide (FormulaTask.id a = k')) as [<-|Hne].
  - rewrite lookup_insert_eq. by intros [= <-].
  - rewrite lookup_insert_ne by done. apply Hm.
Qed.

Lemma taskMap_foldl_elem (l : list FormulaTask.t) (m : gmap string FormulaTask.t)
    (k : string) (t : FormulaTask.t) :
  foldl (λ m task, <[FormulaTask.id task := task]> m) m l !! k = Some t →
  t ∈ l ∨ m !! k = Some t.
Proof.
  revert m. induction l as [|a l IH]; intros m; cbn; [by right|].
  intros [Hin|Hm]%IH; [left; by right|].
  destruct (decide (FormulaTask.id a = k)) as [<-|Hne].
  - rewrite lookup_insert_eq in Hm. injection Hm as <-. left. left.
  - rewrite lookup_insert_ne in Hm by done. by right.
Qed.

Lemma taskMapOf_elem (tasks : list FormulaTask.t) (k : string) (t : FormulaTask.t) :
  taskMapOf tasks !! k = Some t → t ∈ tasks.
Proof.
  intros [?|Hm]%taskMap_foldl_elem; [done|]. by rewrite lookup_empty in Hm.
Qed.

Lemma taskMapOf_id (tasks : list FormulaTask.t) (k : string) (t : FormulaTask.t) :
  taskMapOf tasks !! k = Some t → FormulaTask.id t = k.
Proof. apply taskMap_foldl_wf. intros k' t'. by rewrite lookup_empty. Qed.

Lemma taskMap_foldl_dom (l : list FormulaTask.t) (m : gmap string FormulaTask.t) :
  dom (foldl (λ m task, <[FormulaTask.id task := task]> m) m l)
  = dom m ∪ list_to_set (taskIds l).
Proof.
  revert m. induction l as [|a l IH]; intros m; cbn.
  - set_solver.
  - rewrite IH, dom_insert_L. set_solver.
Qed.

Lemma taskMapOf_dom (tasks : list FormulaTask.t) :
  dom (taskMapOf tasks) = list_to_set (taskIds tasks).
Proof. unfold taskMapOf. rewrite taskMap_foldl_dom, dom_empty_L. set_solver. Qed.

Lemma taskMapOf_is_Some (tasks : list FormulaTask.t) (k : string) :
  is_Some (taskMapOf tasks !! k) ↔ k ∈ taskIds tasks.
Proof. rewrite <-elem_of_dom, taskMapOf_dom. set_solver. Qed.

Lemma taskMap_foldl_lookup (l : list FormulaTask.t) (m : gmap string FormulaTask.t)
    (k : string) (t : FormulaTask.t) :
  NoDup (taskIds l) →
  foldl (λ m task, <[FormulaTask.id task := task]> m) m l !! k = Some t
  ↔ (t ∈ l ∧ FormulaTask.id t = k) ∨ ((k ∉ taskIds l) ∧ m !! k = Some t).
Proof.
  revert m. induction l as [|a l IH]; intros m Hnd.
  { cbn. split; [intros ?; right; split; [apply not_elem_of_nil | done]|].
    intros [[?%elem_of_nil _]|[_ ?]]; done. }
  change (taskIds (a :: l)) with (FormulaTask.id a :: taskIds l) in *.
  cbn [foldl].
  apply NoDup_cons in Hnd as [Ha Hnd]. rewrite (IH _ Hnd).
  rewrite not_elem_of_cons, elem_of_cons.
  assert (∀ t', t' ∈ l → FormulaTask.id t' ≠ FormulaTask.id a) as Hfresh.
  { intros t' Hin Hid. apply Ha. rewrite <-Hid. by apply list_elem_of_fmap_2. }
  destruct (decide (FormulaTask.id a = k)) as [<-|Hne].
  - rewrite lookup_insert_eq. naive_solver.
  - rewrite lookup_insert_ne by done. naive_solver.
Qed.

(** With distinct ids, the map sends the id of each task of the input to
    that task. *)
Lemma taskMapOf_lookup (tasks : list FormulaTask.t) (k : string) (t : FormulaTask.t) :
  NoDup (taskIds tasks) →
  taskMapOf tasks !! k = Some t ↔ t ∈ tasks ∧ FormulaTask.id t = k.
Proof.
  intros Hnd. unfold taskMapOf. rewrite taskMap_foldl_lookup by done.
  rewrite lookup_empty. naive_solver.
Qed.

Lemma size_list_to_set_le (l : list string) :
  (size (list_to_set l : gset string) ≤ length l)%nat.
Proof.
  induction l as [|x l IH]; cbn; [by rewrite size_empty|].
  rewrite size_union_alt, size_singleton.
  pose proof (subseteq_size (list_to_set l ∖ {[x]}) (list_to_set l : gset string)
                ltac:(set_solver)).
  lia.
Qed.

(** *** The recursion never reaches its bound *)

Section visit_total.
Context (taskMap : gmap string FormulaTask.t).
Hypothesis taskMap_id :
  ∀ k t, taskMap !! k = Some t → FormulaTask.id t = k.

Lemma visitDependencies_total
    (visitTask : FormulaTask.t → SortState → option SortState)
    (bound : gset string) (deps : list string) (st : SortState) :
  (∀ dep s, FormulaTask.id dep ∈ dom taskMap → bound ⊆ visited s →
            ∃ s', visitTask dep s = Some s' ∧ visited s ⊆ visited s') →
  bound ⊆ visited st →
  ∃ st', visitDependencies visitTask taskMap deps st = Some st'
         ∧ visited st ⊆ visited st'.
Proof.
  intros Hvisit. revert st. induction deps as [|depId rest IH]; intros st Hst; cbn.
  { eauto. }
  destruct (taskMap !! depId) as [dep|] eqn:Hdep; [|by apply IH].
  destruct (Hvisit dep st) as (s' & -> & Hs'); [|done|].
  { apply elem_of_dom. rewrite (taskMap_id _ _ Hdep). eauto. }
  cbn. destruct (IH s') as (st' & -> & Hst'); [set_solver|].
  exists st'. split; [done | set_solver].
Qed.

Lemma visit_total (fuel : nat) (task : FormulaTask.t) (st : SortState) :
  FormulaTask.id task ∈ dom taskMap →
  (size (dom taskMap ∖ visited st) < fuel)%nat →
  ∃ st', visit fuel taskMap task st = Some st' ∧ visited st ⊆ visited st'.
Proof.
  revert task st. induction fuel as [|fuel IH]; intros task st Hdom Hsize; [lia|].
  cbn [visit]. case_bool_decide as Hvis; [eauto|].
  set (st1 := {| visited := visited st ∪ {[FormulaTask.id task]};
                 result := result st |}).
  destruct (visitDependencies_total (visit fuel taskMap) (visited st1)
              (default [] (FormulaTask.dependencies task)) st1)
    as (st2 & -> & Hst2); [|done|].
  - intros dep s Hdep Hs. apply IH; [done|].
    assert (dom taskMap ∖ visited s ⊂ dom taskMap ∖ visited st) as Hsub.
    { subst st1. cbn in Hs. split; [set_solver|].
      intros Hback. specialize (Hback (FormulaTask.id task)). set_solver. }
    apply subset_size in Hsub. lia.
  - cbn. eexists. split; [done|]. subst st1. cbn in *. set_solver.
Qed.

Lemma visitAll_total (fuel : nat) (tasks : list FormulaTask.t) (st : SortState) :
  (∀ task, task ∈ tasks → FormulaTask.id task ∈ dom taskMap) →
  (size (dom taskMap) < fuel)%nat →
  ∃ st', visitAll fuel taskMap tasks st = Some st'.
Proof.
  intros Hdom Hsize. revert st.
  induction tasks as [|task rest IH]; intros st; cbn; [eauto|].
  destruct (visit_total fuel task st) as (st' & -> & _).
  - apply Hdom. left.
  - pose proof (subseteq_size (dom taskMap ∖ visited st) (dom taskMap)
                  ltac:(set_solver)). lia.
  - cbn. apply IH. intros t Ht. apply Hdom. by right.
Qed.
End visit_total.

Lemma topologicalSort_fuel_total (tasks : list FormulaTask.t) :
  topologicalSort_fuel (S (length tasks)) tasks = Some (topologicalSort tasks).
Proof.
  unfold topologicalSort, topologicalSort_fuel.
  destruct (visitAll_total (taskMapOf tasks) (taskMapOf_id tasks)
              (S (length tasks)) tasks {| visited := ∅; result := [] |})
    as (st' & ->); [| |done].
  - intros task Htask. rewrite taskMapOf_dom. apply elem_of_list_to_set.
    by apply list_elem_of_fmap_2.
  - rewrite taskMapOf_dom. pose proof (size_list_to_set_le (taskIds tasks)).
    unfold taskIds in *. rewrite length_fmap in *. lia.
Qed.

(** *** The output is made of tasks of the input *)

Lemma visitDependencies_elem
    (visitTask : FormulaTask.t → SortState → option SortState)
    (tasks : list FormulaTask.t) (deps : list string) (st st' : SortState) :
  (∀ dep s s', visitTask dep s = Some s' → dep ∈ tasks →
               (∀ t, t ∈ result s → t ∈ tasks) → ∀ t, t ∈ result s' → t ∈ tasks) →
  visitDependencies visitTask (taskMapOf tasks) deps st = Some st' →
  (∀ t, t ∈ result st → t ∈ tasks) → ∀ t, t ∈ result st' → t ∈ tasks.
Proof.
  intros Hvisit. revert st. induction deps as [|d rest IH]; intros st Hrun Hst; cbn in Hrun.
  { by injection Hrun as <-. }
  destruct (taskMapOf tasks !! d) as [D|] eqn:HD; [|by eapply IH].
  destruct (visitTask D st) as [s'|] eqn:Hv; [|done]. cbn in Hrun.
  eapply IH; [done|]. eapply Hvisit; [done | by eapply taskMapOf_elem | done].
Qed.

Lemma visit_elem (tasks : list FormulaTask.t) (fuel : nat) (task : FormulaTask.t)
    (st st' : SortState) :
  visit fuel (taskMapOf tasks) task st = Some st' → task ∈ tasks →
  (∀ t, t ∈ result st → t ∈ tasks) → ∀ t, t ∈ result st' → t ∈ tasks.
Proof.
  revert task st st'. induction fuel as [|fuel IH]; intros task st st' Hrun Htask Hst; [done|].
  cbn [visit] in Hrun. case_bool_decide; [by injection Hrun as <-|].
  destruct (visitDependencies _ _ _ _) as [st2|] eqn:Hloop; [|done].
  cbn in Hrun. injection Hrun as <-. cbn.
  intros t [Ht|Ht]%elem_of_app; [|by apply list_elem_of_singleton in Ht as ->].
  revert t Ht. eapply visitDependencies_elem; [|exact Hloop|done]. apply IH.
Qed.

Lemma topologicalSort_elem (tasks : list FormulaTask.t) (t : FormulaTask.t) :
  t ∈ topologicalSort tasks → t ∈ tasks.
Proof.
  pose proof (topologicalSort_fuel_total tasks) as Htotal.
  unfold topologicalSort_fuel in Htotal.
  destruct (visitAll _ _ tasks _) as [st'|] eqn:Hrun; [|done].
  cbn in Htotal. injection Htotal as <-.
  assert (∀ fuel todo st st', visitAll fuel (taskMapOf tasks) todo st = Some st' →
            (∀ t, t ∈ todo → t ∈ tasks) →
            (∀ t, t ∈ result st → t ∈ tasks) → ∀ t, t ∈ result st' → t ∈ tasks) as Hall.
  { clear. intros fuel todo.
    induction todo as [|task rest IH]; intros st st' Hrun Htodo Hst;
      cbn [visitAll] in Hrun; [by injection Hrun as <-|].
    destruct (visit _ _ task st) as [s'|] eqn:Hv; [|done]. cbn in Hrun.
    eapply IH; [done | intros t Ht; apply Htodo; by right |].
    eapply visit_elem; [done | apply Htodo; left | done]. }
  eapply Hall; [done | done |]. by intros t' ?%elem_of_nil.
Qed.

(** *** Dependencies come first *)

Section visit_spec.
Context (tasks : list FormulaTask.t).
Hypothesis distinct_ids : NoDup (taskIds tasks).
Hypothesis acyclic : acyclicDependencies tasks.

Local Abbreviation taskMap := (taskMapOf tasks).
Local Abbreviation edge := (dependencyEdge tasks).
Local Abbreviation sortedSoFar := (sortedSoFar tasks).
Local Abbreviation visited_to := (visited_to tasks).

Lemma same_id_same_task (t t' : FormulaTask.t) :
  t ∈ tasks → t' ∈ tasks → FormulaTask.id t = FormulaTask.id t' → t = t'.
Proof.
  intros Ht Ht' Hid.
  assert (taskMap !! FormulaTask.id t = Some t) as H1
    by (by apply taskMapOf_lookup).
  assert (taskMap !! FormulaTask.id t = Some t') as H2
    by (by apply taskMapOf_lookup).
  congruence.
Qed.

Lemma sortedSoFar_ids (st : SortState) (g : string) :
  sortedSoFar st → g ∈ taskIds (result st) → g ∈ visited st.
Proof.
  intros [_ Hsorted] (t & -> & Ht)%list_elem_of_fmap.
  apply list_elem_of_lookup in Ht as [i Hi]. by destruct (Hsorted i t Hi) as (_ & ? & _).
Qed.

Lemma sortedSoFar_grow (st : SortState) (seen : gset string) :
  sortedSoFar st → visited st ⊆ seen →
  sortedSoFar {| visited := seen; result := result st |}.
Proof.
  intros [Hnd Hsorted] Hsub. split; [done|]. intros i t Hi.
  destruct (Hsorted i t Hi) as (Ht & Hv & Hdeps).
  cbn. split; [done|]. split; [set_solver | done].
Qed.

Lemma visitDependencies_spec
    (visitTask : FormulaTask.t → SortState → option SortState)
    (task : FormulaTask.t) (deps : list string) (st st_end : SortState) :
  (∀ dep s s', visitTask dep s = Some s' → dep ∈ tasks → sortedSoFar s →
     (∀ g, inProgress s g →
           ∃ G, G ∈ tasks ∧ FormulaTask.id G = g ∧ tc edge G dep) →
     visited_to dep s s') →
  task ∈ tasks →
  (∀ d, d ∈ deps → listsDependency task d) →
  visitDependencies visitTask taskMap deps st = Some st_end →
  sortedSoFar st →
  (∀ g, inProgress st g →
        ∃ G, G ∈ tasks ∧ FormulaTask.id G = g ∧ rtc edge G task) →
  sortedSoFar st_end
  ∧ (∃ ext, result st_end = result st ++ ext
            ∧ ∀ t, t ∈ ext → FormulaTask.id t ∉ visited st)
  ∧ visited st ⊆ visited st_end
  ∧ (∀ g, inProgress st_end g → inProgress st g)
  ∧ (∀ d D, d ∈ deps → taskMap !! d = Some D → D ∈ result st_end).
Proof.
  intros Hvisit Htask. revert st.
  induction deps as [|d rest IH]; intros st Hdeps Hrun Hsorted Hreach; cbn in Hrun.
  { injection Hrun as <-. split; [done|].
    split; [exists []; split; [by rewrite app_nil_r | by intros t ?%elem_of_nil]|].
    split; [done|]. split; [done|]. by intros d D ?%elem_of_nil. }
  assert (∀ d', d' ∈ rest → listsDependency task d') as Hrest
    by (intros d' Hd'; apply Hdeps; by right).
  destruct (taskMap !! d) as [D|] eqn:HD.
  - destruct (visitTask D st) as [s'|] eqn:Hv; [|done]. cbn in Hrun.
    apply taskMapOf_lookup in HD as [HDin HDid]; [|done].
    destruct (Hvisit D st s' Hv HDin Hsorted)
      as (Hsorted' & (ext & Hext & Hnew) & Hvis' & HDres & Hprog').
    { intros g Hg. destruct (Hreach g Hg) as (G & HG & HGid & Hpath).
      exists G. split; [done|]. split; [done|].
      eapply tc_rtc_l; [exact Hpath|]. apply tc_once.
      split; [done|]. split; [done|]. rewrite HDid. apply Hdeps. left. }
    destruct (IH s' Hrest Hrun Hsorted')
      as (Hsorted_end & (ext' & Hext' & Hnew') & Hvis_end & Hprog_end & Hdone).
    { intros g Hg. apply Hreach. by apply Hprog'. }
    split; [done|]. split; [|split; [|split]].
    + exists (ext ++ ext'). split; [by rewrite Hext', Hext, <-app_assoc|].
      intros t [Ht|Ht]%elem_of_app; [by apply Hnew|].
      specialize (Hnew' t Ht). set_solver.
    + set_solver.
    + intros g Hg. by apply Hprog', Hprog_end.
    + intros d' D' [->|Hd']%elem_of_cons HD'.
      * apply taskMapOf_lookup in HD' as [HD'in HD'id]; [|done].
        assert (D' = D) as -> by (apply same_id_same_task; congruence).
        rewrite Hext'. apply elem_of_app. by left.
      * by eapply Hdone.
  - destruct (IH st Hrest Hrun Hsorted Hreach)
      as (Hsorted_end & Hext & Hvis_end & Hprog_end & Hdone).
    split; [done|]. split; [done|]. split; [done|]. split; [done|].
    intros d' D' [->|Hd']%elem_of_cons HD'; [congruence | by eapply Hdone].
Qed.

Lemma visit_spec (fuel : nat) (task : FormulaTask.t) (st st' : SortState) :
  visit fuel taskMap task st = Some st' →
  task ∈ tasks →
  sortedSoFar st →
  (∀ g, inProgress st g →
        ∃ G, G ∈ tasks ∧ FormulaTask.id G = g ∧ tc edge G task) →
  visited_to task st st'.
Proof.
  revert task st st'. induction fuel as [|fuel IH];
    intros task st st' Hrun Htask Hsorted Hreach; [done|].
  cbn [visit] in Hrun. case_bool_decide as Hvis.
  - injection Hrun as <-. split; [done|].
    split; [exists []; split; [by rewrite app_nil_r | by intros t ?%elem_of_nil]|].
    split; [done|]. split; [|done].
    destruct (decide (FormulaTask.id task ∈ taskIds (result st))) as [Hin|Hnin].
    + apply list_elem_of_fmap in Hin as (t & Hid & Ht).
      assert (t = task) as <-; [|done].
      apply list_elem_of_lookup in Ht as [i Hi].
      destruct Hsorted as [_ Hsorted].
      destruct (Hsorted i t Hi) as (Htin & _). by apply same_id_same_task.
    + destruct (Hreach (FormulaTask.id task)) as (G & HG & HGid & Hcycle);
        [by split|].
      assert (G = task) as -> by (by apply same_id_same_task).
      by apply acyclic in Hcycle.
  - set (st1 := {| visited := visited st ∪ {[FormulaTask.id task]};
                   result := result st |}) in Hrun.
    destruct (visitDependencies (visit fuel taskMap) taskMap
                (default [] (FormulaTask.dependencies task)) st1)
      as [st2|] eqn:Hloop; [|done].
    cbn in Hrun. injection Hrun as <-.
    destruct (visitDependencies_spec (visit fuel taskMap) task
                (default [] (FormulaTask.dependencies task)) st1 st2)
      as (Hsorted2 & (ext & Hext & Hnew) & Hvis2 & Hprog2 & Hdone); try done.
    { apply sortedSoFar_grow; [done | set_solver]. }
    { intros g [Hg Hres]. cbn in Hg, Hres.
      destruct (decide (g = FormulaTask.id task)) as [->|Hne].
      - exists task. split; [done|]. split; [done|]. apply rtc_refl.
      - destruct (Hreach g) as (G & HG & HGid & Hpath); [split; set_solver|].
        exists G. split; [done|]. split; [done|]. by apply tc_rtc. }
    cbn in Hext, Hvis2, Hnew.
    assert (FormulaTask.id task ∉ taskIds (result st2)) as Hfresh.
    { rewrite Hext. unfold taskIds. rewrite fmap_app, elem_of_app.
      intros [Hold|(t & Hid & Ht)%list_elem_of_fmap].
      - apply Hvis. by apply sortedSoFar_ids.
      - apply (Hnew t Ht). rewrite <-Hid. set_solver. }
    split; [|split; [|split; [|split]]]; cbn.
    + destruct Hsorted2 as [Hnd2 Hsorted2]. split; cbn.
      { unfold taskIds. rewrite fmap_app. apply NoDup_app. split; [done|].
        split; [|apply NoDup_singleton].
        intros g Hg ->%list_elem_of_singleton. done. }
      intros i t Hi. apply lookup_snoc_Some in Hi as [[Hlt Hi]|[Hlen <-]].
      * destruct (Hsorted2 i t Hi) as (Ht & Hv & Hdeps).
        split; [done|]. split; [done|].
        intros D HD HtD. destruct (Hdeps D HD HtD) as (j & Hj & HjD).
        exists j. split; [done|]. by apply lookup_app_l_Some.
      * split; [done|]. split; [set_solver|].
        intros D HD HtD.
        assert (D ∈ result st2) as HDres.
        { apply (Hdone (FormulaTask.id D)); [done|]. by apply taskMapOf_lookup. }
        apply list_elem_of_lookup in HDres as [j Hj].
        exists j. split; [|by apply lookup_app_l_Some].
        apply lookup_lt_Some in Hj. lia.
    + exists (ext ++ [task]). split; [by rewrite Hext, <-app_assoc|].
      intros t [Ht|Ht]%elem_of_app.
      * specialize (Hnew t Ht). set_solver.
      * apply list_elem_of_singleton in Ht as ->. done.
    + set_solver.
    + apply elem_of_app. right. left.
    + intros g [Hg Hres]. cbn in Hg, Hres.
      unfold taskIds in Hres. rewrite fmap_app, elem_of_app in Hres.
      assert (g ≠ FormulaTask.id task) as Hne.
      { intros ->. apply Hres. right. cbn. left. }
      destruct (Hprog2 g) as [Hg1 Hres1]; [split; [done|]|].
      { intros Hin. apply Hres. by left. }
      cbn in Hg1, Hres1. split; [set_solver | done].
Qed.

Lemma visitAll_spec (fuel : nat) (todo : list FormulaTask.t) (st st' : SortState) :
  visitAll fuel taskMap todo st = Some st' →
  (∀ t, t ∈ todo → t ∈ tasks) →
  sortedSoFar st →
  (∀ g, ¬ inProgress st g) →
  sortedSoFar st'
  ∧ (∀ g, ¬ inProgress st' g)
  ∧ (∀ t, t ∈ result st → t ∈ result st')
  ∧ (∀ t, t ∈ todo → t ∈ result st').
Proof.
  revert st. induction todo as [|task rest IH];
    intros st Hrun Htodo Hsorted Hnone; cbn in Hrun.
  { injection Hrun as <-. split; [done|]. split; [done|]. split; [done|].
    by intros t ?%elem_of_nil. }
  destruct (visit fuel taskMap task st) as [s'|] eqn:Hv; [|done]. cbn in Hrun.
  destruct (visit_spec fuel task st s' Hv)
    as (Hsorted' & (ext & Hext & _) & Hvis' & Htask' & Hprog');
    [ apply Htodo; left | done | intros g Hg; by apply Hnone in Hg | ].
  destruct (IH s' Hrun) as (Hsorted_end & Hnone_end & Hkeep & Hall);
    [ intros t Ht; apply Htodo; by right | done
    | intros g Hg; by apply Hprog', Hnone in Hg | ].
  split; [done|]. split; [done|]. split.
  - intros t Ht. apply Hkeep. rewrite Hext. apply elem_of_app. by left.
  - intros t [->|Ht]%elem_of_cons; [by apply Hkeep | by apply Hall].
Qed.

(** The scheduler's output, for an input with distinct ids and no cycle:
    a rearrangement of the input in which the tasks a task depends on stand
    before it. *)
Lemma topologicalSort_sorted :
  topologicalSort tasks ≡ₚ tasks
  ∧ ∀ i t, topologicalSort tasks !! i = Some t →
      t ∈ tasks
      ∧ ∀ D, D ∈ tasks → listsDependency t (FormulaTask.id D) →
             ∃ j, (j < i)%nat ∧ topologicalSort tasks !! j = Some D.
Proof.
  pose proof (topologicalSort_fuel_total tasks) as Htotal.
  unfold topologicalSort_fuel in Htotal.
  destruct (visitAll (S (length tasks)) taskMap tasks
              {| visited := ∅; result := [] |}) as [st'|] eqn:Hrun; [|done].
  cbn in Htotal. injection Htotal as Hres.
  destruct (visitAll_spec _ _ _ _ Hrun) as ([Hnd Hsorted] & _ & _ & Hall);
    [ done
    | split; [apply NoDup_nil_2 | intros i t Hi; cbn in Hi; by rewrite ?lookup_nil in Hi]
    | intros g [Hg _]; cbn in Hg; set_solver
    | ].
  rewrite <-Hres. split.
  - apply NoDup_Permutation.
    + by apply (NoDup_fmap_1 FormulaTask.id).
    + by apply (NoDup_fmap_1 FormulaTask.id).
    + intros t. split; [|apply Hall].
      intros [i Hi]%list_elem_of_lookup. by destruct (Hsorted i t Hi) as (? & _).
  - intros i t Hi. destruct (Hsorted i t Hi) as (Ht & _ & Hdeps). by split.
Qed.
End visit_spec.

(** A ranking of the ids that every edge decreases rules out cycles. *)
Lemma acyclic_by_rank (tasks : list FormulaTask.t) (rank : string → nat) :
  (∀ A B, dependencyEdge tasks A B →
          (rank (FormulaTask.id B) < rank (FormulaTask.id A))%nat) →
  acyclicDependencies tasks.
Proof.
  intros Hrank A Hcycle.
  assert (∀ X Y, tc (dependencyEdge tasks) X Y →
                 (rank (FormulaTask.id Y) < rank (FormulaTask.id X))%nat) as Hlt.
  { intros X Y Hxy. induction Hxy as [X Y Hedge|X Y Z Hedge _ IH].
    - by apply Hrank.
    - specialize (Hrank X Y Hedge). lia. }
  specialize (Hlt A A Hcycle). lia.
Qed.

(** *** Dependencies on tasks outside the input *)

Section absent_dependencies.
Context (keep : list string) (taskMap : gmap string FormulaTask.t).
Hypothesis keep_dom : ∀ k, k ∈ keep ↔ is_Some (taskMap !! k).

Local Abbreviation pruned := (keepDependencies keep).

Local Abbreviation prunedState := (prunedState keep).

Lemma visitDependencies_pruned
    (visitTask visitTask' : FormulaTask.t → SortState → option SortState)
    (deps : list string) (st : SortState) :
  (∀ dep s, visitTask' (pruned dep) (prunedState s)
            = prunedState <$> visitTask dep s) →
  visitDependencies visitTask' (pruned <$> taskMap)
    (filter (λ depId, depId ∈ keep) deps) (prunedState st)
  = prunedState <$> visitDependencies visitTask taskMap deps st.
Proof.
  intros Hvisit. revert st. induction deps as [|d rest IH]; intros st; [done|].
  destruct (decide (d ∈ keep)) as [Hd|Hd].
  - rewrite filter_cons_True by done. cbn. rewrite lookup_fmap.
    apply keep_dom in Hd as [D ->]. cbn. rewrite Hvisit.
    destruct (visitTask D st) as [s'|]; cbn; [apply IH | done].
  - rewrite filter_cons_False by done. cbn.
    assert (taskMap !! d = None) as ->; [|apply IH].
    apply eq_None_not_Some. by rewrite <-keep_dom.
Qed.

Lemma visit_pruned (fuel : nat) (task : FormulaTask.t) (st : SortState) :
  visit fuel (pruned <$> taskMap) (pruned task) (prunedState st)
  = prunedState <$> visit fuel taskMap task st.
Proof.
  revert task st. induction fuel as [|fuel IH]; intros task st; [done|].
  cbn [visit]. change (FormulaTask.id (pruned task)) with (FormulaTask.id task).
  change (visited (prunedState st)) with (visited st).
  case_bool_decide; [done|].
  change (FormulaTask.dependencies (pruned task))
    with (filter (λ depId, depId ∈ keep) <$> FormulaTask.dependencies task).
  assert (default [] (filter (λ depId, depId ∈ keep)
                        <$> FormulaTask.dependencies task)
          = filter (λ depId, depId ∈ keep)
              (default [] (FormulaTask.dependencies task))) as ->
    by (by destruct (FormulaTask.dependencies task)).
  change {| visited := visited st ∪ {[FormulaTask.id task]};
            result := result (prunedState st) |}
    with (prunedState {| visited := visited st ∪ {[FormulaTask.id task]};
                         result := result st |}).
  rewrite (visitDependencies_pruned (visit fuel taskMap)) by apply IH.
  destruct (visitDependencies _ taskMap _ _) as [st2|]; [|done].
  cbn. unfold prunedState. cbn. by rewrite fmap_app.
Qed.

Lemma visitAll_pruned (fuel : nat) (todo : list FormulaTask.t) (st : SortState) :
  visitAll fuel (pruned <$> taskMap) (pruned <$> todo) (prunedState st)
  = prunedState <$> visitAll fuel taskMap todo st.
Proof.
  revert st. induction todo as [|task rest IH]; intros st; [done|].
  cbn. rewrite visit_pruned.
  destruct (visit fuel taskMap task st) as [s'|]; cbn; [apply IH | done].
Qed.
End absent_dependencies.

Lemma taskMap_foldl_fmap (f : FormulaTask.t → FormulaTask.t)
    (l : list FormulaTask.t) (m : gmap string FormulaTask.t) :
  (∀ t, FormulaTask.id (f t) = FormulaTask.id t) →
  foldl (λ m task, <[FormulaTask.id task := task]> m) (f <$> m) (f <$> l)
  = f <$> foldl (λ m task, <[FormulaTask.id task := task]> m) m l.
Proof.
  intros Hid. revert m. induction l as [|a l IH]; intros m; [done|].
  cbn. rewrite Hid, <-fmap_insert. apply IH.
Qed.

(** Removing the dependency ids that belong to no task of the input changes
    nothing but the dependency lists of the tasks in the output. *)
Lemma topologicalSort_withoutAbsentDependencies (tasks : list FormulaTask.t) :
  topologicalSort (withoutAbsentDependencies tasks)
  = keepDependencies (taskIds tasks) <$> topologicalSort tasks.
Proof.
  unfold topologicalSort, topologicalSort_fuel, withoutAbsentDependencies.
  rewrite length_fmap.
  assert (taskMapOf (keepDependencies (taskIds tasks) <$> tasks)
          = keepDependencies (taskIds tasks) <$> taskMapOf tasks) as ->.
  { unfold taskMapOf. rewrite <-(taskMap_foldl_fmap _ tasks ∅) by done.
    by rewrite fmap_empty. }
  change {| visited := ∅; result := [] |}
    with (prunedState (taskIds tasks) {| visited := ∅; result := [] |}).
  rewrite (visitAll_pruned (taskIds tasks) (taskMapOf tasks)).
  - by destruct (visitAll _ (taskMapOf tasks) tasks _).
  - intros k. by rewrite taskMapOf_is_Some.
Qed.

(** Claim C1, as stated, fails on an input in which two tasks share an id:
    [visited] and the map are keyed by id, so the second task with id "node"
    is never visited, and the task "nvm" it lists is put after the first
    one.  The dependency graph of the input has the single edge from the
    second "node" to "nvm". *)
Lemma topologicalSort_shared_id :
  acyclicDependencies SampleDuplicates.tasks
  ∧ SampleDuplicates.node' ∈ SampleDuplicates.tasks
  ∧ SampleDuplicates.nvm ∈ SampleDuplicates.tasks
  ∧ listsDependency SampleDuplicates.node' (FormulaTask.id SampleDuplicates.nvm)
  ∧ topologicalSort SampleDuplicates.tasks
    = [SampleDuplicates.node; SampleDuplicates.nvm]
  ∧ ¬ comesBefore (topologicalSort SampleDuplicates.tasks)
        SampleDuplicates.nvm SampleDuplicates.node'
  ∧ taskIds (topologicalSort SampleDuplicates.tasks) = ["node"; "nvm"].
Proof.
  split; [|split; [|split; [|split; [|split; [|split]]]]].
  - apply (acyclic_by_rank _ (λ id, if (id =? "node")%string then 1 else 0)%nat).
    intros A B (HA & HB & Hdep). unfold SampleDuplicates.tasks in HA, HB.
    repeat (apply elem_of_cons in HA as [->|HA]);
      repeat (apply elem_of_cons in HB as [->|HB]);
      try (by apply elem_of_nil in HA); try (by apply elem_of_nil in HB);
      unfold listsDependency in Hdep; cbn in Hdep;
      first [ by apply elem_of_nil in Hdep
            | by apply list_elem_of_singleton in Hdep
            | cbn; lia ].
  - unfold SampleDuplicates.tasks. set_solver.
  - unfold SampleDuplicates.tasks. set_solver.
  - unfold listsDependency. cbn. set_solver.
  - by vm_compute.
  - assert (topologicalSort SampleDuplicates.tasks
            = [SampleDuplicates.node; SampleDuplicates.nvm]) as -> by (by vm_compute).
    intros (i & j & Hij & Hi & Hj).
    destruct j as [|[|j]]; cbn in Hj; [lia | | done].
    injection Hj as Hj. discriminate Hj.
  - by vm_compute.
Qed.

(** Claim C1, amended: for every input list of tasks with pairwise distinct
    ids whose dependency graph, restricted to the ids of the input, has no
    cycle, the scheduler returns (its recursion bound is not reached) a
    rearrangement of the input in which [B] comes before [A] whenever [A]
    and [B] are tasks of the input and [A] lists the id of [B]; and the
    dependency ids that belong to no task of the input do not matter: without
    them the output is the same, up to the dependency lists themselves. *)
Theorem topologicalSort_dependencies_first (tasks : list FormulaTask.t) :
  NoDup (taskIds tasks) →
  acyclicDependencies tasks →
  topologicalSort_fuel (S (length tasks)) tasks = Some (topologicalSort tasks)
  ∧ topologicalSort tasks ≡ₚ tasks
  ∧ (∀ A B, A ∈ tasks → B ∈ tasks → listsDependency A (FormulaTask.id B) →
            comesBefore (topologicalSort tasks) B A)
  ∧ topologicalSort (withoutAbsentDependencies tasks)
    = keepDependencies (taskIds tasks) <$> topologicalSort tasks.
Proof.
  intros Hnd Hacyclic. split; [apply topologicalSort_fuel_total|].
  destruct (topologicalSort_sorted tasks Hnd Hacyclic) as [Hperm Hsorted].
  split; [done|]. split; [|apply topologicalSort_withoutAbsentDependencies].
  intros A B HA HB Hdep.
  assert (A ∈ topologicalSort tasks) as [j Hj]%list_elem_of_lookup
    by (by rewrite Hperm).
  destruct (Hsorted j A Hj) as (_ & Hdeps).
  destruct (Hdeps B HB Hdep) as (i & Hij & Hi).
  by exists i, j.
Qed.

Lemma sample_both_acyclic :
  acyclicDependencies (ResolvedFormula.tasks SampleRun.both).
Proof.
  apply (acyclic_by_rank _ (λ id, if (id =? "gh")%string then 1 else 0)%nat).
  intros A B (HA & HB & Hdep). cbn in HA, HB.
  repeat (apply elem_of_cons in HA as [->|HA]);
    repeat (apply elem_of_cons in HB as [->|HB]);
    try (by apply elem_of_nil in HA); try (by apply elem_of_nil in HB);
    unfold listsDependency in Hdep; cbn in Hdep;
    first [ by apply elem_of_nil in Hdep
          | by apply list_elem_of_singleton in Hdep
          | cbn; lia ].
Qed.

Lemma sample_both_distinct : NoDup (taskIds (ResolvedFormula.tasks SampleRun.both)).
Proof. cbn. apply NoDup_cons. split; [set_solver|]. apply NoDup_singleton. Qed.

Lemma topologicalSort_dependencies_first_witness :
  topologicalSort [SampleRun.gh; SampleRun.git] = [SampleRun.git; SampleRun.gh]
  ∧ comesBefore (topologicalSort [SampleRun.gh; SampleRun.git])
      SampleRun.git SampleRun.gh.
Proof.
  split; [by vm_compute|].
  destruct (topologicalSort_dependencies_first [SampleRun.gh; SampleRun.git]
              sample_both_distinct sample_both_acyclic) as (_ & _ & Hbefore & _).
  apply Hbefore.
  - set_solver.
  - set_solver.
  - unfold listsDependency. cbn. set_solver.
Defined.

(** ** Re-runs *)

Lemma checkTaskVersion_satisfied (M : Machine) (task : FormulaTask.t)
    (v c : string) (tr : Trace) :
  reportsVersion M task v → v ≠ EmptyString →
  FormulaTask.version task = Some c → c ≠ EmptyString →
  satisfiesVersion v c = true →
  ∃ r cmd, checkTaskVersion M task tr = (Returns r, tr ++ [EvExecSync cmd])
           ∧ installed r = true ∧ needsUpdate r = false.
Proof.
  intros (taskInstance & cmd & Hreg & Hcmd & Hne & Hrun) Hv Hversion Hc Hsat.
  destruct (Hrun tr) as (stdout & Hexec & Hparse).
  rewrite (checkTaskVersion_registry M task tr taskInstance Hreg).
  rewrite Hversion. cbn [truthyString default from_option id].
  destruct (String.eqb_spec c EmptyString) as [|_]; [done|]. cbn [negb].
  unfold checkVersion. rewrite Hcmd. cbn [truthyString default from_option id].
  destruct (String.eqb_spec cmd EmptyString) as [|_]; [done|]. cbn [negb].
  rewrite Hexec, Hparse. cbn [truthyString default from_option id].
  destruct (String.eqb_spec v EmptyString) as [|_]; [done|]. cbn [negb].
  rewrite Hsat. cbn. eauto.
Qed.

Lemma executeTask_satisfied (M : Machine) (task : FormulaTask.t)
    (options : ExecutorOptions.t) (v c : string) (st : ExecState) :
  versionGateOn options →
  missingDeps (installedTasks st) task = [] →
  reportsVersion M task v → v ≠ EmptyString →
  FormulaTask.version task = Some c → c ≠ EmptyString →
  satisfiesVersion v c = true →
  ∃ r cmd, executeTask M task options st
           = (Returns r, withTrace st (trace st ++ [EvExecSync cmd]))
           ∧ alreadySatisfied r.
Proof.
  intros (Hforce & Hskip & Hdry) Hdeps Hreports Hv Hversion Hc Hsat.
  destruct (checkTaskVersion_satisfied M task v c (trace st))
    as (r & cmd & Hcheck & Hinst & Hupd); try done.
  unfold executeTask. rewrite Hdeps, Hforce, Hskip, Hdry, Hcheck, Hinst, Hupd.
  cbn. eexists _, cmd. split; [done|]. done.
Qed.

(** The run loop over tasks that are all satisfied, each listing only
    dependencies that are installed or stand before it. *)
Lemma taskLoop_satisfied (M : Machine) (options : ExecutorOptions.t)
    (v c : string) (sortedTasks : list FormulaTask.t)
    (taskResults : list TaskResult.t) (st : ExecState) :
  versionGateOn options → v ≠ EmptyString → c ≠ EmptyString →
  satisfiesVersion v c = true →
  (∀ i t, sortedTasks !! i = Some t →
     FormulaTask.version t = Some c ∧ reportsVersion M t v
     ∧ ∀ d, listsDependency t d →
            d ∈ installedTasks st
            ∨ ∃ j D, (j < i)%nat ∧ sortedTasks !! j = Some D ∧ FormulaTask.id D = d) →
  ∃ new events,
    (taskLoop M options sortedTasks taskResults st).1 = Returns (taskResults ++ new)
    ∧ Forall alreadySatisfied new
    ∧ length new = length sortedTasks
    ∧ trace (taskLoop M options sortedTasks taskResults st).2 = trace st ++ events
    ∧ Forall (λ e, isSpawn e = false) events.
Proof.
  intros Hgate Hv Hc Hsat. revert taskResults st.
  induction sortedTasks as [|task rest IH]; intros taskResults st Htasks.
  { exists [], []. cbn. by rewrite !app_nil_r. }
  destruct (Htasks 0%nat task eq_refl) as (Hversion & Hreports & Hdeps).
  assert (missingDeps (installedTasks st) task = []) as Hmissing.
  { destruct (missingDeps (installedTasks st) task) as [|d ds] eqn:E; [done|].
    assert (d ∈ missingDeps (installedTasks st) task) as Hd by (rewrite E; left).
    apply missingDeps_spec in Hd as [Hlists Hnot].
    destruct (Hdeps d Hlists) as [?|(j & ? & ? & _)]; [done | lia]. }
  destruct (executeTask_satisfied M task options v c st)
    as (r & cmd & Hexec & Hr); try done.
  cbn [taskLoop]. rewrite Hexec.
  assert (successOrSkipped r = true) as ->.
  { destruct Hr as (Hs & _). unfold successOrSkipped. by rewrite Hs. }
  destruct (IH (taskResults ++ [r])
              (addInstalled (FormulaTask.id task)
                 (withTrace st (trace st ++ [EvExecSync cmd]))))
    as (new & events & -> & Hnew & Hlen & -> & Hevents).
  { intros i t Hi. destruct (Htasks (S i) t Hi) as (Hvt & Hrt & Hdt).
    split; [done|]. split; [done|].
    intros d Hd. destruct (Hdt d Hd) as [Hin|(j & D & Hj & HD & Hid)].
    - left. cbn. set_solver.
    - destruct j as [|j].
      + left. cbn in HD. injection HD as <-. cbn. set_solver.
      + right. exists j, D. split; [lia|]. done. }
  exists (r :: new), (EvExecSync cmd :: events). cbn.
  split; [by rewrite <-app_assoc|]. split; [by constructor|].
  split; [by rewrite Hlen|]. split; [by rewrite <-app_assoc|]. by constructor.
Qed.

(** One run in which every selected task is satisfied. *)
Lemma execute_satisfied (M : Machine) (formula : ResolvedFormula.t)
    (options : ExecutorOptions.t) (v c : string) (st : ExecState) :
  versionGateOn options → v ≠ EmptyString → c ≠ EmptyString →
  satisfiesVersion v c = true →
  NoDup (taskIds (filterTasks formula options)) →
  acyclicDependencies (filterTasks formula options) →
  (∀ t d, t ∈ filterTasks formula options → listsDependency t d →
          d ∈ taskIds (filterTasks formula options)) →
  (∀ t, t ∈ filterTasks formula options →
        FormulaTask.version t = Some c ∧ reportsVersion M t v) →
  ∃ r events,
    (execute M formula options st).1 = Returns r
    ∧ Forall alreadySatisfied (InstallResult.tasks r)
    ∧ length (InstallResult.tasks r) = length (filterTasks formula options)
    ∧ InstallResult.success r = true
    ∧ installedTasks st ⊆ installedTasks (execute M formula options st).2
    ∧ trace (execute M formula options st).2 = trace st ++ events
    ∧ Forall (λ e, isSpawn e = false) events.
Proof.
  intros Hgate Hv Hc Hsat Hnd Hacyclic Hclosed Hall.
  destruct (execute_installed M formula options st) as (finished & Hinst & _).
  revert Hinst. unfold execute. case_bool_decide as Hempty.
  { intros _. eexists _, []. cbn. rewrite Hempty, app_nil_r. repeat split; done. }
  destruct (topologicalSort_sorted _ Hnd Hacyclic) as [Hperm Hsorted].
  destruct (taskLoop_satisfied M options v c
              (topologicalSort (filterTasks formula options)) [] st)
    as (new & events & Hres & Hnew & Hlen & Htrace & Hevents); try done.
  { intros i t Hi. destruct (Hsorted i t Hi) as (Ht & Hdeps).
    destruct (Hall t Ht) as [Hvt Hrt]. split; [done|]. split; [done|].
    intros d Hd. right.
    destruct (list_elem_of_fmap_1 _ _ _ (Hclosed t d Ht Hd)) as (D & -> & HD).
    destruct (Hdeps D HD Hd) as (j & Hj & HjD). by exists j, D. }
  destruct (taskLoop M options _ [] st) as [taskResults st1].
  cbn in Hres, Htrace. subst taskResults. cbn. intros Hinst.
  eexists _, events. split; [done|]. cbn.
  split; [done|]. split; [by rewrite Hlen, Hperm|]. split.
  - apply forallb_forall. intros r Hr%list_elem_of_In.
    rewrite Forall_forall in Hnew. destruct (Hnew r Hr) as (Hs & _).
    unfold successOrSkipped. by rewrite Hs.
  - split; [rewrite Hinst; set_solver|]. done.
Qed.

(** The run loop over tasks whose version check is satisfied: every task is
    skipped by one of the two gates and the loop runs to its end. *)
Lemma taskLoop_gated (M : Machine) (options : ExecutorOptions.t)
    (v c : string) (sortedTasks : list FormulaTask.t)
    (taskResults : list TaskResult.t) (st : ExecState) :
  versionGateOn options → v ≠ EmptyString → c ≠ EmptyString →
  satisfiesVersion v c = true →
  (∀ t, t ∈ sortedTasks → FormulaTask.version t = Some c ∧ reportsVersion M t v) →
  ∃ new events,
    (taskLoop M options sortedTasks taskResults st).1 = Returns (taskResults ++ new)
    ∧ Forall skippedByGate new
    ∧ TaskResult.task <$> new = sortedTasks
    ∧ trace (taskLoop M options sortedTasks taskResults st).2 = trace st ++ events
    ∧ Forall (λ e, isSpawn e = false) events.
Proof.
  intros Hgate Hv Hc Hsat. revert taskResults st.
  induction sortedTasks as [|task rest IH]; intros taskResults st Htasks.
  { exists [], []. cbn. by rewrite !app_nil_r. }
  destruct (Htasks task) as (Hversion & Hreports); [left|].
  assert (∀ t, t ∈ rest → FormulaTask.version t = Some c ∧ reportsVersion M t v)
    as Hrest by (intros t Ht; apply Htasks; by right).
  cbn [taskLoop].
  destruct (decide (missingDeps (installedTasks st) task = [])) as [Hnone|Hmissing].
  - destruct (executeTask_satisfied M task options v c st)
      as (r & cmd & Hexec & Hr); try done.
    pose proof (executeTask_task M task options st) as Htask.
    rewrite Hexec in Htask |- *. cbn in Htask.
    assert (successOrSkipped r = true) as ->.
    { destruct Hr as (Hs & _). unfold successOrSkipped. by rewrite Hs. }
    destruct (IH (taskResults ++ [r])
                (addInstalled (FormulaTask.id task)
                   (withTrace st (trace st ++ [EvExecSync cmd]))) Hrest)
      as (new & events & -> & Hnew & Htasks' & -> & Hevents).
    exists (r :: new), (EvExecSync cmd :: events). cbn.
    split; [by rewrite <-app_assoc|]. split.
    { constructor; [|done]. destruct Hr as (Hs & Hsk & Hst). by repeat split; [..|left]. }
    split; [by rewrite Htask, Htasks'|]. split; [by rewrite <-app_assoc|].
    by constructor.
  - rewrite (executeTask_missing M task options st Hmissing).
    change (successOrSkipped (missingDepsResult task
              (missingDeps (installedTasks st) task))) with true. cbn iota.
    destruct (IH (taskResults ++ [missingDepsResult task
                                    (missingDeps (installedTasks st) task)])
                (addInstalled (FormulaTask.id task) st) Hrest)
      as (new & events & -> & Hnew & Htasks' & -> & Hevents).
    exists (missingDepsResult task (missingDeps (installedTasks st) task) :: new), events.
    cbn. split; [by rewrite <-app_assoc|]. split.
    { constructor; [|done]. split; [done|]. split; [done|]. right. eauto. }
    split; [by rewrite Htasks'|]. done.
Qed.

(** One run in which the version check of every selected task is satisfied. *)
Lemma execute_gated (M : Machine) (formula : ResolvedFormula.t)
    (options : ExecutorOptions.t) (v c : string) (st : ExecState) :
  versionGateOn options → v ≠ EmptyString → c ≠ EmptyString →
  satisfiesVersion v c = true →
  (∀ t, t ∈ filterTasks formula options →
        FormulaTask.version t = Some c ∧ reportsVersion M t v) →
  ∃ r events,
    (execute M formula options st).1 = Returns r
    ∧ Forall skippedByGate (InstallResult.tasks r)
    ∧ TaskResult.task <$> InstallResult.tasks r
      = topologicalSort (filterTasks formula options)
    ∧ InstallResult.success r = true
    ∧ trace (execute M formula options st).2 = trace st ++ events
    ∧ Forall (λ e, isSpawn e = false) events.
Proof.
  intros Hgate Hv Hc Hsat Hall.
  unfold execute. case_bool_decide as Hempty.
  { eexists _, []. cbn. rewrite app_nil_r. repeat split; try done.
    by destruct (filterTasks formula options). }
  destruct (taskLoop_gated M options v c
              (topologicalSort (filterTasks formula options)) [] st)
    as (new & events & Hres & Hnew & Htasks & Htrace & Hevents); try done.
  { intros t Ht. by apply Hall, topologicalSort_elem. }
  destruct (taskLoop M options _ [] st) as [taskResults st1].
  cbn in Hres, Htrace. subst taskResults. cbn.
  eexists _, events. split; [done|]. cbn.
  split; [done|]. split; [done|]. split; [|done].
  apply forallb_forall. intros r Hr%list_elem_of_In.
  rewrite Forall_forall in Hnew. destruct (Hnew r Hr) as (Hsk & _).
  unfold successOrSkipped. rewrite Hsk. apply orb_true_r.
Qed.

(** Claim C2, as stated, fails: the dependency gate comes before the version
    gate.  The formula holds the single task "gh" with constraint ^2.0.0,
    whose version check reports 2.0.0 and which lists "git"; in both of two
    successive runs its result is skipped with [success = false]. *)
Lemma rerun_missing_dependency :
  let options := Sample.options None in
  let first := execute Sample.machine SampleRun.onlyGh options (newFormulaExecutor []) in
  let second := execute Sample.machine SampleRun.onlyGh options first.2 in
  FormulaTask.version SampleRun.gh = Some "^2.0.0"
  ∧ currentVersion <$> returned (checkTaskVersion Sample.machine SampleRun.gh []).1
    = Some (Some "2.0.0")
  ∧ InstallResult.tasks <$> returned first.1 = Some [missingDepsResult SampleRun.gh ["git"]]
  ∧ InstallResult.tasks <$> returned second.1 = Some [missingDepsResult SampleRun.gh ["git"]]
  ∧ TaskResult.success (missingDepsResult SampleRun.gh ["git"]) = false.
Proof. cbv zeta. repeat split; by vm_compute. Qed.

(** Claim C2, amended: take a machine on which the version check of every
    selected task reports 2.0.0, and a formula whose selected tasks carry the
    constraint ^2.0.0.  Executing it twice in succession on the same
    executor, without [forceInstall], [skipVersionCheck] or [dryRun], both
    runs return, and give one result per scheduled task, each with
    [skipped = true] and no step, and no command of an install step is
    spawned in either run.  Each result has [success = true] unless it is the
    result of the dependency gate; and all of them have when the selected
    tasks have pairwise distinct ids and list as dependencies only ids of
    selected tasks, without a cycle. *)
Theorem rerun_already_satisfied (M : Machine) (formula : ResolvedFormula.t)
    (options : ExecutorOptions.t) (st : ExecState) :
  versionGateOn options →
  (∀ t, t ∈ filterTasks formula options →
        FormulaTask.version t = Some "^2.0.0" ∧ reportsVersion M t "2.0.0") →
  let selected := filterTasks formula options in
  let first := execute M formula options st in
  let second := execute M formula options first.2 in
  ∃ r1 r2,
    first.1 = Returns r1 ∧ second.1 = Returns r2
    ∧ (Forall skippedByGate (InstallResult.tasks r1)
       ∧ TaskResult.task <$> InstallResult.tasks r1 = topologicalSort selected)
    ∧ (Forall skippedByGate (InstallResult.tasks r2)
       ∧ TaskResult.task <$> InstallResult.tasks r2 = topologicalSort selected)
    ∧ (∃ events, trace second.2 = trace st ++ events
                 ∧ Forall (λ e, isSpawn e = false) events)
    ∧ (NoDup (taskIds selected) →
       acyclicDependencies selected →
       (∀ t d, t ∈ selected → listsDependency t d → d ∈ taskIds selected) →
       Forall alreadySatisfied (InstallResult.tasks r1)
       ∧ Forall alreadySatisfied (InstallResult.tasks r2)
       ∧ length (InstallResult.tasks r1) = length selected
       ∧ length (InstallResult.tasks r2) = length selected).
Proof.
  intros Hgate Hall selected first second.
  assert (satisfiesVersion "2.0.0" "^2.0.0" = true) as Hsat by reflexivity.
  destruct (execute_gated M formula options "2.0.0" "^2.0.0" st)
    as (r1 & events1 & Hret1 & Hres1 & Htasks1 & _ & Htrace1 & Hevents1); try done.
  destruct (execute_gated M formula options "2.0.0" "^2.0.0" first.2)
    as (r2 & events2 & Hret2 & Hres2 & Htasks2 & _ & Htrace2 & Hevents2); try done.
  exists r1, r2. split; [done|]. split; [done|].
  split; [done|]. split; [done|]. split.
  - exists (events1 ++ events2). split.
    + subst first second. by rewrite Htrace2, Htrace1, <-app_assoc.
    + by apply Forall_app.
  - intros Hnd Hacyclic Hclosed.
    destruct (execute_satisfied M formula options "2.0.0" "^2.0.0" st)
      as (r1' & ? & Hret1' & Hs1 & Hlen1 & _); try done.
    destruct (execute_satisfied M formula options "2.0.0" "^2.0.0" first.2)
      as (r2' & ? & Hret2' & Hs2 & Hlen2 & _); try done.
    assert (r1' = r1) as -> by congruence.
    assert (r2' = r2) as -> by congruence.
    done.
Qed.

Lemma sample_reportsVersion (t : FormulaTask.t) :
  t ∈ ResolvedFormula.tasks SampleRun.both →
  FormulaTask.version t = Some "^2.0.0" ∧ reportsVersion Sample.machine t "2.0.0".
Proof.
  cbn. intros Ht.
  repeat (apply elem_of_cons in Ht as [->|Ht]); [| |by apply elem_of_nil in Ht].
  - split; [done|]. exists (Sample.bundled "gh" (Some "gh --version")), "gh --version".
    split; [by vm_compute|]. split; [done|]. split; [done|].
    intros tr. exists "tool version 2.0.0". split; by vm_compute.
  - split; [done|]. exists (Sample.bundled "git" (Some "git --version")), "git --version".
    split; [by vm_compute|]. split; [done|]. split; [done|].
    intros tr. exists "tool version 2.0.0". split; by vm_compute.
Qed.

Lemma rerun_already_satisfied_witness :
  let options := Sample.options None in
  let first := execute Sample.machine SampleRun.both options (newFormulaExecutor []) in
  let second := execute Sample.machine SampleRun.both options first.2 in
  ∃ r1 r2,
    first.1 = Returns r1 ∧ second.1 = Returns r2
    ∧ Forall alreadySatisfied (InstallResult.tasks r1)
    ∧ Forall alreadySatisfied (InstallResult.tasks r2)
    ∧ length (InstallResult.tasks r2) = 2%nat.
Proof.
  cbv zeta.
  destruct (rerun_already_satisfied Sample.machine SampleRun.both
              (Sample.options None) (newFormulaExecutor []))
    as (r1 & r2 & Hret1 & Hret2 & _ & _ & _ & Hclosed).
  - by repeat split.
  - apply sample_reportsVersion.
  - exists r1, r2. split; [exact Hret1|]. split; [exact Hret2|].
    destruct Hclosed as (H1 & H2 & _ & Hlen).
    + apply sample_both_distinct.
    + apply sample_both_acyclic.
    + intros t d Ht Hd. cbn in Ht |- *.
      repeat (apply elem_of_cons in Ht as [->|Ht]); [| |by apply elem_of_nil in Ht];
        unfold listsDependency in Hd; cbn in Hd; set_solver.
    + split; [exact H1|]. split; [exact H2 | exact Hlen].
Defined.

(** * Further properties of the code *)

(** ** [compareVersions] *)

Lemma compareFrom_range (partsA partsB : list Z) (i n : nat) :
  compareFrom partsA partsB i n = -1
  ∨ compareFrom partsA partsB i n = 0
  ∨ compareFrom partsA partsB i n = 1.
Proof.
  revert i. induction n as [|n IH]; intros i; cbn; [by right; left|].
  destruct (_ <? _); [by left|]. destruct (_ >? _); [by right; right|]. apply IH.
Qed.

Lemma compareFrom_opp (partsA partsB : list Z) (i n : nat) :
  compareFrom partsB partsA i n = - compareFrom partsA partsB i n.
Proof.
  revert i. induction n as [|n IH]; intros i; cbn; [done|].
  destruct (Z.ltb_spec (nth i partsA 0) (nth i partsB 0)),
           (Z.ltb_spec (nth i partsB 0) (nth i partsA 0)); try lia.
  - destruct (Z.gtb_spec (nth i partsB 0) (nth i partsA 0)); [done | lia].
  - destruct (Z.gtb_spec (nth i partsA 0) (nth i partsB 0)); [done | lia].
  - destruct (Z.gtb_spec (nth i partsA 0) (nth i partsB 0)); [lia|].
    destruct (Z.gtb_spec (nth i partsB 0) (nth i partsA 0)); [lia|]. apply IH.
Qed.

(** Only the numbers read at each index matter. *)
Lemma compareFrom_ext (partsA partsA' partsB partsB' : list Z) (i n : nat) :
  (∀ k, nth k partsA 0 = nth k partsA' 0) →
  (∀ k, nth k partsB 0 = nth k partsB' 0) →
  compareFrom partsA partsB i n = compareFrom partsA' partsB' i n.
Proof.
  intros HA HB. revert i. induction n as [|n IH]; intros i; cbn; [done|].
  by rewrite HA, HB, IH.
Qed.

(** Iterations past the end of both lists find no difference. *)
Lemma compareFrom_more (partsA partsB : list Z) (i n extra : nat) :
  (length partsA ≤ i + n)%nat → (length partsB ≤ i + n)%nat →
  compareFrom partsA partsB i (n + extra) = compareFrom partsA partsB i n.
Proof.
  revert i. induction n as [|n IH]; intros i HA HB.
  - cbn [Nat.add compareFrom]. revert i HA HB.
    induction extra as [|extra IHe]; intros i HA HB; cbn; [done|].
    rewrite !nth_overflow by lia. cbn. apply IHe; lia.
  - cbn. destruct (_ <? _); [done|]. destruct (_ >? _); [done|]. apply IH; lia.
Qed.

Lemma compareVersions_upto (a b : string) (n : nat) :
  (length (versionNumbers a) ≤ n)%nat → (length (versionNumbers b) ≤ n)%nat →
  compareVersions a b = compareFrom (versionNumbers a) (versionNumbers b) 0 n.
Proof.
  intros HA HB. unfold compareVersions.
  set (m := Nat.max _ _).
  replace n with (m + (n - m))%nat by lia.
  symmetry. apply compareFrom_more; lia.
Qed.

Lemma compareFrom_trans (partsA partsB partsC : list Z) (i n : nat) :
  compareFrom partsA partsB i n <= 0 →
  compareFrom partsB partsC i n <= 0 →
  compareFrom partsA partsC i n <= 0.
Proof.
  revert i. induction n as [|n IH]; intros i; cbn; [done|].
  destruct (Z.ltb_spec (nth i partsA 0) (nth i partsB 0)),
           (Z.ltb_spec (nth i partsB 0) (nth i partsC 0)),
           (Z.ltb_spec (nth i partsA 0) (nth i partsC 0));
    try lia;
    repeat (match goal with
            | |- context [(?x >? ?y)] => destruct (Z.gtb_spec x y)
            end); try lia.
  apply IH.
Qed.

(** X1: swapping the arguments of [compareVersions] negates the result,
    which is always -1, 0 or 1; a version compares equal to itself. *)
Theorem compareVersions_antisymmetric (a b : string) :
  compareVersions b a = - compareVersions a b
  ∧ (compareVersions a b = -1 ∨ compareVersions a b = 0 ∨ compareVersions a b = 1)
  ∧ compareVersions a a = 0.
Proof.
  unfold compareVersions. split; [|split].
  - rewrite Nat.max_comm. apply compareFrom_opp.
  - apply compareFrom_range.
  - pose proof (compareFrom_opp (versionNumbers a) (versionNumbers a) 0
                  (Nat.max (length (versionNumbers a)) (length (versionNumbers a)))).
    lia.
Qed.

(** X2: "at most" on versions is transitive. *)
Theorem compareVersions_transitive (a b c : string) :
  compareVersions a b <= 0 → compareVersions b c <= 0 → compareVersions a c <= 0.
Proof.
  set (n := Nat.max (length (versionNumbers a))
              (Nat.max (length (versionNumbers b)) (length (versionNumbers c)))).
  rewrite (compareVersions_upto a b n), (compareVersions_upto b c n),
    (compareVersions_upto a c n) by lia.
  apply compareFrom_trans.
Qed.

Lemma compareVersions_transitive_witness :
  compareVersions "1.2" "1.10.0" <= 0
  ∧ compareVersions "1.10.0" "v2" <= 0
  ∧ compareVersions "1.2" "v2" <= 0.
Proof.
  assert (compareVersions "1.2" "1.10.0" <= 0) as H1 by (by vm_compute).
  assert (compareVersions "1.10.0" "v2" <= 0) as H2 by (by vm_compute).
  split; [exact H1|]. split; [exact H2|].
  exact (compareVersions_transitive "1.2" "1.10.0" "v2" H1 H2).
Defined.

(** *** Trailing zero groups *)

Lemma split_dot_app_zero (cur s : string) :
  Js.split_aux "." 0 cur (s +:+ ".0") = Js.split_aux "." 0 cur s ++ ["0"].
Proof.
  revert cur. induction s as [|ch s IH]; intros cur.
  - reflexivity.
  - change (String ch s +:+ ".0") with (String ch (s +:+ ".0")).
    cbn [Js.split_aux Js.startsWith String.length Nat.sub andb].
    destruct (Ascii.eqb "." ch); cbn [andb]; by rewrite IH.
Qed.

Lemma versionNumbers_app_zero (a : string) :
  versionNumbers (a +:+ ".0") = versionNumbers a ++ [0].
Proof.
  unfold versionNumbers.
  assert (Js.stripV (a +:+ ".0") = Js.stripV a +:+ ".0") as ->.
  { destruct a as [|c a]; [done|].
    change (String c a +:+ ".0") with (String c (a +:+ ".0")).
    unfold Js.stripV. by destruct (Ascii.eqb_spec c "v") as [->|?];
      [|destruct c as [[][][][][][][][]]]. }
  unfold Js.split. by rewrite split_dot_app_zero, fmap_app.
Qed.

Lemma nth_app_zero (parts : list Z) (k : nat) :
  nth k (parts ++ [0]) 0 = nth k parts 0.
Proof.
  destruct (decide (k < length parts)%nat).
  - by rewrite app_nth1.
  - rewrite app_nth2, (nth_overflow parts) by lia.
    by destruct (k - length parts)%nat as [|[|?]].
Qed.

(** X3: a missing trailing group counts as 0: appending ".0" to a version
    changes none of its comparisons, and the longer version compares equal to
    the shorter one. *)
Theorem compareVersions_trailing_zero (a b : string) :
  compareVersions (a +:+ ".0") b = compareVersions a b
  ∧ compareVersions b (a +:+ ".0") = compareVersions b a
  ∧ compareVersions a (a +:+ ".0") = 0.
Proof.
  assert (∀ x y, compareVersions (x +:+ ".0") y = compareVersions x y) as Hleft.
  { intros x y.
    set (n := Nat.max (S (length (versionNumbers x))) (length (versionNumbers y))).
    rewrite (compareVersions_upto (x +:+ ".0") y n), (compareVersions_upto x y n).
    - rewrite versionNumbers_app_zero. apply compareFrom_ext; [|done].
      apply nth_app_zero.
    - lia.
    - lia.
    - rewrite versionNumbers_app_zero, length_app. cbn. lia.
    - lia. }
  assert (∀ x y, compareVersions y (x +:+ ".0") = compareVersions y x) as Hright.
  { intros x y. unfold compareVersions at 1 2.
    rewrite (Nat.max_comm (length (versionNumbers y))), compareFrom_opp.
    rewrite (Nat.max_comm (length (versionNumbers y))), (compareFrom_opp _ (versionNumbers y)).
    f_equal. apply Hleft. }
  split; [apply Hleft|]. split; [apply Hright|].
  rewrite Hright. unfold compareVersions.
  pose proof (compareFrom_opp (versionNumbers a) (versionNumbers a) 0
                (Nat.max (length (versionNumbers a)) (length (versionNumbers a)))).
  lia.
Qed.

(** ** [parseVersionParts] and [satisfiesVersion] *)

Lemma spanDigits_empty (s : string) :
  (Js.spanDigits s).1 = EmptyString ↔ Js.startsWithDigit s = false.
Proof.
  destruct s as [|c s]; cbn; [done|].
  destruct (Js.isDigit c); [|done].
  destruct (Js.spanDigits s). cbn. split; done.
Qed.

Lemma parseVersionParts_is_Some (version : string) :
  is_Some (parseVersionParts version)
  ↔ Js.startsWithDigit (Js.stripV version) = true.
Proof.
  unfold parseVersionParts.
  pose proof (spanDigits_empty (Js.stripV version)) as Hspan.
  destruct (Js.spanDigits (Js.stripV version)) as [g1 r1]. cbn in Hspan.
  destruct g1 as [|c g1].
  - destruct Hspan as [Hspan _]. rewrite Hspan by done. split; [by intros [? ?] | done].
  - destruct (Js.dotGroup r1) as [g2 r2], (Js.dotGroup r2) as [g3 r3].
    split; [|eauto]. intros _.
    destruct (Js.startsWithDigit (Js.stripV version)); [done|].
    by destruct Hspan as [_ Hspan]; discriminate Hspan.
Qed.

(** X4: whatever the constraint, a version string satisfies it only if it
    begins, after an optional "v", with a digit; those are exactly the
    version strings [parseVersionParts] reads. *)
Theorem satisfiesVersion_needs_digit (version constraint : string) :
  (is_Some (parseVersionParts version)
   ↔ Js.startsWithDigit (Js.stripV version) = true)
  ∧ (satisfiesVersion version constraint = true →
     Js.startsWithDigit (Js.stripV version) = true).
Proof.
  split; [apply parseVersionParts_is_Some|].
  intros Hsat. apply parseVersionParts_is_Some.
  pose proof (satisfiesVersion_unfold version constraint) as Hunfold.
  unfold satisfiesVersion_body in Hunfold.
  destruct (parseVersionParts version); [eauto|].
  injection Hunfold as Hunfold. congruence.
Qed.

Lemma satisfiesVersion_needs_digit_witness :
  Js.startsWithDigit (Js.stripV "v1.4.2") = true.
Proof.
  apply (satisfiesVersion_needs_digit "v1.4.2" ">=1.0.0"). reflexivity.
Defined.

(** X5: the comparison operators.  A constraint whose trimmed text is an
    operator followed by [X] is decided by comparing the version with the
    trimmed [X], whatever else [X] holds; ">=" and "<=" are recognised before
    ">" and "<". *)
Theorem satisfiesVersion_comparison (version constraint X : string) :
  (Js.trim constraint = ">=" +:+ X →
   satisfiesVersion version constraint = true
   ↔ is_Some (parseVersionParts version)
     ∧ compareVersions version (Js.trim X) >= 0)
  ∧ (Js.trim constraint = ">" +:+ X → Js.startsWith "=" X = false →
     satisfiesVersion version constraint = true
     ↔ is_Some (parseVersionParts version)
       ∧ compareVersions version (Js.trim X) > 0)
  ∧ (Js.trim constraint = "<=" +:+ X →
     satisfiesVersion version constraint = true
     ↔ is_Some (parseVersionParts version)
       ∧ compareVersions version (Js.trim X) <= 0)
  ∧ (Js.trim constraint = "<" +:+ X → Js.startsWith "=" X = false →
     satisfiesVersion version constraint = true
     ↔ is_Some (parseVersionParts version)
       ∧ compareVersions version (Js.trim X) < 0)
  ∧ (Js.trim constraint = "=" +:+ X →
     satisfiesVersion version constraint = true
     ↔ is_Some (parseVersionParts version)
       ∧ compareVersions version (Js.trim X) = 0).
Proof.
  assert (∀ (b : bool) (P : Prop), (b = true ↔ P) →
            ∀ o : option VersionParts,
              default false (match o with Some _ => Some b | None => Some false end)
              = true ↔ is_Some o ∧ P) as Hshape.
  { intros b P HbP [v|]; cbn.
    - rewrite HbP. split; [eauto | by intros [_ ?]].
    - split; [done | by intros [[? ?] _]]. }
  split; [|split; [|split; [|split]]].
  - intros Hc. change (">=" +:+ X) with (String ">" (String "=" X)) in Hc.
    unfold satisfiesVersion. cbn [satisfiesVersion_fuel].
    unfold satisfiesVersion_body. rewrite Hc.
    rewrite <-(Hshape _ _ (Z.geb_ge _ _)).
    by destruct (parseVersionParts version).
  - intros Hc HX. change (">" +:+ X) with (String ">" X) in Hc.
    unfold satisfiesVersion. cbn [satisfiesVersion_fuel].
    unfold satisfiesVersion_body. rewrite Hc.
    rewrite <-(Hshape _ _ (Z.gtb_gt _ _)).
    destruct (parseVersionParts version); [|done].
    change (Js.startsWith ">=" (String ">" X)) with (Js.startsWith "=" X).
    by rewrite HX.
  - intros Hc. change ("<=" +:+ X) with (String "<" (String "=" X)) in Hc.
    unfold satisfiesVersion. cbn [satisfiesVersion_fuel].
    unfold satisfiesVersion_body. rewrite Hc.
    rewrite <-(Hshape _ _ (Z.leb_le _ _)).
    by destruct (parseVersionParts version).
  - intros Hc HX. change ("<" +:+ X) with (String "<" X) in Hc.
    unfold satisfiesVersion. cbn [satisfiesVersion_fuel].
    unfold satisfiesVersion_body. rewrite Hc.
    rewrite <-(Hshape _ _ (Z.ltb_lt _ _)).
    destruct (parseVersionParts version); [|done].
    change (Js.startsWith "<=" (String "<" X)) with (Js.startsWith "=" X).
    by rewrite HX.
  - intros Hc. change ("=" +:+ X) with (String "=" X) in Hc.
    unfold satisfiesVersion. cbn [satisfiesVersion_fuel].
    unfold satisfiesVersion_body. rewrite Hc.
    rewrite <-(Hshape _ _ (Z.eqb_eq _ _)).
    by destruct (parseVersionParts version).
Qed.

Lemma satisfiesVersion_comparison_witness :
  satisfiesVersion "2.5.0" " >=1.0.0 <2.0.0" = true
  ∧ satisfiesVersion "1.9.0" "<2" = true.
Proof.
  split.
  - destruct (satisfiesVersion_comparison "2.5.0" " >=1.0.0 <2.0.0" "1.0.0 <2.0.0")
      as (Hge & _).
    apply Hge; [reflexivity|]. split; [by vm_compute; eauto | by vm_compute].
  - destruct (satisfiesVersion_comparison "1.9.0" "<2" "2")
      as (_ & _ & _ & Hlt & _).
    apply Hlt; [reflexivity | reflexivity |].
    split; [by vm_compute; eauto | by vm_compute].
Defined.

(** *** Plain version constraints *)

Lemma allChars_startsWith (f : ascii → bool) (p0 : ascii) (p s : string) :
  allChars f s = true → f p0 = false → Js.startsWith (String p0 p) s = false.
Proof.
  destruct s as [|c s]; [done|]. cbn. intros [Hc _]%andb_true_iff Hp.
  destruct (Ascii.eqb_spec p0 c) as [->|_]; [congruence | done].
Qed.

Lemma allChars_includes (f : ascii → bool) (p0 : ascii) (p s : string) :
  allChars f s = true → f p0 = false → Js.includes (String p0 p) s = false.
Proof.
  intros Hs Hp. induction s as [|c s IH]; [done|].
  cbn [Js.includes]. rewrite (allChars_startsWith f p0 p (String c s) Hs Hp).
  cbn in Hs. apply andb_true_iff in Hs as [_ Hs]. by rewrite IH.
Qed.

(** X6: a constraint made only of digits and dots is an exact match: it is
    satisfied by the versions that compare equal to it, groups missing at
    the end counting as 0. *)
Theorem satisfiesVersion_exact (version constraint : string) :
  constraint ≠ EmptyString →
  allChars isDigitOrDot constraint = true →
  satisfiesVersion version constraint = true
  ↔ is_Some (parseVersionParts version) ∧ compareVersions version constraint = 0.
Proof.
  intros Hne Hall. unfold satisfiesVersion. cbn [satisfiesVersion_fuel].
  unfold satisfiesVersion_body, Js.trim.
  rewrite (allChars_trimEnd _ Hall), (allChars_trimStart _ Hall).
  destruct (parseVersionParts version) as [v|]; cbn zeta.
  2:{ split; [done | by intros [[? ?] _]]. }
  assert (∀ (c : ascii) (rest : string),
            isDigitOrDot c = false → (constraint =? String c rest)%string = false)
    as Hlit.
  { intros c rest Hc. destruct (String.eqb_spec constraint (String c rest)) as [->|]; [|done].
    cbn in Hall. by rewrite Hc in Hall. }
  rewrite !Hlit by done.
  destruct (String.eqb_spec constraint EmptyString) as [|_]; [done|].
  rewrite !(allChars_startsWith isDigitOrDot) by done.
  rewrite !(allChars_includes isDigitOrDot) by done.
  cbn -[compareVersions]. rewrite Z.eqb_eq. split; [eauto | by intros [_ ?]].
Qed.

Lemma satisfiesVersion_exact_witness :
  satisfiesVersion "v1.2" "1.2.0" = true.
Proof.
  apply (satisfiesVersion_exact "v1.2" "1.2.0"); [done | reflexivity |].
  split; [vm_compute; eauto | by vm_compute].
Defined.

(** *** Ranges, alternatives and conjunctions *)

Lemma someM_Some_true (f : string → bool) (parts : list string) :
  someM (λ p, Some (f p)) parts = Some true ↔ ∃ p, p ∈ parts ∧ f p = true.
Proof.
  induction parts as [|q rest IH]; cbn.
  - split; [done | by intros (p & ?%elem_of_nil & _)].
  - destruct (f q) eqn:Hq.
    + split; [intros _; exists q; split; [left | done] | done].
    + rewrite IH. split.
      * intros (p & Hp & Hfp). exists p. split; [by right | done].
      * intros (p & [->|Hp]%elem_of_cons & Hfp); [congruence | eauto].
Qed.

Lemma everyM_Some_true (f : string → bool) (parts : list string) :
  everyM (λ p, Some (f p)) parts = Some true ↔ ∀ p, p ∈ parts → f p = true.
Proof.
  induction parts as [|q rest IH]; cbn.
  - split; [by intros _ p ?%elem_of_nil | done].
  - destruct (f q) eqn:Hq.
    + rewrite IH. split.
      * intros Hall p [->|Hp]%elem_of_cons; [done | by apply Hall].
      * intros Hall p Hp. apply Hall. by right.
    + split; [done|]. intros Hall. rewrite Hall in Hq; [done | left].
Qed.

(** X25: constraints that are not a single rule (any version, caret, tilde,
    comparison operator, wildcard).  A constraint with " - " is a range: it
    is satisfied by the accepted versions that are not below its first
    piece and not above its second.  Otherwise a constraint with "||" is
    satisfied exactly when one of its pieces is, and otherwise a constraint
    with a space exactly when the version is accepted and all its pieces
    are satisfied. *)
Theorem satisfiesVersion_compound (version constraint : string) :
  let c := Js.trim constraint in
  singleRule c = false →
  (Js.includes " - " c = true →
   (satisfiesVersion version constraint = true
    ↔ is_Some (parseVersionParts version)
      ∧ ∃ min max rest,
          Js.trim <$> Js.split " - " c = min :: max :: rest
          ∧ compareVersions version min >= 0
          ∧ compareVersions version max <= 0))
  ∧ (Js.includes " - " c = false → Js.includes "||" c = true →
     (satisfiesVersion version constraint = true
      ↔ ∃ part, part ∈ Js.split "||" c
                ∧ satisfiesVersion version (Js.trim part) = true))
  ∧ (Js.includes " - " c = false → Js.includes "||" c = false →
     Js.includes " " c = true →
     (satisfiesVersion version constraint = true
      ↔ is_Some (parseVersionParts version)
        ∧ ∀ part, part ∈ Js.splitWs c →
                  satisfiesVersion version (Js.trim part) = true)).
Proof.
  cbv zeta. unfold singleRule. rewrite !orb_false_iff.
  intros ((((((((((Hlatest & Hstar) & Hx) & Hempty) & Hcaret) & Htilde) & Hgt) & Hlt)
            & Heq) & Hix) & Histar).
  assert (∀ (x y : ascii) (s : string),
            Js.startsWith (String x EmptyString) s = false →
            Js.startsWith (String x (String y EmptyString)) s = false) as Hlonger.
  { intros x y [|z s]; [done|]. cbn [Js.startsWith].
    destruct (Ascii.eqb x z); [by cbn | done]. }
  pose proof (Hlonger ">"%char "="%char _ Hgt) as Hge.
  pose proof (Hlonger "<"%char "="%char _ Hlt) as Hle.
  assert (∀ c', parseVersionParts version = None →
                satisfiesVersion version c' = false) as Hunparsed.
  { intros c' Hnone. pose proof (satisfiesVersion_unfold version c') as Hunfold.
    unfold satisfiesVersion_body in Hunfold. rewrite Hnone in Hunfold. congruence. }
  pose proof (satisfiesVersion_unfold version constraint) as Hunfold.
  unfold satisfiesVersion_body in Hunfold.
  destruct (parseVersionParts version) as [v|] eqn:Hparse.
  - cbv zeta in Hunfold.
    rewrite Hlatest, Hstar, Hx, Hempty, Hcaret, Htilde, Hge, Hgt, Hle, Hlt, Heq,
      Hix, Histar in Hunfold. cbn [orb andb negb] in Hunfold.
    split; [|split].
    + intros Hrange. rewrite Hrange in Hunfold.
      destruct (Js.trim <$> Js.split " - " (Js.trim constraint)) as [|min [|max rest]].
      * injection Hunfold as <-. split; [done|]. by intros (_ & ? & ? & ? & ? & _).
      * injection Hunfold as <-. split; [done|]. by intros (_ & ? & ? & ? & ? & _).
      * injection Hunfold as <-. rewrite andb_true_iff, Z.geb_ge, Z.leb_le. split.
        -- intros [Hmin Hmax]. split; [eauto|]. exists min, max, rest. done.
        -- intros (_ & min' & max' & rest' & [= <- <- <-] & Hmin & Hmax). done.
    + intros Hrange Hor. rewrite Hrange, Hor in Hunfold.
      rewrite <-someM_Some_true, Hunfold.
      split; [by intros -> | by intros [= ->]].
    + intros Hrange Hor Hand. rewrite Hrange, Hor, Hand in Hunfold.
      cbn [andb negb] in Hunfold. rewrite <-everyM_Some_true, Hunfold.
      split; [intros ->; eauto | by intros [_ [= ->]]].
  - rewrite (Hunparsed constraint eq_refl). split; [|split].
    + intros _. split; [done | by intros [[? ?] _]].
    + intros _ _. split; [done|]. intros (part & _ & Hpart).
      by rewrite Hunparsed in Hpart.
    + intros _ _ _. split; [done | by intros [[? ?] _]].
Qed.

Lemma satisfiesVersion_compound_witness :
  satisfiesVersion "2.4.0" " 1.0.0 || 2.4 " = true.
Proof.
  destruct (satisfiesVersion_compound "2.4.0" " 1.0.0 || 2.4 ") as (_ & Hor & _);
    [reflexivity|].
  apply Hor; [reflexivity | reflexivity |].
  exists " 2.4". split; [|reflexivity].
  by vm_compute; set_solver.
Defined.

(** ** The default version pattern *)

Lemma spanDigits_app (s : string) :
  s = (Js.spanDigits s).1 +:+ (Js.spanDigits s).2.
Proof.
  induction s as [|c s IH]; cbn; [done|].
  destruct (Js.isDigit c); [|done].
  destruct (Js.spanDigits s) as [d r]. cbn in *.
  change (String c d +:+ r) with (String c (d +:+ r)). by rewrite <-IH.
Qed.

Lemma spanDigits_head (s : string) (c : ascii) (d r : string) :
  Js.spanDigits s = (String c d, r) → Js.isDigit c = true.
Proof.
  destruct s as [|c' s]; cbn; [done|].
  destruct (Js.isDigit c') eqn:Hc; [|done].
  destruct (Js.spanDigits s). by intros [= <- _ _].
Qed.

Lemma startsWith_app (p rest : string) : Js.startsWith p (p +:+ rest) = true.
Proof.
  induction p as [|a p IH]; [done|].
  change (String a p +:+ rest) with (String a (p +:+ rest)).
  cbn. by rewrite Ascii.eqb_refl.
Qed.

Lemma dotGroup_app (s : string) :
  s = match (Js.dotGroup s).1 with
      | Some d => "." +:+ d
      | None => EmptyString
      end +:+ (Js.dotGroup s).2.
Proof.
  unfold Js.dotGroup. destruct s as [|c s]; [done|].
  destruct (Ascii.eqb_spec c ".") as [->|Hc].
  - pose proof (spanDigits_app s) as Hs.
    destruct (Js.spanDigits s) as [[|c d] r]; cbn in *; [done|].
    change ("." +:+ String c d) with (String "." (String c d)).
    change (String "." (String c d) +:+ r) with (String "." (String c d +:+ r)).
    by rewrite <-Hs.
  - by destruct c as [[][][][][][][][]].
Qed.

Lemma versionSuffix_prefix (s : string) :
  Js.startsWith (versionSuffix s) s = true.
Proof.
  unfold versionSuffix. destruct s as [|c r]; [done|].
  destruct (_ || _); [|done].
  assert (∀ t, Js.startsWith (spanAlnumOrDot t) t = true) as Hspan.
  { induction t as [|x t IH]; [done|]. cbn. destruct (isAlnumOrDot x); [|done].
    cbn. by rewrite Ascii.eqb_refl. }
  specialize (Hspan r). destruct (spanAlnumOrDot r); [done|].
  cbn. by rewrite Ascii.eqb_refl.
Qed.

Lemma startsWith_app_inv (a p s : string) :
  Js.startsWith p s = true → Js.startsWith (a +:+ p) (a +:+ s) = true.
Proof.
  intros Hp. induction a as [|x a IH]; [done|].
  change (String x a +:+ p) with (String x (a +:+ p)).
  change (String x a +:+ s) with (String x (a +:+ s)).
  cbn. by rewrite Ascii.eqb_refl.
Qed.

(** The text the pattern matches at the head of [s] is a prefix of [s] that
    starts with a digit. *)
Lemma versionCore_prefix (s g : string) :
  versionCore s = Some g →
  Js.startsWith g s = true ∧ Js.startsWithDigit g = true.
Proof.
  unfold versionCore.
  pose proof (spanDigits_app s) as Hs.
  destruct (Js.spanDigits s) as [[|c1 d1] r1] eqn:Hspan1; [done|]. cbn in Hs.
  destruct r1 as [|dot r]; [done|].
  destruct (Ascii.eqb_spec dot ".") as [->|?];
    [|by destruct dot as [[][][][][][][][]]].
  pose proof (spanDigits_app r) as Hr.
  destruct (Js.spanDigits r) as [[|c2 d2] r2] eqn:Hspan2; [done|]. cbn in Hr.
  pose proof (dotGroup_app r2) as Hr2.
  destruct (Js.dotGroup r2) as [g3 r3]. cbn in Hr2.
  intros [= <-]. split.
  - rewrite Hs. apply (startsWith_app_inv (String c1 d1)).
    change (String "." r) with ("." +:+ r). apply (startsWith_app_inv ".").
    rewrite Hr. apply (startsWith_app_inv (String c2 d2)).
    rewrite Hr2. apply startsWith_app_inv, versionSuffix_prefix.
  - change (String c1 d1 +:+ ?x) with (String c1 (d1 +:+ x)). cbn.
    by eapply spanDigits_head.
Qed.

Lemma includes_startsWith (p s : string) :
  Js.startsWith p s = true → Js.includes p s = true.
Proof. intros Hp. destruct s; cbn [Js.includes]; by rewrite Hp. Qed.

Lemma includes_tail (p s : string) (c : ascii) :
  Js.includes p s = true → Js.includes p (String c s) = true.
Proof. intros Hp. cbn [Js.includes]. rewrite Hp. apply orb_true_r. Qed.

Lemma defaultVersionMatch_found (output v : string) :
  defaultVersionMatch output = Some v →
  Js.includes v output = true ∧ Js.startsWithDigit v = true.
Proof.
  induction output as [|c output IH].
  - cbn. done.
  - cbn [defaultVersionMatch].
    destruct (versionAt (String c output)) as [g|] eqn:Hat.
    + intros [= <-]. unfold versionAt in Hat.
      destruct (Ascii.eqb_spec c "v") as [->|Hc].
      * destruct (versionCore output) as [g'|] eqn:Hcore.
        -- injection Hat as <-. apply versionCore_prefix in Hcore as [Hp Hd].
           split; [|done]. by apply includes_tail, includes_startsWith.
        -- apply versionCore_prefix in Hat as [Hp Hd].
           split; [|done]. by apply includes_startsWith.
      * assert (versionCore (String c output) = Some g) as Hcore.
        { by destruct c as [[][][][][][][][]]. }
        apply versionCore_prefix in Hcore as [Hp Hd].
        split; [|done]. by apply includes_startsWith.
    + intros Hrest. destruct (IH Hrest) as [Hinc Hd].
      split; [|done]. by apply includes_tail.
Qed.

(** X7: what the default pattern extracts from the output of a version
    command is a piece of that output that starts with a digit, so
    [parseVersionParts] always reads it; and for a task without a pattern of
    its own, [parseVersion] never throws. *)
Theorem defaultVersionMatch_readable (M : Machine) (task : BaseTask.t)
    (output v : string) :
  truthyString (BaseTask.versionParseRegex task) = false →
  parseVersion M task output = Returns (defaultVersionMatch output)
  ∧ (defaultVersionMatch output = Some v →
     Js.includes v output = true
     ∧ v ≠ EmptyString
     ∧ is_Some (parseVersionParts v)).
Proof.
  intros Hregex. unfold parseVersion. rewrite Hregex. split; [done|].
  intros [Hinc Hd]%defaultVersionMatch_found. split; [done|].
  split; [by destruct v|]. apply parseVersionParts_is_Some.
  destruct v as [|c v]; [done|]. cbn in Hd.
  assert (Js.stripV (String c v) = String c v) as ->; [|done].
  by destruct c as [[][][][][][][][]].
Qed.

Lemma defaultVersionMatch_readable_witness :
  is_Some (parseVersionParts "2.39.1-rc1").
Proof.
  apply (defaultVersionMatch_readable Sample.machine
           (Sample.bundled "git" (Some "git --version"))
           "git version v2.39.1-rc1 (Apple Git-143)" "2.39.1-rc1");
    reflexivity.
Defined.

(** ** Step executor: the processes of one step *)

Lemma runCommand_trace (M : Machine) (command : string) (args : list string)
    (env : option (gmap string string)) (cwd : option string) (tr : Trace) :
  (runCommand M command args env cwd tr).2 = tr ++ [EvSpawn command args env cwd].
Proof.
  unfold runCommand. destruct (spawn M tr command args env cwd); [|done].
  case_bool_decide; [done|]. by destruct (negb _).
Qed.

Lemma runCommand_outcome (M : Machine) (command : string) (args : list string)
    (env : option (gmap string string)) (cwd : option string) (tr : Trace) :
  match (runCommand M command args env cwd tr).1 with
  | inl _ => commandFailed (spawn M tr command args env cwd) = false
  | inr _ => commandFailed (spawn M tr command args env cwd) = true
  end.
Proof.
  unfold runCommand, commandFailed.
  destruct (spawn M tr command args env cwd); [|done].
  case_bool_decide; [done|]. by destruct (negb _).
Qed.

(** The post-install loop runs the commands in order and stops behind the
    first one that fails. *)
Lemma runPostInstall_events (M : Machine) (step : InstallStep.t)
    (cmds : list string) (tr : Trace) :
  ∃ posts,
    posts `prefix_of` cmds
    ∧ (runPostInstall M step cmds tr).2 = tr ++ (postInstallEvent step <$> posts)
    ∧ match (runPostInstall M step cmds tr).1 with
      | None => posts = cmds
      | Some _ =>
          ∃ pre last,
            posts = pre ++ [last]
            ∧ commandFailed
                (spawn M (tr ++ (postInstallEvent step <$> pre)) "sh" ["-c"; last]
                   (InstallStep.env step) (InstallStep.cwd step)) = true
      end.
Proof.
  revert tr. induction cmds as [|postCmd rest IH]; intros tr; cbn [runPostInstall].
  { exists []. cbn. by rewrite app_nil_r. }
  pose proof (runCommand_trace M "sh" ["-c"; postCmd]
                (InstallStep.env step) (InstallStep.cwd step) tr) as Htrace.
  pose proof (runCommand_outcome M "sh" ["-c"; postCmd]
                (InstallStep.env step) (InstallStep.cwd step) tr) as Hout.
  destruct (runCommand M "sh" ["-c"; postCmd] _ _ tr) as [[out|msg] tr1];
    cbn in Htrace, Hout; subst tr1.
  - destruct (IH (tr ++ [EvSpawn "sh" ["-c"; postCmd]
                           (InstallStep.env step) (InstallStep.cwd step)]))
      as (posts & Hpre & Htr & Hres).
    exists (postCmd :: posts). split; [by apply prefix_cons|].
    split; [by rewrite Htr, <-app_assoc|].
    destruct (runPostInstall M step rest _).1; [|by subst].
    destruct Hres as (pre & last & -> & Hfail).
    exists (postCmd :: pre), last. split; [done|].
    by rewrite fmap_cons, cons_middle, app_assoc.
  - exists [postCmd]. split; [apply prefix_cons, prefix_nil|]. split; [done|].
    exists [], postCmd. split; [done|]. cbn. by rewrite app_nil_r.
Qed.

Lemma buildCommand_unknown (step : InstallStep.t) :
  isValidType (InstallStep.type step) = false →
  buildCommand step = Throws ("Unknown step type: " +:+ InstallStep.type step).
Proof.
  unfold isValidType, validTypes, buildCommand.
  intros Hout%bool_decide_eq_false.
  repeat (match goal with
          | |- context [(?a =? ?b)%string] =>
              destruct (String.eqb_spec a b) as [Heq|_];
              [exfalso; apply Hout; rewrite Heq; set_solver|]
          end).
  done.
Qed.

Lemma isValidType_buildCommand (step : InstallStep.t) :
  isValidType (InstallStep.type step) = false ↔
  ∃ msg, buildCommand step = Throws msg.
Proof.
  split; [intros ?%buildCommand_unknown; eauto|].
  unfold isValidType, validTypes, buildCommand.
  intros [msg Hthrow]. apply bool_decide_eq_false. intros Hin.
  repeat (apply elem_of_cons in Hin as [Heq|Hin];
          [rewrite Heq in Hthrow; cbn in Hthrow; done|]).
  by apply elem_of_nil in Hin.
Qed.

(** X8: a step starts no process exactly when it does not apply to the
    platform or its type is not one of the seven; in the first case it is
    reported as a success with a "Skipped" output, whatever its type, in the
    second as a failure "Unknown step type" (a success if the step is
    optional). *)
Theorem stepExecute_no_process (M : Machine) (step : InstallStep.t) (tr : Trace) :
  ((stepExecute M step tr).2 = tr
   ↔ shouldRunOnPlatform M step = false
     ∨ isValidType (InstallStep.type step) = false)
  ∧ (shouldRunOnPlatform M step = false →
     stepExecute M step tr = (platformSkip M step, tr))
  ∧ (shouldRunOnPlatform M step = true →
     isValidType (InstallStep.type step) = false →
     stepExecute M step tr
     = (stepFailure step ("Unknown step type: " +:+ InstallStep.type step), tr)).
Proof.
  assert (∀ l : Trace, tr ++ l = tr → l = []) as Hnil.
  { intros l Hl. apply (f_equal length) in Hl. rewrite length_app in Hl.
    destruct l; [done | cbn in Hl; lia]. }
  unfold stepExecute. destruct (shouldRunOnPlatform M step) eqn:Hrun; cbn [negb].
  2:{ split; [split; [by left | done]|]. split; [done|]. done. }
  split; [|split; [done|]].
  - destruct (buildCommand step) as [[command args]|msg] eqn:Hbuild.
    + split.
      * pose proof (runCommand_trace M command args
                      (InstallStep.env step) (InstallStep.cwd step) tr) as Htrace.
        destruct (runCommand M command args _ _ tr) as [[out|msg] tr1];
          cbn in Htrace; subst tr1.
        -- destruct (runPostInstall_events M step
                       (default [] (InstallStep.postInstall step))
                       (tr ++ [EvSpawn command args
                                 (InstallStep.env step) (InstallStep.cwd step)]))
             as (posts & _ & Htr & _).
           destruct (runPostInstall M step _ _) as [[msg|] tr2]; cbn in Htr |- *;
             subst tr2; rewrite <-app_assoc; by intros ?%Hnil.
        -- cbn. by intros ?%Hnil.
      * intros [?|Hinvalid]; [done|].
        apply isValidType_buildCommand in Hinvalid as [msg Hthrow]. congruence.
    + split; [|done]. intros _. right. apply isValidType_buildCommand. eauto.
  - intros _ Hinvalid.
    pose proof (buildCommand_unknown step Hinvalid) as ->. done.
Qed.

(** X9: a step that applies to the platform and has a valid type starts its
    own command first, then the post-install commands through [sh -c], in
    the order of the list and with the step's environment and directory.
    After a failed main command no post-install command runs; the step ends
    without an error only if every post-install command ran; an error after
    a successful main command means that the last post-install command that
    ran failed, and the ones behind it never ran. *)
Theorem stepExecute_commands (M : Machine) (step : InstallStep.t) (tr : Trace)
    (command : string) (args : list string) :
  shouldRunOnPlatform M step = true →
  buildCommand step = Returns (command, args) →
  let first := EvSpawn command args (InstallStep.env step) (InstallStep.cwd step) in
  let mainFailed :=
    commandFailed (spawn M tr command args
                     (InstallStep.env step) (InstallStep.cwd step)) in
  ∃ posts,
    posts `prefix_of` default [] (InstallStep.postInstall step)
    ∧ (stepExecute M step tr).2 = tr ++ first :: (postInstallEvent step <$> posts)
    ∧ (mainFailed = true → posts = [])
    ∧ (StepResult.error (stepExecute M step tr).1 = None →
       mainFailed = false ∧ posts = default [] (InstallStep.postInstall step))
    ∧ (is_Some (StepResult.error (stepExecute M step tr).1) →
       mainFailed = false →
       ∃ pre last,
         posts = pre ++ [last]
         ∧ commandFailed
             (spawn M (tr ++ first :: (postInstallEvent step <$> pre))
                "sh" ["-c"; last] (InstallStep.env step) (InstallStep.cwd step))
           = true).
Proof.
  intros Hrun Hbuild. cbv zeta. unfold stepExecute. rewrite Hrun, Hbuild. cbn [negb].
  pose proof (runCommand_trace M command args
                (InstallStep.env step) (InstallStep.cwd step) tr) as Htrace.
  pose proof (runCommand_outcome M command args
                (InstallStep.env step) (InstallStep.cwd step) tr) as Hout.
  destruct (runCommand M command args _ _ tr) as [[out|msg] tr1];
    cbn in Htrace, Hout; subst tr1.
  - destruct (runPostInstall_events M step
                (default [] (InstallStep.postInstall step))
                (tr ++ [EvSpawn command args
                          (InstallStep.env step) (InstallStep.cwd step)]))
      as (posts & Hpre & Htr & Hres).
    exists posts. split; [done|].
    destruct (runPostInstall M step _ _) as [[msg|] tr2]; cbn in Htr, Hres |- *;
      subst tr2; rewrite <-app_assoc; (split; [done|]).
    + split; [congruence|]. split; [done|]. intros _ _.
      destruct Hres as (pre & last & -> & Hfail).
      exists pre, last. split; [done|]. by rewrite <-app_assoc in Hfail.
    + split; [congruence|]. split; [done|]. by intros [? [=]].
  - exists []. split; [apply prefix_nil|]. cbn. split; [done|]. split; [done|].
    split; [done|]. congruence.
Qed.

Lemma stepExecute_commands_witness :
  let step := SampleHooks.step ["echo a"; "exit 3"; "echo b"] (Some ["linux"]) in
  ∃ posts,
    posts `prefix_of` ["echo a"; "exit 3"; "echo b"]
    ∧ (stepExecute SampleHooks.machine step []).2
      = EvSpawn "sudo" ["apt-get"; "install"; "-y"; "jq"] None (Some "/tmp")
        :: (postInstallEvent step <$> posts).
Proof.
  cbv zeta.
  destruct (stepExecute_commands SampleHooks.machine
              (SampleHooks.step ["echo a"; "exit 3"; "echo b"] (Some ["linux"])) []
              "sudo" ["apt-get"; "install"; "-y"; "jq"])
    as (posts & Hprefix & Htrace & _); [reflexivity | reflexivity |].
  exists posts. split; [exact Hprefix | exact Htrace].
Defined.

(** X10: the result of a step names the step; it has an output exactly when
    it has no error; and it is a success exactly when it has no error or the
    step is optional.  So a result with [success = false] never belongs to
    an optional step. *)
Theorem stepExecute_result (M : Machine) (step : InstallStep.t) (tr : Trace) :
  let r := (stepExecute M step tr).1 in
  StepResult.step r = step
  ∧ (is_Some (StepResult.output r) ↔ StepResult.error r = None)
  ∧ (StepResult.success r = true
     ↔ StepResult.error r = None ∨ InstallStep.optional step = Some true)
  ∧ (StepResult.success r = false → truthy (InstallStep.optional step) = false).
Proof.
  cbv zeta.
  assert (∀ msg,
            let r := stepFailure step msg in
            StepResult.step r = step
            ∧ (is_Some (StepResult.output r) ↔ StepResult.error r = None)
            ∧ (StepResult.success r = true
               ↔ StepResult.error r = None ∨ InstallStep.optional step = Some true)
            ∧ (StepResult.success r = false
               → truthy (InstallStep.optional step) = false)) as Hfail.
  { intros msg. cbn. unfold truthy. split; [done|].
    split; [split; [by intros [? [=]] | done]|].
    split; [|done].
    destruct (InstallStep.optional step) as [[]|]; cbn; naive_solver. }
  unfold stepExecute. destruct (shouldRunOnPlatform M step); cbn [negb].
  2:{ cbn. split; [done|]. split; [by split; eauto|]. split; [by split; eauto|]. done. }
  destruct (buildCommand step) as [[command args]|msg]; [|apply Hfail].
  destruct (runCommand M command args _ _ tr) as [[out|msg] tr1]; [|apply Hfail].
  destruct (runPostInstall M step _ tr1) as [[msg|] tr2]; [apply Hfail|].
  cbn. split; [done|]. split; [by split; eauto|]. split; [by split; eauto|]. done.
Qed.

(** ** Formula executor: the result of one task *)

Lemma stepExecute_failed_required (M : Machine) (step : InstallStep.t) (tr : Trace) :
  StepResult.success (stepExecute M step tr).1 = false →
  truthy (InstallStep.optional step) = false
  ∧ is_Some (StepResult.error (stepExecute M step tr).1).
Proof.
  assert (∀ msg, StepResult.success (stepFailure step msg) = false →
                 truthy (InstallStep.optional step) = false
                 ∧ is_Some (StepResult.error (stepFailure step msg))) as Hfail.
  { intros msg. cbn. eauto. }
  unfold stepExecute. destruct (shouldRunOnPlatform M step); cbn [negb]; [|done].
  destruct (buildCommand step) as [[command args]|msg]; [|apply Hfail].
  destruct (runCommand M command args _ _ tr) as [[out|msg] tr1]; [|apply Hfail].
  destruct (runPostInstall M step _ tr1) as [[msg|] tr2]; [apply Hfail | done].
Qed.

Lemma stepExecute_step (M : Machine) (step : InstallStep.t) (tr : Trace) :
  StepResult.step (stepExecute M step tr).1 = step.
Proof.
  unfold stepExecute. destruct (shouldRunOnPlatform M step); cbn [negb]; [|done].
  destruct (buildCommand step) as [[command args]|msg]; [|done].
  destruct (runCommand M command args _ _ tr) as [[out|msg] tr1]; [|done].
  by destruct (runPostInstall M step _ tr1) as [[msg|] tr2].
Qed.

(** The loop over the steps: it ends with one successful result per step, or
    it returns at the first result that is not a success. *)
Lemma stepLoop_shape (M : Machine) (task : FormulaTask.t) (options : ExecutorOptions.t)
    (steps : list InstallStep.t) (acc : list StepResult.t) (tr : Trace) :
  match (stepLoop M task options steps acc tr).1 with
  | inr stepResults =>
      ∃ new, stepResults = acc ++ new
             ∧ StepResult.step <$> new = steps
             ∧ Forall (λ r, StepResult.success r = true) new
  | inl failed =>
      ∃ pre last,
        failed = failedTaskResult task (acc ++ pre ++ [last])
        ∧ (StepResult.step <$> pre ++ [last]) `prefix_of` steps
        ∧ Forall (λ r, StepResult.success r = true) pre
        ∧ StepResult.success last = false
        ∧ is_Some (StepResult.error last)
        ∧ truthy (InstallStep.optional (StepResult.step last)) = false
        ∧ truthy (ExecutorOptions.dryRun options) = false
  end.
Proof.
  revert acc tr. induction steps as [|step steps IH]; intros acc tr; cbn [stepLoop].
  { exists []. by rewrite app_nil_r. }
  assert (∀ (result : StepResult.t) (tr1 : Trace),
            StepResult.step result = step → StepResult.success result = true →
            match (stepLoop M task options steps (acc ++ [result]) tr1).1 with
            | inr stepResults =>
                ∃ new, stepResults = acc ++ new
                       ∧ StepResult.step <$> new = step :: steps
                       ∧ Forall (λ r, StepResult.success r = true) new
            | inl failed =>
                ∃ pre last,
                  failed = failedTaskResult task (acc ++ pre ++ [last])
                  ∧ (StepResult.step <$> pre ++ [last]) `prefix_of` step :: steps
                  ∧ Forall (λ r, StepResult.success r = true) pre
                  ∧ StepResult.success last = false
                  ∧ is_Some (StepResult.error last)
                  ∧ truthy (InstallStep.optional (StepResult.step last)) = false
                  ∧ truthy (ExecutorOptions.dryRun options) = false
            end) as Hnext.
  { intros result tr1 Hstep Hok. specialize (IH (acc ++ [result]) tr1).
    destruct (stepLoop M task options steps (acc ++ [result]) tr1).1 as [failed|results].
    - destruct IH as (pre & last & -> & Hpre & Hall & Hlast).
      exists (result :: pre), last. split; [by rewrite <-!app_assoc|].
      split; [cbn; rewrite Hstep; by apply prefix_cons|].
      split; [by constructor | done].
    - destruct IH as (new & -> & Hsteps & Hall).
      exists (result :: new). split; [by rewrite <-app_assoc|].
      split; [cbn; by rewrite Hstep, Hsteps | by constructor]. }
  destruct (truthy (ExecutorOptions.dryRun options)) eqn:Hdry; [by apply Hnext|].
  pose proof (stepExecute_step M step tr) as Hstep.
  pose proof (stepExecute_failed_required M step tr) as Hfailed.
  destruct (stepExecute M step tr) as [result tr1]. cbn in Hstep, Hfailed.
  destruct (StepResult.success result) eqn:Hok; [by apply Hnext|].
  destruct (Hfailed eq_refl) as [Hopt Herr]. rewrite Hopt. cbn.
  exists [], result. split; [done|]. split; [cbn; rewrite Hstep; apply prefix_cons, prefix_nil|].
  split; [constructor|]. split; [done|]. split; [done|]. by rewrite Hstep.
Qed.

Lemma installTask_shape (M : Machine) (task : FormulaTask.t)
    (options : ExecutorOptions.t) (tr : Trace) (r : TaskResult.t) :
  (installTask M task options tr).1 = Returns r →
  TaskResult.task r = task
  ∧ TaskResult.skipped r = None
  ∧ TaskResult.skipReason r = None
  ∧ (StepResult.step <$> TaskResult.steps r) `prefix_of` FormulaTask.steps task
  ∧ (TaskResult.success r = true →
     StepResult.step <$> TaskResult.steps r = FormulaTask.steps task
     ∧ Forall (λ s, StepResult.success s = true) (TaskResult.steps r))
  ∧ (TaskResult.success r = false →
     truthy (ExecutorOptions.dryRun options) = false
     ∧ ∃ pre last,
         TaskResult.steps r = pre ++ [last]
         ∧ Forall (λ s, StepResult.success s = true) pre
         ∧ StepResult.success last = false
         ∧ is_Some (StepResult.error last)
         ∧ truthy (InstallStep.optional (StepResult.step last)) = false).
Proof.
  revert r.
  pose proof (stepLoop_shape M task options (FormulaTask.steps task) [] tr) as Hloop.
  apply installTask_returns.
  - intros failed tr1 Heq. rewrite Heq in Hloop. cbn in Hloop.
    destruct Hloop as (pre & last & -> & Hprefix & Hpre & Hlast & Herr & Hopt & Hdry).
    cbn. split; [done|]. split; [done|]. split; [done|]. split; [done|].
    split; [done|]. intros _. split; [done|]. by exists pre, last.
  - intros stepResults tr1 Heq. rewrite Heq in Hloop. cbn in Hloop.
    destruct Hloop as (new & -> & Hsteps & Hall). cbn.
    split; [done|]. split; [done|]. split; [done|]. split; [by rewrite Hsteps|].
    split; [done|]. done.
Qed.

(** *** Calls that return *)

(** [checkTaskVersion] is rejected only on a task whose id names a property
    the registry inherits: the value found is no task, and calling its
    [checkVersion] is a [TypeError]. *)
Lemma checkTaskVersion_outcome (M : Machine) (task : FormulaTask.t) (tr : Trace) :
  match (checkTaskVersion M task tr).1 with
  | Returns _ => getTask M (FormulaTask.id task) ≠ Some InheritedProperty
  | Throws error =>
      getTask M (FormulaTask.id task) = Some InheritedProperty
      ∧ error = "taskInstance.checkVersion is not a function"
  end.
Proof.
  unfold checkTaskVersion.
  destruct (getTask M (FormulaTask.id task)) as [[taskInstance|]|]; [|done..].
  by destruct (checkVersion M taskInstance _ tr).
Qed.

Lemma installTask_outcome (M : Machine) (task : FormulaTask.t)
    (options : ExecutorOptions.t) (tr : Trace) :
  match (installTask M task options tr).1 with
  | Returns _ => True
  | Throws error =>
      getTask M (FormulaTask.id task) = Some InheritedProperty
      ∧ error = "taskInstance.checkVersion is not a function"
  end.
Proof.
  unfold installTask.
  destruct (stepLoop M task options (FormulaTask.steps task) [] tr)
    as [[failed|stepResults] tr1]; [done|].
  pose proof (checkTaskVersion_outcome M task tr1) as Hcheck.
  by destruct (checkTaskVersion M task tr1) as [[postCheck|error] tr2].
Qed.

Lemma executeTask_outcome (M : Machine) (task : FormulaTask.t)
    (options : ExecutorOptions.t) (st : ExecState) :
  match (executeTask M task options st).1 with
  | Returns _ => True
  | Throws error =>
      getTask M (FormulaTask.id task) = Some InheritedProperty
      ∧ error = "taskInstance.checkVersion is not a function"
  end.
Proof.
  unfold executeTask. destruct (bool_decide _); [done|].
  destruct (_ && _).
  - pose proof (checkTaskVersion_outcome M task (trace st)) as Hcheck.
    destruct (checkTaskVersion M task (trace st)) as [[versionCheck|error] tr1];
      [|done].
    destruct (_ && _); [done|].
    pose proof (installTask_outcome M task options tr1) as Hinst.
    by destruct (installTask M task options tr1) as [[r|error] tr2].
  - pose proof (installTask_outcome M task options (trace st)) as Hinst.
    by destruct (installTask M task options (trace st)) as [[r|error] tr2].
Qed.

Lemma taskLoop_outcome (M : Machine) (options : ExecutorOptions.t)
    (sortedTasks : list FormulaTask.t) (acc : list TaskResult.t) (st : ExecState) :
  match (taskLoop M options sortedTasks acc st).1 with
  | Returns _ => True
  | Throws error =>
      error = "taskInstance.checkVersion is not a function"
      ∧ ∃ t, t ∈ sortedTasks ∧ getTask M (FormulaTask.id t) = Some InheritedProperty
  end.
Proof.
  revert acc st. induction sortedTasks as [|task rest IH]; intros acc st;
    cbn [taskLoop]; [done|].
  pose proof (executeTask_outcome M task options st) as Htask.
  destruct (executeTask M task options st) as [[result|error] st1]; cbn in Htask.
  2:{ cbn. destruct Htask as [Hid ->]. split; [done|]. exists task. split; [left | done]. }
  assert (∀ acc' st',
            match (taskLoop M options rest acc' st').1 with
            | Returns _ => True
            | Throws error =>
                error = "taskInstance.checkVersion is not a function"
                ∧ ∃ t, t ∈ task :: rest
                       ∧ getTask M (FormulaTask.id t) = Some InheritedProperty
            end) as Hrest.
  { intros acc' st'. specialize (IH acc' st').
    destruct (taskLoop M options rest acc' st').1; [done|].
    destruct IH as (-> & t & Ht & Hid). split; [done|]. exists t. split; [by right | done]. }
  destruct (successOrSkipped result); [apply Hrest|].
  destruct (negb (truthy (ExecutorOptions.continueOnError options))); [done | apply Hrest].
Qed.

(** X11: a result [executeTask] returns names the task, and its step results
    follow the task's steps in order.  A successful result that is not a
    skip has one successful step result for every step; a failed result that
    is not a skip ends with the one step result that failed, which carries
    an error and belongs to a step that is not optional, and the steps
    behind it have no result.  A skipped result has no step results, and a
    successful skip is only returned when the version gate is on.  The call
    returns a result unless the id of the task names a property the registry
    inherits without defining it; then a call that does not return was
    rejected by the version check. *)
Theorem executeTask_result (M : Machine) (task : FormulaTask.t)
    (options : ExecutorOptions.t) (st : ExecState) :
  let out := (executeTask M task options st).1 in
  (getTask M (FormulaTask.id task) ≠ Some InheritedProperty → is_Some (returned out))
  ∧ (∀ error, out = Throws error →
       error = "taskInstance.checkVersion is not a function")
  ∧ ∀ r, out = Returns r →
    TaskResult.task r = task
    ∧ (StepResult.step <$> TaskResult.steps r) `prefix_of` FormulaTask.steps task
    ∧ (TaskResult.skipped r = None ∨ TaskResult.skipped r = Some true)
    ∧ (TaskResult.skipped r = None → TaskResult.success r = true →
       StepResult.step <$> TaskResult.steps r = FormulaTask.steps task
       ∧ Forall (λ s, StepResult.success s = true) (TaskResult.steps r))
    ∧ (TaskResult.skipped r = None → TaskResult.success r = false →
       ∃ pre last,
         TaskResult.steps r = pre ++ [last]
         ∧ Forall (λ s, StepResult.success s = true) pre
         ∧ StepResult.success last = false
         ∧ is_Some (StepResult.error last)
         ∧ truthy (InstallStep.optional (StepResult.step last)) = false)
    ∧ (TaskResult.skipped r = Some true →
       TaskResult.steps r = [] ∧ is_Some (TaskResult.skipReason r)
       ∧ (TaskResult.success r = true → versionGateOn options)).
Proof.
  cbv zeta. pose proof (executeTask_outcome M task options st) as Hout.
  split; [|split].
  { intros Hid. destruct (executeTask M task options st).1; [by eexists|].
    by destruct Hout. }
  { intros error Heq. rewrite Heq in Hout. by destruct Hout. }
  apply executeTask_returns.
  - intros _. cbn. split; [done|]. split; [apply prefix_nil|]. split; [by right|].
    split; [done|]. split; [done|]. intros _. split; [done|]. split; [eauto | done].
  - intros versionCheck _ Hgate _ _ _. cbn.
    split; [done|]. split; [apply prefix_nil|]. split; [by right|].
    split; [done|]. split; [done|]. intros _. split; [done|]. split; [eauto | done].
  - intros tr r _ Hr.
    destruct (installTask_shape M task options tr r Hr)
      as (Htask & Hskip & _ & Hprefix & Hok & Hfail).
    split; [done|]. split; [done|]. split; [by left|]. split; [by intros _|].
    split; [intros _ Hfailed; by destruct (Hfail Hfailed)|]. by rewrite Hskip.
Qed.

(** ** Formula executor: the run *)

(** The run loop: the results it returns belong, in order, to a front part
    of the sorted tasks; a task is left without a result only behind a
    result that is neither a success nor a skip, and only without
    [continueOnError]. *)
Lemma taskLoop_shape (M : Machine) (options : ExecutorOptions.t)
    (sortedTasks : list FormulaTask.t) (acc : list TaskResult.t) (st : ExecState)
    (results : list TaskResult.t) :
  (taskLoop M options sortedTasks acc st).1 = Returns results →
  ∃ new,
    results = acc ++ new
    ∧ (TaskResult.task <$> new) `prefix_of` sortedTasks
    ∧ (TaskResult.task <$> new = sortedTasks
       ∨ (truthy (ExecutorOptions.continueOnError options) = false
          ∧ ∃ pre last, new = pre ++ [last]
                        ∧ forallb successOrSkipped pre = true
                        ∧ successOrSkipped last = false))
    ∧ (truthy (ExecutorOptions.continueOnError options) = true →
       TaskResult.task <$> new = sortedTasks)
    ∧ (forallb successOrSkipped new = true → TaskResult.task <$> new = sortedTasks).
Proof.
  revert acc st. induction sortedTasks as [|task rest IH]; intros acc st; cbn [taskLoop].
  { intros [= <-]. exists []. rewrite app_nil_r. split; [done|]. split; [done|].
    split; [by left|]. done. }
  pose proof (executeTask_task M task options st) as Htask.
  destruct (executeTask M task options st) as [[result|error] st1]; [|done].
  specialize (Htask result eq_refl).
  destruct (successOrSkipped result) eqn:Hok.
  - intros Hloop.
    destruct (IH (acc ++ [result]) (addInstalled (FormulaTask.id task) st1) Hloop)
      as (new & -> & Hprefix & Hcases & Hcont & Hall).
    exists (result :: new). split; [by rewrite <-app_assoc|].
    split; [cbn; rewrite Htask; by apply prefix_cons|].
    split.
    { destruct Hcases as [Heq|(Hno & pre & last & -> & Hpre & Hlast)].
      - left. cbn. by rewrite Htask, Heq.
      - right. split; [done|]. exists (result :: pre), last.
        split; [done|]. cbn. by rewrite Hok, Hpre. }
    split.
    { intros Hc. cbn. by rewrite Htask, Hcont. }
    cbn. rewrite Hok. cbn. intros Hnew. by rewrite Htask, Hall.
  - destruct (truthy (ExecutorOptions.continueOnError options)) eqn:Hc; cbn [negb].
    + intros Hloop.
      destruct (IH (acc ++ [result]) st1 Hloop)
        as (new & -> & Hprefix & Hcases & Hcont & Hall).
      exists (result :: new). split; [by rewrite <-app_assoc|].
      split; [cbn; rewrite Htask; by apply prefix_cons|].
      split; [left; cbn; by rewrite Htask, Hcont|].
      split; [intros _; cbn; by rewrite Htask, Hcont|].
      cbn. by rewrite Hok.
    + intros [= <-]. exists [result]. split; [done|].
      split; [cbn; rewrite Htask; apply prefix_cons, prefix_nil|].
      split; [right; split; [done|]; by exists [], result|].
      split; [done|]. cbn. by rewrite Hok.
Qed.

Lemma execute_outcome (M : Machine) (formula : ResolvedFormula.t)
    (options : ExecutorOptions.t) (st : ExecState) :
  match (execute M formula options st).1 with
  | Returns _ => True
  | Throws error =>
      error = "taskInstance.checkVersion is not a function"
      ∧ ∃ t, t ∈ topologicalSort (filterTasks formula options)
             ∧ getTask M (FormulaTask.id t) = Some InheritedProperty
  end.
Proof.
  unfold execute. destruct (bool_decide _); [done|].
  pose proof (taskLoop_outcome M options
                (topologicalSort (filterTasks formula options)) [] st) as Hloop.
  by destruct (taskLoop M options _ [] st) as [[taskResults|error] st1].
Qed.

(** X12: the results of a run that returns belong, in order, to a front part
    of the schedule, the sorted selection; only tasks of the formula get a
    result.  Every scheduled task gets one when [continueOnError] is set or
    the run reports success; otherwise the run stopped behind its first
    result that is neither a success nor a skip, which is the last result.
    The run reports success exactly when every result is a success or a
    skip.  The run returns when no scheduled id names a property the
    registry inherits without defining it; a run that does not return was
    rejected by the version check of a scheduled task with such an id. *)
Theorem execute_results (M : Machine) (formula : ResolvedFormula.t)
    (options : ExecutorOptions.t) (st : ExecState) :
  let out := (execute M formula options st).1 in
  let schedule := topologicalSort (filterTasks formula options) in
  ((∀ t, t ∈ schedule → getTask M (FormulaTask.id t) ≠ Some InheritedProperty) →
   is_Some (returned out))
  ∧ (∀ error, out = Throws error →
       error = "taskInstance.checkVersion is not a function"
       ∧ ∃ t, t ∈ schedule ∧ t ∈ ResolvedFormula.tasks formula
              ∧ FormulaTask.id t ∈ objectPrototypeNames
              ∧ taskRegistry M !! FormulaTask.id t = None)
  ∧ ∀ r, out = Returns r →
    let tasksDone := TaskResult.task <$> InstallResult.tasks r in
    tasksDone `prefix_of` schedule
    ∧ (∀ t, t ∈ tasksDone → t ∈ ResolvedFormula.tasks formula)
    ∧ (InstallResult.success r = true
       ↔ ∀ t, t ∈ InstallResult.tasks r → successOrSkipped t = true)
    ∧ (truthy (ExecutorOptions.continueOnError options) = true
       ∨ InstallResult.success r = true → tasksDone = schedule)
    ∧ (tasksDone ≠ schedule →
       ∃ pre last, InstallResult.tasks r = pre ++ [last]
                   ∧ forallb successOrSkipped pre = true
                   ∧ successOrSkipped last = false).
Proof.
  cbv zeta.
  assert (∀ t, t ∈ filterTasks formula options → t ∈ ResolvedFormula.tasks formula)
    as Hfilter.
  { intros t. unfold filterTasks.
    destruct (nonEmpty (ExecutorOptions.selectedTasks options));
      destruct (nonEmpty (ExecutorOptions.selectedCategories options));
      rewrite ?list_elem_of_filter; tauto. }
  pose proof (execute_outcome M formula options st) as Hout.
  split; [|split].
  { intros Hids. destruct (execute M formula options st).1; [by eexists|].
    destruct Hout as (_ & t & Ht & Hid). by destruct (Hids t Ht). }
  { intros error Heq. rewrite Heq in Hout. destruct Hout as (-> & t & Ht & Hid).
    split; [done|]. exists t. split; [done|].
    split; [by apply Hfilter, topologicalSort_elem|].
    unfold getTask in Hid. destruct (taskRegistry M !! FormulaTask.id t); [done|].
    case_bool_decide; done. }
  clear Hout. intros r. unfold execute. case_bool_decide as Hempty.
  { apply length_zero_iff_nil in Hempty. rewrite Hempty. intros [= <-]. cbn.
    split; [apply prefix_nil|]. split; [by intros t ?%elem_of_nil|].
    split; [split; [by intros _ t ?%elem_of_nil | done]|].
    split; [by intros _|]. intros Hne. exfalso. apply Hne. by vm_compute. }
  pose proof (taskLoop_shape M options
                (topologicalSort (filterTasks formula options)) [] st) as Hshape.
  destruct (taskLoop M options _ [] st) as [[taskResults|error] st1]; [|done].
  destruct (Hshape taskResults eq_refl) as (new & Hres & Hprefix & Hcases & Hcont & Hall).
  cbn in Hres. subst taskResults. intros [= <-]. cbn.
  split; [done|]. split.
  { intros t Ht. apply Hfilter, topologicalSort_elem.
    destruct Hprefix as [k Hk]. rewrite Hk. apply elem_of_app. by left. }
  split.
  { rewrite forallb_forall. split; intros Hok t Ht; apply Hok.
    - by apply list_elem_of_In.
    - by apply list_elem_of_In. }
  split; [intros [Hc|Hok]; [by apply Hcont | by apply Hall]|].
  intros Hne. by destruct Hcases as [?|[_ ?]].
Qed.

Lemma execute_results_witness :
  let run formula :=
    (execute Sample.machine formula (Sample.options None) (newFormulaExecutor [])).1 in
  is_Some (returned (run SampleRun.both))
  ∧ run SampleInherited.formula
    = Throws "taskInstance.checkVersion is not a function".
Proof.
  cbv zeta. split.
  - destruct (execute_results Sample.machine SampleRun.both (Sample.options None)
                (newFormulaExecutor [])) as (Hreturns & _).
    apply Hreturns. intros t Ht.
    apply topologicalSort_elem in Ht. cbn in Ht.
    repeat (apply elem_of_cons in Ht as [->|Ht]); [| |by apply elem_of_nil in Ht];
      by vm_compute.
  - destruct (execute_results Sample.machine SampleInherited.formula
                (Sample.options None) (newFormulaExecutor [])) as (_ & Hthrows & _).
    assert (∃ error,
              (execute Sample.machine SampleInherited.formula (Sample.options None)
                 (newFormulaExecutor [])).1 = Throws error)
      as [error Herror] by (vm_compute; eauto).
    rewrite Herror. f_equal. by destruct (Hthrows error Herror).
Defined.

(** A version check runs at most one command, the version command of the
    task, and spawns nothing. *)
Lemma checkVersion_events (M : Machine) (task : BaseTask.t)
    (desired : option string) (tr : Trace) :
  ∃ events,
    (checkVersion M task desired tr).2 = tr ++ events
    ∧ (events = []
       ∨ events = [EvExecSync (default EmptyString (BaseTask.versionCommand task))]).
Proof.
  unfold checkVersion.
  destruct (negb (truthyString (BaseTask.versionCommand task))).
  { exists []. cbn. rewrite app_nil_r. eauto. }
  eexists. split; [|by right]. cbv zeta.
  destruct (execSync M tr _); [|done].
  destruct (parseVersion M task _) as [parsed|]; [|done].
  by destruct (negb (truthyString parsed)).
Qed.

Lemma checkTaskVersion_events (M : Machine) (task : FormulaTask.t) (tr : Trace) :
  ∃ events,
    (checkTaskVersion M task tr).2 = tr ++ events
    ∧ (length events ≤ 1)%nat
    ∧ Forall (λ e, isSpawn e = false) events.
Proof.
  unfold checkTaskVersion.
  destruct (getTask M (FormulaTask.id task)) as [[inst|]|].
  2,3: exists []; cbn; rewrite app_nil_r; split; [done|]; split; [lia | constructor].
  destruct (checkVersion_events M inst
              (Some (if truthyString (FormulaTask.version task)
                     then default EmptyString (FormulaTask.version task)
                     else "latest")) tr) as (events & Htr & Hevents).
  destruct (checkVersion M inst _ tr) as [versionCheck tr1]. cbn in Htr |- *.
  destruct Hevents as [->| ->].
  - exists []. split; [done|]. split; [cbn; lia | constructor].
  - eexists. split; [done|]. split; [cbn; lia | by repeat constructor].
Qed.

Lemma stepLoop_dryRun (M : Machine) (task : FormulaTask.t) (options : ExecutorOptions.t)
    (steps : list InstallStep.t) (acc : list StepResult.t) (tr : Trace) :
  truthy (ExecutorOptions.dryRun options) = true →
  stepLoop M task options steps acc tr = (inr (acc ++ (dryRunStepResult <$> steps)), tr).
Proof.
  intros Hdry. revert acc. induction steps as [|step steps IH]; intros acc; cbn [stepLoop].
  - by rewrite app_nil_r.
  - by rewrite Hdry, IH, <-app_assoc.
Qed.

Lemma executeTask_dryRun (M : Machine) (task : FormulaTask.t)
    (options : ExecutorOptions.t) (st : ExecState) :
  truthy (ExecutorOptions.dryRun options) = true →
  ∃ events,
    trace (executeTask M task options st).2 = trace st ++ events
    ∧ (length events ≤ 1)%nat
    ∧ Forall (λ e, isSpawn e = false) events
    ∧ ∀ r, (executeTask M task options st).1 = Returns r →
           r = dryRunResult task
           ∨ (missingDeps (installedTasks st) task ≠ []
              ∧ r = missingDepsResult task (missingDeps (installedTasks st) task)).
Proof.
  intros Hdry. unfold executeTask. case_bool_decide as Hmissing.
  { exists []. cbn. rewrite app_nil_r. split; [done|]. split; [lia|].
    split; [constructor|]. intros r [= <-]. right. split; [|done].
    destruct (missingDeps _ _); [cbn in Hmissing; lia | done]. }
  rewrite Hdry. cbn [negb]. rewrite !andb_false_r.
  unfold installTask. rewrite stepLoop_dryRun by done.
  destruct (checkTaskVersion_events M task (trace st)) as (events & Htr & Hlen & Hev).
  destruct (checkTaskVersion M task (trace st)) as [[postCheck|error] tr2];
    cbn in Htr; subst tr2; exists events; cbn.
  - split; [done|]. split; [done|]. split; [done|]. intros r [= <-]. by left.
  - split; [done|]. split; [done|]. split; [done|]. done.
Qed.

Lemma taskLoop_dryRun (M : Machine) (options : ExecutorOptions.t)
    (sortedTasks : list FormulaTask.t) (acc : list TaskResult.t) (st : ExecState) :
  truthy (ExecutorOptions.dryRun options) = true →
  ∃ events,
    trace (taskLoop M options sortedTasks acc st).2 = trace st ++ events
    ∧ (length events ≤ length sortedTasks)%nat
    ∧ Forall (λ e, isSpawn e = false) events
    ∧ ∀ results, (taskLoop M options sortedTasks acc st).1 = Returns results →
        ∃ new,
          results = acc ++ new
          ∧ TaskResult.task <$> new = sortedTasks
          ∧ Forall (λ r, r = dryRunResult (TaskResult.task r)
                         ∨ ∃ missing, missing ≠ []
                                      ∧ r = missingDepsResult (TaskResult.task r) missing)
              new.
Proof.
  intros Hdry. revert acc st.
  induction sortedTasks as [|task rest IH]; intros acc st; cbn [taskLoop].
  { exists []. rewrite !app_nil_r. split; [done|]. split; [done|].
    split; [constructor|]. intros results [= <-]. exists [].
    rewrite app_nil_r. split; [done|]. split; [done | constructor]. }
  destruct (executeTask_dryRun M task options st Hdry)
    as (events & Htr & Hlen & Hev & Hres).
  destruct (executeTask M task options st) as [[result|error] st1]; cbn in Htr.
  2:{ exists events. cbn. split; [done|]. split; [lia|]. split; [done|]. done. }
  assert (successOrSkipped result = true ∧ TaskResult.task result = task
          ∧ (result = dryRunResult (TaskResult.task result)
             ∨ ∃ missing, missing ≠ []
                          ∧ result = missingDepsResult (TaskResult.task result) missing))
    as (-> & Htask & Hshape).
  { destruct (Hres result eq_refl) as [->|[Hne ->]];
      (split; [done|]); (split; [done|]); [by left|].
    right. eauto. }
  destruct (IH (acc ++ [result]) (addInstalled (FormulaTask.id task) st1))
    as (events' & Htr' & Hlen' & Hev' & Hrest).
  exists (events ++ events').
  split; [rewrite Htr'; cbn; by rewrite Htr, <-app_assoc|].
  split; [rewrite length_app; cbn; lia|]. split; [by apply Forall_app|].
  intros results Hloop. destruct (Hrest results Hloop) as (new & -> & Htasks & Hnew).
  exists (result :: new).
  split; [by rewrite <-app_assoc|]. split; [cbn; by rewrite Htask, Htasks|].
  by constructor.
Qed.

(** X13: a dry run spawns no process, whether the run returns or is
    rejected, and the only commands it executes are version commands, at
    most one for each scheduled task.  The run returns when no scheduled id
    names a property the registry inherits without defining it; the version
    check of the task is called in a dry run as well.  In a run that
    returns, every scheduled task gets a result: a success with the result
    "Dry run - no action taken" for each of its steps, or the skip for
    missing dependencies; and the run reports success. *)
Theorem execute_dryRun (M : Machine) (formula : ResolvedFormula.t)
    (options : ExecutorOptions.t) (st : ExecState) :
  truthy (ExecutorOptions.dryRun options) = true →
  let out := (execute M formula options st).1 in
  let schedule := topologicalSort (filterTasks formula options) in
  (∃ events,
     trace (execute M formula options st).2 = trace st ++ events
     ∧ Forall (λ e, isSpawn e = false) events
     ∧ (length events ≤ length schedule)%nat)
  ∧ ((∀ t, t ∈ schedule → getTask M (FormulaTask.id t) ≠ Some InheritedProperty) →
     is_Some (returned out))
  ∧ (∀ t rest, schedule = t :: rest →
       missingDeps (installedTasks st) t = [] →
       getTask M (FormulaTask.id t) = Some InheritedProperty →
       out = Throws "taskInstance.checkVersion is not a function")
  ∧ ∀ r, out = Returns r →
    InstallResult.success r = true
    ∧ TaskResult.task <$> InstallResult.tasks r = schedule
    ∧ Forall (λ t, t = dryRunResult (TaskResult.task t)
                   ∨ ∃ missing, missing ≠ []
                                ∧ t = missingDepsResult (TaskResult.task t) missing)
        (InstallResult.tasks r).
Proof.
  intros Hdry. cbv zeta.
  pose proof (execute_outcome M formula options st) as Hout.
  assert (∃ events,
            trace (execute M formula options st).2 = trace st ++ events
            ∧ Forall (λ e, isSpawn e = false) events
            ∧ (length events ≤ length (topologicalSort (filterTasks formula options)))%nat
            ∧ ∀ r, (execute M formula options st).1 = Returns r →
                InstallResult.success r = true
                ∧ TaskResult.task <$> InstallResult.tasks r
                  = topologicalSort (filterTasks formula options)
                ∧ Forall (λ t, t = dryRunResult (TaskResult.task t)
                               ∨ ∃ missing,
                                   missing ≠ []
                                   ∧ t = missingDepsResult (TaskResult.task t) missing)
                    (InstallResult.tasks r)) as (events & Htr & Hev & Hlen & Hres).
  { unfold execute. case_bool_decide as Hempty.
    { apply length_zero_iff_nil in Hempty. rewrite Hempty. cbn.
      exists []. rewrite app_nil_r. split; [done|]. split; [constructor|].
      split; [done|]. intros r [= <-]. cbn.
      split; [done|]. split; [by vm_compute | constructor]. }
    destruct (taskLoop_dryRun M options
                (topologicalSort (filterTasks formula options)) [] st Hdry)
      as (events & Htr & Hlen & Hev & Hres).
    destruct (taskLoop M options _ [] st) as [[taskResults|error] st1];
      cbn in Htr |- *; exists events.
    2:{ split; [done|]. split; [done|]. split; [done|]. done. }
    split; [done|]. split; [done|]. split; [done|]. intros r [= <-]. cbn.
    destruct (Hres taskResults eq_refl) as (new & Hnew & Htasks & Hall).
    cbn in Hnew. subst taskResults. split; [|done].
    apply forallb_forall. intros t Ht%list_elem_of_In.
    rewrite Forall_forall in Hall.
    destruct (Hall t Ht) as [->|(missing & _ & ->)]; done. }
  split; [by exists events|]. split.
  { intros Hids. destruct (execute M formula options st).1; [by eexists|].
    destruct Hout as (_ & t & Ht & Hid). by destruct (Hids t Ht). }
  split; [|done].
  intros t rest Hsched Hdeps Hid. clear Hout Htr Hres.
  unfold execute. case_bool_decide as Hempty.
  { apply length_zero_iff_nil in Hempty. by rewrite Hempty in Hsched. }
  rewrite Hsched. cbn [taskLoop]. unfold executeTask. rewrite Hdeps.
  cbn [length]. rewrite bool_decide_false by lia.
  rewrite Hdry. cbn [negb]. rewrite !andb_false_r.
  unfold installTask. rewrite stepLoop_dryRun by done.
  unfold checkTaskVersion. by rewrite Hid.
Qed.

Lemma returned_Returns {A} (o : Outcome A) (a : A) : returned o = Some a → o = Returns a.
Proof. destruct o; cbn; congruence. Qed.

Lemma execute_dryRun_witness :
  let run formula :=
    (execute Sample.machine formula (Sample.options (Some true))
       (newFormulaExecutor [])).1 in
  InstallResult.success <$> returned (run (Sample.formula [SampleSteps.tool]))
  = Some true
  ∧ run SampleInherited.formula
    = Throws "taskInstance.checkVersion is not a function".
Proof.
  cbv zeta. split.
  - destruct (execute_dryRun Sample.machine (Sample.formula [SampleSteps.tool])
                (Sample.options (Some true)) (newFormulaExecutor []) eq_refl)
      as (_ & Hreturns & _ & Hresult).
    destruct Hreturns as [r Hr].
    + intros t Ht. apply list_elem_of_singleton in Ht as ->. by vm_compute.
    + rewrite Hr. cbn. f_equal.
      by destruct (Hresult r (returned_Returns _ _ Hr)) as [Hsuccess _].
  - destruct (execute_dryRun Sample.machine SampleInherited.formula
                (Sample.options (Some true)) (newFormulaExecutor []) eq_refl)
      as (_ & _ & Hrejected & _).
    apply (Hrejected SampleInherited.task []); by vm_compute.
Defined.

(** ** The summary *)

(** X14: the four lists of the summary share out the results: every result
    is counted in exactly one of "Installed/Updated", "Already installed",
    "Failed" and "Skipped".  The "Failed" list is empty exactly when the run
    reports success. *)
Theorem printSummary_partition (M : Machine) (formula : ResolvedFormula.t)
    (options : ExecutorOptions.t) (st : ExecState) (results : list TaskResult.t) :
  let s := printSummary results in
  Summary.installed s ++ Summary.alreadyInstalled s
    ++ Summary.failed s ++ Summary.skippedOther s ≡ₚ results
  ∧ (length (Summary.installed s) + length (Summary.alreadyInstalled s)
     + length (Summary.failed s) + length (Summary.skippedOther s)
     = length results)%nat
  ∧ ∀ run, (execute M formula options st).1 = Returns run →
           InstallResult.success run = true
           ↔ Summary.failed (printSummary (InstallResult.tasks run)) = [].
Proof.
  cbv zeta.
  assert (∀ l, Summary.installed (printSummary l) ++ Summary.alreadyInstalled (printSummary l)
               ++ Summary.failed (printSummary l) ++ Summary.skippedOther (printSummary l)
               ≡ₚ l) as Hperm.
  { intros l. unfold printSummary. cbn. induction l as [|r l IH]; [done|].
    rewrite !filter_cons.
    destruct (TaskResult.success r), (truthy (TaskResult.skipped r)),
      (reasonIncludesInstalled r); cbn [andb negb];
      repeat case_decide; try done; cbn [app];
      rewrite <-?Permutation_middle; by apply perm_skip. }
  split; [apply Hperm|]. split.
  { pose proof (Permutation_length (Hperm results)) as Hlen.
    rewrite !length_app in Hlen. lia. }
  assert (∀ l, forallb successOrSkipped l = true ↔ Summary.failed (printSummary l) = [])
    as Hfailed.
  { intros l. unfold printSummary. cbn. induction l as [|r l IH]; [done|].
    rewrite filter_cons. cbn [forallb]. rewrite andb_true_iff, IH.
    unfold successOrSkipped.
    destruct (TaskResult.success r), (truthy (TaskResult.skipped r)); cbn;
      naive_solver. }
  intros run. unfold execute. case_bool_decide; [by intros [= <-]|].
  destruct (taskLoop M options _ [] st) as [[taskResults|error] st1]; [|done].
  intros [= <-]. cbn. apply Hfailed.
Qed.

(** An occurrence of [p] cannot reach across a character that is not in
    [p]. *)
Lemma startsWith_across (p a b : string) (c : ascii) :
  hasChar c p = false →
  Js.startsWith p (a +:+ String c b) = Js.startsWith p a.
Proof.
  revert a. induction p as [|p0 p IH]; intros a Hc; [done|].
  cbn in Hc. apply orb_false_iff in Hc as [Hp0 Hp].
  destruct a as [|x a].
  - change (EmptyString +:+ String c b) with (String c b).
    cbn [Js.startsWith]. by rewrite Hp0.
  - change (String x a +:+ String c b) with (String x (a +:+ String c b)).
    cbn [Js.startsWith]. by rewrite IH.
Qed.

Lemma includes_across (p0 : ascii) (p a b : string) (c : ascii) :
  hasChar c (String p0 p) = false →
  Js.includes (String p0 p) (a +:+ String c b)
  = Js.includes (String p0 p) a || Js.includes (String p0 p) b.
Proof.
  intros Hc. induction a as [|x a IH].
  - change (EmptyString +:+ String c b) with (String c b).
    cbn in Hc. apply orb_false_iff in Hc as [Hp0 _].
    cbn [Js.includes]. cbn [Js.startsWith]. by rewrite Hp0.
  - change (String x a +:+ String c b) with (String x (a +:+ String c b)).
    cbn [Js.includes].
    rewrite <-(startsWith_across (String p0 p) (String x a) b c Hc).
    change (String x a +:+ String c b) with (String x (a +:+ String c b)).
    rewrite IH. by rewrite orb_assoc.
Qed.

Lemma includes_app_r (p a b : string) :
  Js.includes p b = true → Js.includes p (a +:+ b) = true.
Proof.
  intros Hb. induction a as [|x a IH]; [done|].
  change (String x a +:+ b) with (String x (a +:+ b)). by apply includes_tail.
Qed.

(** The messages of a version check that lets the version gate skip a task:
    whether they contain the word "installed". *)
Lemma checkVersion_message_installed (M : Machine) (task : BaseTask.t)
    (desired : option string) (tr : Trace) :
  let check := (checkVersion M task desired tr).1 in
  installed check = true → needsUpdate check = false →
  Js.includes "installed" (message check)
  = match currentVersion check with
    | None => true
    | Some v =>
        Js.includes "installed" (BaseTask.name task)
        || Js.includes "installed" v
        || Js.includes "installed" (default "latest" desired)
    end.
Proof.
  cbv zeta. unfold checkVersion.
  destruct (negb (truthyString (BaseTask.versionCommand task))); [done|].
  cbv zeta. destruct (execSync M tr _); [|done].
  destruct (parseVersion M task _) as [parsed|]; [|done].
  destruct (negb (truthyString parsed)).
  - cbn. intros _ _. apply includes_app_r. by vm_compute.
  - cbn. intros _ Hsat%negb_false_iff. rewrite Hsat.
    set (current := default EmptyString parsed).
    set (wanted := default "latest" desired).
    change (" " +:+ current +:+ " satisfies " +:+ wanted)
      with (String " " (current +:+ " satisfies " +:+ wanted)).
    rewrite includes_across by reflexivity.
    change (" satisfies " +:+ wanted) with (String " " ("satisfies" +:+ String " " wanted)).
    rewrite includes_across by reflexivity.
    rewrite (includes_across _ _ "satisfies") by reflexivity.
    change (Js.includes "installed" "satisfies") with false.
    by rewrite orb_false_l, orb_assoc.
Qed.

(** X15: where the summary lists a task that the version gate skipped.  It
    is counted under "Already installed" when the installed version is
    unknown; when the version is known and satisfies the constraint it is
    counted there only if the word "installed" occurs in the task's name,
    the version or the constraint, and under "Skipped" otherwise. *)
Theorem printSummary_version_skip (M : Machine) (task : FormulaTask.t)
    (options : ExecutorOptions.t) (st : ExecState) (r : TaskResult.t) :
  (executeTask M task options st).1 = Returns r →
  TaskResult.skipped r = Some true →
  TaskResult.success r = true →
  ∃ taskInstance check,
    taskRegistry M !! FormulaTask.id task = Some taskInstance
    ∧ (checkTaskVersion M task (trace st)).1 = Returns check
    ∧ installed check = true
    ∧ TaskResult.skipReason r = Some (message check)
    ∧ Summary.installed (printSummary [r]) = []
    ∧ Summary.failed (printSummary [r]) = []
    ∧ match currentVersion check with
      | None => Summary.alreadyInstalled (printSummary [r]) = [r]
      | Some v =>
          if Js.includes "installed" (BaseTask.name taskInstance)
             || Js.includes "installed" v
             || Js.includes "installed"
                  (if truthyString (FormulaTask.version task)
                   then default EmptyString (FormulaTask.version task)
                   else "latest")
          then Summary.alreadyInstalled (printSummary [r]) = [r]
          else Summary.skippedOther (printSummary [r]) = [r]
      end.
Proof.
  intros Hr Hskipped Hsuccess. revert r Hr Hskipped Hsuccess.
  refine (executeTask_returns M task options st
            (λ r, TaskResult.skipped r = Some true → TaskResult.success r = true → _)
            _ _ _).
  - done.
  - intros check _ _ Hcheck Hinstalled Hupdate _ _.
    revert Hcheck. unfold checkTaskVersion, getTask.
    destruct (taskRegistry M !! FormulaTask.id task) as [taskInstance|] eqn:Hreg.
    2:{ case_bool_decide; [done|]. intros [= <-]. done. }
    set (desired := if truthyString (FormulaTask.version task)
                    then default EmptyString (FormulaTask.version task)
                    else "latest").
    pose proof (checkVersion_message_installed M taskInstance (Some desired) (trace st))
      as Hmsg.
    destruct (checkVersion M taskInstance (Some desired) (trace st)) as [check' tr1].
    cbn in Hmsg |- *. intros [= ->].
    exists taskInstance, check. split; [done|]. split; [done|]. split; [done|].
    split; [done|]. specialize (Hmsg Hinstalled Hupdate).
    unfold printSummary, reasonIncludesInstalled. cbn.
    rewrite Hmsg.
    destruct (currentVersion check) as [v|].
    + destruct (_ || _); repeat case_decide; done.
    + repeat case_decide; done.
  - intros tr r _ Hr.
    destruct (installTask_shape M task options tr r Hr) as (_ & Hskip & _).
    by rewrite Hskip.
Qed.

Lemma printSummary_version_skip_witness :
  ∃ r, (executeTask Sample.machine SampleRun.git (Sample.options None)
          (newFormulaExecutor [])).1 = Returns r
       ∧ Summary.skippedOther (printSummary [r]) = [r].
Proof.
  eexists. split; [reflexivity|].
  destruct (printSummary_version_skip Sample.machine SampleRun.git
              (Sample.options None) (newFormulaExecutor []) _ eq_refl)
    as (taskInstance & check & Hreg & Hcheck & _ & _ & _ & _ & Hgroup);
    [reflexivity | reflexivity |].
  vm_compute in Hreg. injection Hreg as <-.
  vm_compute in Hcheck. injection Hcheck as <-.
  exact Hgroup.
Defined.

(** ** The selection *)

(** X16: the selection keeps the order of the formula's tasks.  A task is
    selected exactly when it passes both filters; a filter whose list is
    absent or empty lets every task pass, and the category filter, when it
    is in force, keeps no task with an empty category.  When nothing is
    selected, for instance because every selected id is unknown to the
    formula, the run reports success without executing anything. *)
Theorem filterTasks_selection (M : Machine) (formula : ResolvedFormula.t)
    (options : ExecutorOptions.t) (st : ExecState) :
  let selected := filterTasks formula options in
  let byId := ExecutorOptions.selectedTasks options in
  let byCategory := ExecutorOptions.selectedCategories options in
  selected `sublist_of` ResolvedFormula.tasks formula
  ∧ (∀ t, t ∈ selected
          ↔ t ∈ ResolvedFormula.tasks formula
            ∧ (nonEmpty byId = true → FormulaTask.id t ∈ default [] byId)
            ∧ (nonEmpty byCategory = true →
               FormulaTask.category t ≠ EmptyString
               ∧ FormulaTask.category t ∈ default [] byCategory))
  ∧ (nonEmpty byId = false → nonEmpty byCategory = false →
     selected = ResolvedFormula.tasks formula)
  ∧ (selected = [] →
     execute M formula options st
     = (Returns {| InstallResult.formula := formula;
                   InstallResult.success := true;
                   InstallResult.tasks := [] |}, st)).
Proof.
  cbv zeta. split; [|split; [|split]].
  - unfold filterTasks.
    destruct (nonEmpty (ExecutorOptions.selectedTasks options));
      destruct (nonEmpty (ExecutorOptions.selectedCategories options));
      try done.
    + etrans; apply sublist_filter.
    + apply sublist_filter.
    + apply sublist_filter.
  - intros t. unfold filterTasks.
    destruct (nonEmpty (ExecutorOptions.selectedTasks options));
      destruct (nonEmpty (ExecutorOptions.selectedCategories options));
      rewrite ?list_elem_of_filter; naive_solver.
  - intros Hid Hcat. unfold filterTasks. by rewrite Hid, Hcat.
  - intros Hnone. unfold execute. by rewrite Hnone.
Qed.

(** ** Dependency scheduler: cycles and sorted input *)

Lemma grewBy_refl (st : SortState) : grewBy st st [].
Proof.
  split; [by rewrite app_nil_r|]. split; [cbn; set_solver|].
  split; [constructor|]. by intros g ?%elem_of_nil.
Qed.

Lemma grewBy_trans (st st1 st2 : SortState) (new1 new2 : list FormulaTask.t) :
  grewBy st st1 new1 → grewBy st1 st2 new2 → grewBy st st2 (new1 ++ new2).
Proof.
  intros (Hr1 & Hv1 & Hnd1 & Hfresh1) (Hr2 & Hv2 & Hnd2 & Hfresh2).
  split; [by rewrite Hr2, Hr1, <-app_assoc|].
  split; [rewrite Hv2, Hv1; unfold taskIds; rewrite fmap_app; set_solver|].
  unfold taskIds in *. rewrite fmap_app. split.
  - apply NoDup_app. split; [done|]. split; [|done].
    intros g Hg1 Hg2. apply (Hfresh2 g Hg2). rewrite Hv1. set_solver.
  - intros g [Hg|Hg]%elem_of_app; [by apply Hfresh1|].
    intros Hvis. apply (Hfresh2 g Hg). rewrite Hv1. set_solver.
Qed.

Lemma visitDependencies_grewBy
    (visitTask : FormulaTask.t → SortState → option SortState)
    (taskMap : gmap string FormulaTask.t) (deps : list string) (st st' : SortState) :
  (∀ dep s s', visitTask dep s = Some s' → ∃ new, grewBy s s' new) →
  visitDependencies visitTask taskMap deps st = Some st' →
  ∃ new, grewBy st st' new.
Proof.
  intros Hvisit. revert st. induction deps as [|depId rest IH]; intros st; cbn.
  { intros [= <-]. exists []. apply grewBy_refl. }
  destruct (taskMap !! depId) as [dep|]; [|apply IH].
  destruct (visitTask dep st) as [st1|] eqn:Hdep; [|done]. cbn.
  intros Hrest. destruct (Hvisit dep st st1 Hdep) as [new1 H1].
  destruct (IH st1 Hrest) as [new2 H2].
  exists (new1 ++ new2). by eapply grewBy_trans.
Qed.

(** A call of [visit] adds tasks that were not visited, each once, and
    leaves its own task visited, whatever the dependencies are. *)
Lemma visit_grewBy (fuel : nat) (taskMap : gmap string FormulaTask.t)
    (task : FormulaTask.t) (st st' : SortState) :
  visit fuel taskMap task st = Some st' →
  (∃ new, grewBy st st' new) ∧ FormulaTask.id task ∈ visited st'.
Proof.
  revert task st st'. induction fuel as [|fuel IH]; intros task st st' Hrun; [done|].
  cbn [visit] in Hrun. case_bool_decide as Hvis.
  { injection Hrun as <-. split; [exists []; apply grewBy_refl | done]. }
  destruct (visitDependencies _ _ _ _) as [st2|] eqn:Hdeps; [|done].
  cbn in Hrun. injection Hrun as <-.
  destruct (visitDependencies_grewBy _ _ _ _ _ (λ dep s s' H, proj1 (IH dep s s' H)) Hdeps)
    as (new & Hr & Hv & Hnd & Hfresh).
  cbn in Hr, Hv, Hfresh. split.
  - exists (new ++ [task]). split; [cbn; by rewrite Hr, <-app_assoc|].
    unfold taskIds in *. rewrite fmap_app. cbn.
    split; [rewrite Hv; set_solver|]. split.
    + apply NoDup_app. split; [done|]. split; [|apply NoDup_singleton].
      intros g Hg Hg'. apply list_elem_of_singleton in Hg' as ->.
      apply (Hfresh _ Hg). set_solver.
    + intros g [Hg|Hg]%elem_of_app.
      * intros Hin. apply (Hfresh g Hg). set_solver.
      * apply list_elem_of_singleton in Hg as ->. done.
  - cbn. rewrite Hv. set_solver.
Qed.

Lemma visitAll_grewBy (fuel : nat) (taskMap : gmap string FormulaTask.t)
    (todo : list FormulaTask.t) (st st' : SortState) :
  visitAll fuel taskMap todo st = Some st' →
  (∃ new, grewBy st st' new)
  ∧ ∀ t, t ∈ todo → FormulaTask.id t ∈ visited st'.
Proof.
  revert st. induction todo as [|task rest IH]; intros st; cbn [visitAll].
  { intros [= <-]. split; [exists []; apply grewBy_refl | by intros t ?%elem_of_nil]. }
  destruct (visit fuel taskMap task st) as [st1|] eqn:Hvisit; [|done]. cbn.
  intros Hrest. destruct (visit_grewBy _ _ _ _ _ Hvisit) as [[new1 H1] Hid].
  destruct (IH st1 Hrest) as [[new2 H2] Hrestids].
  split; [exists (new1 ++ new2); by eapply grewBy_trans|].
  intros t [Ht|Ht]%elem_of_cons; [|by apply Hrestids].
  subst t. destruct H2 as (_ & -> & _). set_solver.
Qed.

Lemma NoDup_fmap_inj_on {A B} (f : A → B) (l : list A) (x y : A) :
  NoDup (f <$> l) → x ∈ l → y ∈ l → f x = f y → x = y.
Proof.
  intros Hnd [i Hi]%list_elem_of_lookup [j Hj]%list_elem_of_lookup Hxy.
  assert (i = j) as ->; [|congruence].
  eapply NoDup_lookup; [exact Hnd| |].
  - by rewrite list_lookup_fmap, Hi.
  - by rewrite list_lookup_fmap, Hj, Hxy.
Qed.

(** X17: whatever the dependencies are, cycles included, the scheduler
    returns tasks of its input with pairwise distinct ids, among which every
    id of the input occurs; so on an input with pairwise distinct ids it
    returns a rearrangement of the input: a dependency cycle makes it
    neither loop nor lose a task. *)
Theorem topologicalSort_keeps_tasks (tasks : list FormulaTask.t) :
  NoDup (taskIds (topologicalSort tasks))
  ∧ (∀ t, t ∈ topologicalSort tasks → t ∈ tasks)
  ∧ (∀ g, g ∈ taskIds (topologicalSort tasks) ↔ g ∈ taskIds tasks)
  ∧ (NoDup (taskIds tasks) → topologicalSort tasks ≡ₚ tasks).
Proof.
  pose proof (topologicalSort_fuel_total tasks) as Htotal.
  unfold topologicalSort_fuel in Htotal.
  destruct (visitAll _ _ tasks _) as [st'|] eqn:Hrun; [|done].
  cbn in Htotal. injection Htotal as Hres.
  destruct (visitAll_grewBy _ _ _ _ _ Hrun) as [(new & Hr & Hv & Hnd & _) Hall].
  cbn in Hr, Hv. rewrite Hres in Hr. subst new.
  assert (∀ g, g ∈ taskIds (topologicalSort tasks) ↔ g ∈ taskIds tasks) as Hids.
  { intros g. split.
    - intros (t & -> & Ht)%list_elem_of_fmap.
      apply list_elem_of_fmap_2. by apply topologicalSort_elem.
    - intros (t & -> & Ht)%list_elem_of_fmap.
      specialize (Hall t Ht). rewrite Hv in Hall. set_solver. }
  split; [done|]. split; [apply topologicalSort_elem|]. split; [done|].
  intros Hdistinct. apply NoDup_Permutation.
  - by eapply NoDup_fmap_1.
  - by eapply NoDup_fmap_1.
  - intros t. split; [apply topologicalSort_elem|].
    intros Ht.
    assert (FormulaTask.id t ∈ taskIds (topologicalSort tasks)) as Hin.
    { apply Hids. by apply list_elem_of_fmap_2. }
    apply list_elem_of_fmap in Hin as (t' & Hid & Ht').
    assert (t = t') as ->; [|done].
    eapply (NoDup_fmap_inj_on FormulaTask.id tasks); try done.
    by apply topologicalSort_elem.
Qed.

Lemma topologicalSort_keeps_tasks_witness :
  topologicalSort SampleCycle.tasks ≡ₚ SampleCycle.tasks.
Proof.
  apply (topologicalSort_keeps_tasks SampleCycle.tasks).
  unfold taskIds. cbn. repeat (constructor; [set_solver|]). constructor.
Defined.

Lemma visit_fresh (fuel : nat) (taskMap : gmap string FormulaTask.t)
    (task : FormulaTask.t) (st : SortState) :
  FormulaTask.id task ∉ visited st →
  visit (S fuel) taskMap task st
  = st2 ← visitDependencies (visit fuel taskMap) taskMap
            (default [] (FormulaTask.dependencies task))
            {| visited := visited st ∪ {[FormulaTask.id task]}; result := result st |};
    Some {| visited := visited st2; result := result st2 ++ [task] |}.
Proof. intros Hfresh. cbn [visit]. by rewrite bool_decide_false. Qed.

Lemma visitDependencies_visited (fuel : nat) (taskMap : gmap string FormulaTask.t)
    (deps : list string) (st : SortState) :
  (∀ d D, d ∈ deps → taskMap !! d = Some D → FormulaTask.id D ∈ visited st) →
  visitDependencies (visit (S fuel) taskMap) taskMap deps st = Some st.
Proof.
  induction deps as [|depId rest IH]; intros Hdeps; [done|].
  cbn [visitDependencies].
  destruct (taskMap !! depId) as [dep|] eqn:Hdep.
  - cbn [visit]. rewrite bool_decide_true by (eapply Hdeps; [left | done]).
    cbn. apply IH. intros d D Hd. apply Hdeps. by right.
  - apply IH. intros d D Hd. apply Hdeps. by right.
Qed.

(** On a list with pairwise distinct ids in which dependencies stand first,
    the loop over the tasks appends them one by one. *)
Lemma visitAll_ordered (fuel : nat) (tasks pre suf : list FormulaTask.t)
    (st : SortState) :
  NoDup (taskIds tasks) →
  dependenciesFirst tasks →
  tasks = pre ++ suf →
  result st = pre →
  visited st = list_to_set (taskIds pre) →
  ∃ st', visitAll (S (S fuel)) (taskMapOf tasks) suf st = Some st'
         ∧ result st' = tasks.
Proof.
  intros Hnd Hfirst. revert pre st.
  induction suf as [|task rest IH]; intros pre st Htasks Hres Hvis.
  { exists st. rewrite app_nil_r in Htasks. by subst. }
  cbn [visitAll].
  assert (FormulaTask.id task ∉ visited st) as Hfresh.
  { rewrite Hvis, elem_of_list_to_set. subst tasks.
    unfold taskIds in Hnd. rewrite fmap_app in Hnd.
    apply NoDup_app in Hnd as (_ & Hdisj & _).
    intros Hin. apply (Hdisj _ Hin). cbn. left. }
  rewrite visit_fresh by done.
  rewrite visitDependencies_visited.
  - cbn. apply (IH (pre ++ [task])).
    + by rewrite <-app_assoc.
    + cbn. by rewrite Hres.
    + cbn. rewrite Hvis. unfold taskIds. rewrite fmap_app. cbn. set_solver.
  - intros d D Hd HD. cbn.
    apply taskMapOf_lookup in HD as [HD Hid]; [|done]. subst d.
    assert (tasks !! length pre = Some task) as Hlookup.
    { subst tasks. by rewrite lookup_app_r, Nat.sub_diag by lia. }
    pose proof (Hfirst (length pre) task (FormulaTask.id D) Hlookup Hd
                  (list_elem_of_fmap_2 _ _ _ HD)) as Hin.
    assert (take (S (length pre)) tasks = pre ++ [task]) as Htake.
    { subst tasks. rewrite take_app_ge by lia.
      replace (S (length pre) - length pre)%nat with 1%nat by lia. done. }
    rewrite Htake in Hin. unfold taskIds in Hin. rewrite fmap_app in Hin.
    rewrite Hvis. cbn in Hin. set_solver.
Qed.

Lemma topologicalSort_ordered (tasks : list FormulaTask.t) :
  NoDup (taskIds tasks) → dependenciesFirst tasks → topologicalSort tasks = tasks.
Proof.
  intros Hnd Hfirst. destruct tasks as [|t tasks]; [done|].
  unfold topologicalSort, topologicalSort_fuel.
  destruct (visitAll_ordered (length tasks) (t :: tasks) [] (t :: tasks)
              {| visited := ∅; result := [] |} Hnd Hfirst)
    as (st' & Hrun & Hres); try done.
  cbn [length]. by rewrite Hrun.
Qed.

(** X18: on a list with pairwise distinct ids in which every dependency
    that names a task of the list names a task standing before it (or the
    task itself), the scheduler returns the list unchanged; so sorting a
    sorted list again changes nothing when the dependencies have no cycle. *)
Theorem topologicalSort_stable (tasks : list FormulaTask.t) :
  NoDup (taskIds tasks) →
  (dependenciesFirst tasks → topologicalSort tasks = tasks)
  ∧ (acyclicDependencies tasks →
     topologicalSort (topologicalSort tasks) = topologicalSort tasks).
Proof.
  intros Hnd. split; [by apply topologicalSort_ordered|].
  intros Hacyclic.
  destruct (topologicalSort_sorted tasks Hnd Hacyclic) as [Hperm Hsorted].
  apply topologicalSort_ordered.
  - unfold taskIds. by rewrite Hperm.
  - intros i t d Hi Hdep Hd.
    apply list_elem_of_fmap in Hd as (D & -> & HD).
    destruct (Hsorted i t Hi) as [_ Hbefore].
    destruct (Hbefore D) as (j & Hj & HjD); [by rewrite <-Hperm | done |].
    apply list_elem_of_fmap. exists D. split; [done|].
    apply list_elem_of_lookup. exists j. rewrite lookup_take_lt by lia. done.
Qed.

Lemma topologicalSort_stable_witness :
  topologicalSort [SampleRun.git; SampleRun.gh] = [SampleRun.git; SampleRun.gh]
  ∧ topologicalSort (topologicalSort [SampleRun.gh; SampleRun.git])
    = topologicalSort [SampleRun.gh; SampleRun.git].
Proof.
  assert (NoDup (taskIds [SampleRun.git; SampleRun.gh])) as Hnd1.
  { unfold taskIds. cbn. repeat (constructor; [set_solver|]). constructor. }
  destruct (topologicalSort_stable [SampleRun.git; SampleRun.gh] Hnd1) as [Hsame _].
  destruct (topologicalSort_stable [SampleRun.gh; SampleRun.git] sample_both_distinct)
    as [_ Hagain].
  split.
  - apply Hsame. intros i t d Hi Hdep Hd.
    destruct i as [|[|i]]; cbn in Hi; [| |done]; injection Hi as <-;
      unfold listsDependency in Hdep; cbn in Hdep |- *; set_solver.
  - apply Hagain, sample_both_acyclic.
Defined.

(** ** Resolving task references *)








(** ** Tasks without a version constraint *)

Lemma satisfiesVersion_latest (v : string) :
  is_Some (parseVersionParts v) → satisfiesVersion v "latest" = true.
Proof.
  intros [parts Hparts]. unfold satisfiesVersion. cbn [satisfiesVersion_fuel].
  unfold satisfiesVersion_body. by rewrite Hparts.
Qed.

Lemma checkVersion_latest_default (M : Machine) (task : BaseTask.t) (tr : Trace) :
  truthyString (BaseTask.versionParseRegex task) = false →
  installed (checkVersion M task (Some "latest") tr).1 = true →
  needsUpdate (checkVersion M task (Some "latest") tr).1 = false.
Proof.
  intros Hregex. unfold checkVersion.
  destruct (negb (truthyString (BaseTask.versionCommand task))); [done|].
  cbv zeta. destruct (execSync M tr _) as [stdout|]; [|done].
  unfold parseVersion. rewrite Hregex.
  destruct (defaultVersionMatch (Js.trim stdout)) as [v|] eqn:Hmatch; [|done].
  destruct (defaultVersionMatch_found _ _ Hmatch) as [_ Hdigit].
  assert (truthyString (Some v) = true) as ->.
  { destruct v; [done|]. done. }
  assert (satisfiesVersion v "latest" = true) as Hsat.
  { apply satisfiesVersion_latest, parseVersionParts_is_Some.
    destruct v as [|c v]; [done|]. cbn in Hdigit.
    assert (Js.stripV (String c v) = String c v) as ->; [|done].
    by destruct c as [[][][][][][][][]]. }
  cbn [negb default from_option id]. cbv zeta. by rewrite Hsat.
Qed.

(** X20: a task without a version constraint (absent or empty) whose
    registry entry uses the default version pattern is skipped by the
    version gate exactly when its version command can be run: whatever
    version the output shows, or none, an installed tool is not installed
    again.  (The gate is on and no dependency is missing.) *)
Theorem unconstrained_task_skipped (M : Machine) (task : FormulaTask.t)
    (options : ExecutorOptions.t) (st : ExecState) (taskInstance : BaseTask.t) :
  versionGateOn options →
  missingDeps (installedTasks st) task = [] →
  truthyString (FormulaTask.version task) = false →
  taskRegistry M !! FormulaTask.id task = Some taskInstance →
  truthyString (BaseTask.versionParseRegex taskInstance) = false →
  ∃ check r,
    (checkTaskVersion M task (trace st)).1 = Returns check
    ∧ (executeTask M task options st).1 = Returns r
    ∧ (installed check = true → needsUpdate check = false)
    ∧ (installed check = true ↔ TaskResult.skipped r = Some true)
    ∧ (installed check = true →
       alreadySatisfied r
       ∧ (executeTask M task options st).2
         = withTrace st (checkTaskVersion M task (trace st)).2).
Proof.
  intros (Hforce & Hskip & Hdry) Hdeps Hversion Hreg Hregex.
  pose proof (checkVersion_latest_default M taskInstance (trace st) Hregex) as Hlatest.
  unfold executeTask.
  rewrite (checkTaskVersion_registry M task (trace st) taskInstance Hreg).
  rewrite Hdeps, Hforce, Hskip, Hdry, Hversion. cbn [length negb andb fst snd].
  rewrite bool_decide_false by lia.
  destruct (checkVersion M taskInstance (Some "latest") (trace st)) as [check tr1].
  cbn [fst snd] in Hlatest |- *. exists check.
  destruct (installed check) eqn:Hinstalled.
  - rewrite (Hlatest eq_refl). cbn. eexists. split; [done|]. split; [done|].
    split; [done|]. split; [done|]. done.
  - cbn [andb].
    pose proof (installTask_outcome M task options tr1) as Hout.
    pose proof (installTask_shape M task options tr1) as Hshape.
    destruct (installTask M task options tr1) as [[r|error] tr2]; cbn in Hout, Hshape.
    2:{ destruct Hout as [Hid _]. by rewrite (getTask_registry _ _ _ Hreg) in Hid. }
    destruct (Hshape r eq_refl) as (_ & Hnone & _).
    exists r. cbn. rewrite Hnone. split; [done|]. split; [done|].
    split; [done|]. split; [done|]. done.
Qed.

Lemma unconstrained_task_skipped_witness :
  TaskResult.skipped
    <$> returned
          (executeTask Sample.machine (Sample.task "quiet" None [SampleSteps.fetch] None)
             (Sample.options None) (newFormulaExecutor [])).1
  = Some (Some true).
Proof.
  destruct (unconstrained_task_skipped Sample.machine
              (Sample.task "quiet" None [SampleSteps.fetch] None)
              (Sample.options None) (newFormulaExecutor [])
              (Sample.bundled "quiet" (Some "quiet")))
    as (check & r & Hcheck & Hr & _ & Hiff & _);
    [done | reflexivity | reflexivity | reflexivity | reflexivity |].
  rewrite Hr. cbn. f_equal. apply Hiff.
  vm_compute in Hcheck. by injection Hcheck as <-.
Defined.

(** ** Validated dependencies and the run *)

Lemma hasDepErrors_false (formula : ResolvedFormula.t) :
  hasDepErrors formula = false
  ↔ ∀ t d, t ∈ ResolvedFormula.tasks formula → listsDependency t d →
           d ∈ taskIds (ResolvedFormula.tasks formula).
Proof.
  unfold hasDepErrors, listsDependency, taskIds. cbv zeta.
  set (ids := list_to_set (FormulaTask.id <$> ResolvedFormula.tasks formula) : gset string).
  assert (∀ d, d ∈ ids ↔ d ∈ FormulaTask.id <$> ResolvedFormula.tasks formula) as Hids.
  { intros d. subst ids. by rewrite elem_of_list_to_set. }
  assert (∀ deps flag,
            foldl (λ flag dep, if bool_decide (dep ∈ ids) then flag else true) flag deps
            = false
            ↔ flag = false ∧ ∀ d, d ∈ deps → d ∈ ids) as Hinner.
  { induction deps as [|dep deps IH]; intros flag; cbn [foldl].
    - split; [intros ->; split; [done | by intros d ?%elem_of_nil] | by intros [-> _]].
    - rewrite IH. case_bool_decide as Hdep.
      + split; intros [Hflag Hall]; (split; [done|]).
        * intros d [->|Hd]%elem_of_cons; [done | by apply Hall].
        * intros d Hd. apply Hall. by right.
      + split; [by intros [? _]|]. intros [_ Hall]. exfalso. apply Hdep, Hall. left. }
  assert (∀ tasks flag,
            foldl (λ flag task,
                     match FormulaTask.dependencies task with
                     | Some deps =>
                         foldl (λ flag dep,
                                  if bool_decide (dep ∈ ids) then flag else true)
                           flag deps
                     | None => flag
                     end) flag tasks = false
            ↔ flag = false
              ∧ ∀ t d, t ∈ tasks → d ∈ default [] (FormulaTask.dependencies t) → d ∈ ids)
    as Houter.
  { induction tasks as [|task tasks IH]; intros flag; cbn [foldl].
    - split; [intros ->; split; [done | by intros t d ?%elem_of_nil] | by intros [-> _]].
    - rewrite IH. destruct (FormulaTask.dependencies task) as [deps|] eqn:Hdeps.
      + rewrite Hinner. split.
        * intros [[-> Hdeps'] Hall]. split; [done|].
          intros t d [->|Ht]%elem_of_cons Hd; [|by eapply Hall].
          rewrite Hdeps in Hd. by apply Hdeps'.
        * intros [-> Hall]. split; [split; [done|]|].
          -- intros d Hd. apply (Hall task d); [left|]. by rewrite Hdeps.
          -- intros t d Ht Hd. apply (Hall t d); [by right | done].
      + split.
        * intros [-> Hall]. split; [done|].
          intros t d [->|Ht]%elem_of_cons Hd; [|by eapply Hall].
          rewrite Hdeps in Hd. by apply elem_of_nil in Hd.
        * intros [-> Hall]. split; [done|].
          intros t d Ht Hd. apply (Hall t d); [by right | done]. }
  rewrite Houter. split.
  - intros [_ Hall] t d Ht Hd. apply Hids. by eapply Hall.
  - intros Hall. split; [done|]. intros t d Ht Hd. apply Hids. by eapply Hall.
Qed.

Lemma executeTask_skip_missing (M : Machine) (task : FormulaTask.t)
    (options : ExecutorOptions.t) (st : ExecState) (r : TaskResult.t) :
  (executeTask M task options st).1 = Returns r →
  TaskResult.skipped r = Some true →
  TaskResult.success r = false →
  ∃ d, listsDependency task d ∧ d ∉ installedTasks st.
Proof.
  intros Hr Hskip Hfail. apply missingDeps_nonempty. intros Hnone.
  destruct (executeTask_not_missing M task options st r Hnone Hr) as [Hok|Hno];
    congruence.
Qed.

(** The run loop over a list in which every dependency stands before the
    task that lists it. *)
Lemma taskLoop_skipsFollowFailures (M : Machine) (options : ExecutorOptions.t)
    (sorted before rest : list FormulaTask.t) (acc : list TaskResult.t)
    (st : ExecState) :
  (∀ i t d, sorted !! i = Some t → listsDependency t d →
            ∃ j D, (j < i)%nat ∧ sorted !! j = Some D ∧ FormulaTask.id D = d) →
  sorted = before ++ rest →
  TaskResult.task <$> acc = before →
  (∀ j r', acc !! j = Some r' →
           FormulaTask.id (TaskResult.task r') ∈ installedTasks st ∨ failedInstall r') →
  skipsFollowFailures acc →
  ∀ results, (taskLoop M options rest acc st).1 = Returns results →
             skipsFollowFailures results.
Proof.
  intros Hsorted. revert before acc st.
  induction rest as [|task rest IH]; intros before acc st Hsplit Hdone Hinv Hacc results;
    cbn [taskLoop]; [by intros [= <-]|].
  pose proof (executeTask_installed M task options st) as Hinst.
  pose proof (executeTask_task M task options st) as Htask.
  pose proof (executeTask_skip_missing M task options st) as Hmissing.
  destruct (executeTask M task options st) as [[result|error] st1]; [|done].
  cbn in Hinst. specialize (Htask result eq_refl). specialize (Hmissing result eq_refl).
  assert (length acc = length before) as Hlen by (by rewrite <-Hdone, length_fmap).
  assert (skipsFollowFailures (acc ++ [result])) as Hacc'.
  { intros i r Hi Hskip Hfail.
    destruct (decide (i < length acc)%nat) as [Hlt|Hge].
    - rewrite lookup_app_l in Hi by done.
      destruct (Hacc i r Hi Hskip Hfail) as (d & j & r' & Hd & Hj & Hr' & Hid & Hfailed).
      exists d, j, r'. split; [done|]. split; [done|].
      split; [|done]. rewrite lookup_app_l by lia. done.
    - rewrite lookup_app_r in Hi by lia.
      destruct (i - length acc)%nat as [|k] eqn:Hk; cbn in Hi; [|done].
      injection Hi as <-. assert (i = length before) as -> by lia.
      destruct (Hmissing Hskip Hfail) as (d & Hd & Hnot).
      destruct (Hsorted (length before) task d) as (j & D & Hj & HD & Hid); [|done|].
      { subst sorted. by rewrite lookup_app_r, Nat.sub_diag by lia. }
      assert (TaskResult.task <$> acc !! j = Some D) as HjD.
      { rewrite <-list_lookup_fmap, Hdone. subst sorted.
        by rewrite lookup_app_l in HD by lia. }
      destruct (acc !! j) as [r'|] eqn:Hr'; [|done]. cbn in HjD. injection HjD as HjD.
      exists d, j, r'. rewrite Htask. split; [done|]. split; [lia|].
      split; [rewrite lookup_app_l by lia; done|].
      split; [by rewrite HjD|].
      destruct (Hinv j r' Hr') as [Hin|Hfailed]; [|done].
      rewrite HjD, Hid in Hin. done. }
  assert (∀ st', installedTasks st ⊆ installedTasks st' →
                 (successOrSkipped result = true →
                  FormulaTask.id task ∈ installedTasks st') →
                 ∀ j r', (acc ++ [result]) !! j = Some r' →
                         FormulaTask.id (TaskResult.task r') ∈ installedTasks st'
                         ∨ failedInstall r') as Hinv'.
  { intros st' Hsub Hadd j r' Hj.
    apply lookup_app_Some in Hj as [Hj|[_ Hj]].
    - destruct (Hinv j r' Hj) as [Hin|Hfailed]; [left; set_solver | by right].
    - destruct (j - length acc)%nat; cbn in Hj; [|done]. injection Hj as <-.
      unfold failedInstall. destruct (successOrSkipped result) eqn:Hok; [|by right].
      left. rewrite Htask. by apply Hadd. }
  destruct (successOrSkipped result) eqn:Hok.
  - apply (IH (before ++ [task])).
    + by rewrite <-app_assoc.
    + by rewrite fmap_app, Hdone; cbn; rewrite Htask.
    + apply Hinv'; cbn; rewrite Hinst; set_solver.
    + done.
  - destruct (negb (truthy (ExecutorOptions.continueOnError options)));
      [by intros [= <-]|].
    apply (IH (before ++ [task])).
    + by rewrite <-app_assoc.
    + by rewrite fmap_app, Hdone; cbn; rewrite Htask.
    + apply Hinv'; [by rewrite Hinst | done].
    + done.
Qed.

(** X21: take a formula that passes the dependency check of the [validate]
    command (every listed dependency is the id of a task of the formula),
    with pairwise distinct ids and without a dependency cycle, and run it
    without selecting tasks or categories.  Then a task is skipped for
    missing dependencies only behind the failed installation of one of its
    dependencies; so when no installation fails, no task is skipped for
    missing dependencies and every result is a success. *)
Theorem validated_dependencies_run (M : Machine) (formula : ResolvedFormula.t)
    (options : ExecutorOptions.t) (st : ExecState) (run : InstallResult.t) :
  hasDepErrors formula = false →
  NoDup (taskIds (ResolvedFormula.tasks formula)) →
  acyclicDependencies (ResolvedFormula.tasks formula) →
  nonEmpty (ExecutorOptions.selectedTasks options) = false →
  nonEmpty (ExecutorOptions.selectedCategories options) = false →
  (execute M formula options st).1 = Returns run →
  let results := InstallResult.tasks run in
  skipsFollowFailures results
  ∧ ((∀ r, r ∈ results → ¬ failedInstall r) →
     ∀ r, r ∈ results → TaskResult.success r = true).
Proof.
  intros Hcheck Hnd Hacyclic Hids Hcats Hrun. cbv zeta.
  pose proof (proj1 (hasDepErrors_false formula) Hcheck) as Hvalid.
  assert (skipsFollowFailures (InstallResult.tasks run)) as Hfollow.
  { revert Hrun. unfold execute, filterTasks. rewrite Hids, Hcats.
    case_bool_decide; [intros [= <-]; by intros i r ?|].
    pose proof (taskLoop_skipsFollowFailures M options
                  (topologicalSort (ResolvedFormula.tasks formula)) []
                  (topologicalSort (ResolvedFormula.tasks formula)) [] st) as Hloop.
    destruct (taskLoop M options _ [] st) as [[taskResults|error] st1]; [|done].
    intros [= <-]. cbn in Hloop |- *.
    apply Hloop; try done.
    destruct (topologicalSort_sorted _ Hnd Hacyclic) as [Hperm Hsorted].
    intros i t d Hi Hd. destruct (Hsorted i t Hi) as [Ht Hbefore].
    pose proof (Hvalid t d Ht Hd) as Hin.
    apply list_elem_of_fmap in Hin as (D & -> & HD).
    destruct (Hbefore D HD Hd) as (j & Hj & HjD). by exists j, D. }
  split; [done|]. intros Hnofail r Hr.
  destruct (TaskResult.success r) eqn:Hsuccess; [done|]. exfalso.
  pose proof (Hnofail r Hr) as Hok.
  unfold failedInstall, successOrSkipped in Hok. rewrite Hsuccess in Hok.
  destruct (TaskResult.skipped r) as [[]|] eqn:Hskip; cbn in Hok; [|done|done].
  apply list_elem_of_lookup in Hr as [i Hi].
  destruct (Hfollow i r Hi Hskip Hsuccess) as (d & j & r' & _ & Hj & Hr' & _ & Hfailed).
  apply (Hnofail r'); [by eapply list_elem_of_lookup_2 | done].
Qed.

Lemma validated_dependencies_run_witness :
  ∃ run,
    (execute Sample.machine SampleRun.both (Sample.options None)
       (newFormulaExecutor [])).1 = Returns run
    ∧ skipsFollowFailures (InstallResult.tasks run).
Proof.
  eexists. split; [by vm_compute|].
  apply (validated_dependencies_run Sample.machine SampleRun.both
           (Sample.options None) (newFormulaExecutor [])).
  - by vm_compute.
  - exact sample_both_distinct.
  - exact sample_both_acyclic.
  - reflexivity.
  - reflexivity.
  - by vm_compute.
Defined.

(** ** The validators *)

Lemma nonEmptyString_Some (raw : Raw) (s : string) :
  nonEmptyString raw = Some s ↔ raw = RString s ∧ s ≠ EmptyString.
Proof.
  destruct raw as [| | |s'| |]; cbn; try (split; [done | by intros [? _]]).
  destruct (String.eqb_spec s' EmptyString) as [->|Hne].
  - split; [done | by intros [[= ->] ?]].
  - split; [by intros [= ->] | by intros [[= ->] _]].
Qed.

Lemma buildCommand_known (step : InstallStep.t) :
  isValidType (InstallStep.type step) = true →
  ∃ command args, buildCommand step = Returns (command, args).
Proof.
  unfold isValidType, validTypes, buildCommand.
  intros Hin%bool_decide_eq_true.
  repeat (apply elem_of_cons in Hin as [->|Hin]; [cbn; eauto|]).
  by apply elem_of_nil in Hin.
Qed.

Lemma asInstallStep_checked (v : UncheckedStep.t) (step : InstallStep.t) :
  asInstallStep v = Some step →
  InstallStep.name step = UncheckedStep.name v
  ∧ InstallStep.type step = UncheckedStep.type v
  ∧ InstallStep.command step = UncheckedStep.command v.
Proof.
  unfold asInstallStep.
  destruct (asStrings (UncheckedStep.args v)); [|done].
  destruct (asBoolean _); [|done]. destruct (asStrings (UncheckedStep.platforms v)); [|done].
  destruct (asStringRecord _); [|done]. destruct (asString _); [|done].
  destruct (asStrings (UncheckedStep.postInstall v)); [|done].
  cbn. by intros [= <-].
Qed.

(** X22: [validateStep] accepts a value exactly when it is an object whose
    name, type and command are non-empty strings and whose type is one of
    the seven known types, whatever the task id and the index are.  The
    step it returns, read at the types the interface declares, has a
    non-empty name and command, and [buildCommand] returns a command for
    it. *)
Theorem validateStep_buildCommand (raw : Raw) (taskId : string) (index : nat) :
  ((∃ v, validateStep raw taskId index = Returns v)
   ↔ isObject raw = true
     ∧ is_Some (nonEmptyString (field raw "name"))
     ∧ (∃ type, nonEmptyString (field raw "type") = Some type
                ∧ isValidType type = true)
     ∧ is_Some (nonEmptyString (field raw "command")))
  ∧ ∀ v step,
      validateStep raw taskId index = Returns v →
      asInstallStep v = Some step →
      InstallStep.name step ≠ EmptyString
      ∧ InstallStep.command step ≠ EmptyString
      ∧ isValidType (InstallStep.type step) = true
      ∧ ∃ command args, buildCommand step = Returns (command, args).
Proof.
  unfold validateStep. cbv zeta.
  destruct (isObject raw); cbn [negb].
  2:{ split; [split; [by intros [? ?] | by intros [? _]] | done]. }
  destruct (nonEmptyString (field raw "name")) as [name|] eqn:Hname.
  2:{ split; [split; [by intros [? ?] | by intros (_ & [? ?] & _)] | done]. }
  destruct (nonEmptyString (field raw "type")) as [type|] eqn:Htype.
  2:{ split; [split; [by intros [? ?] | by intros (_ & _ & (? & ? & _) & _)] | done]. }
  destruct (isValidType type) eqn:Hvalid; cbn [negb].
  2:{ split; [split; [by intros [? ?]|] | done].
      intros (_ & _ & (type' & [= <-] & Hvalid') & _). congruence. }
  destruct (nonEmptyString (field raw "command")) as [command|] eqn:Hcommand.
  2:{ split; [split; [by intros [? ?] | by intros (_ & _ & _ & [? ?])] | done]. }
  split.
  - split; [|eauto]. intros _. split; [done|]. split; [eauto|]. split; [eauto|]. eauto.
  - intros v step [= <-] (Hn & Ht & Hc)%asInstallStep_checked. cbn in Hn, Ht, Hc.
    apply nonEmptyString_Some in Hname as [_ Hname].
    apply nonEmptyString_Some in Hcommand as [_ Hcommand].
    rewrite Hn, Hc. split; [done|]. split; [done|].
    assert (isValidType (InstallStep.type step) = true) as Hok by (by rewrite Ht).
    split; [done|]. by apply buildCommand_known.
Qed.

Lemma validateStep_buildCommand_witness :
  ∃ command args,
    buildCommand (Sample.step "Install jq" "brew" "jq" (Some true))
    = Returns (command, args).
Proof.
  destruct (validateStep_buildCommand SampleYaml.step "jq" 0) as [_ Hbuild].
  destruct (Hbuild
              {| UncheckedStep.name := "Install jq"; UncheckedStep.type := "brew";
                 UncheckedStep.command := "jq"; UncheckedStep.args := RNull;
                 UncheckedStep.optional := RBool true; UncheckedStep.platforms := RNull;
                 UncheckedStep.env := RNull; UncheckedStep.cwd := RNull;
                 UncheckedStep.postInstall := RNull |}
              (Sample.step "Install jq" "brew" "jq" (Some true)))
    as (_ & _ & _ & Hcommand); [reflexivity | reflexivity |].
  exact Hcommand.
Defined.

(** What [map] with a validator returns: one accepted value for each item,
    in order, each item validated at its own index. *)
Lemma mapIndexed_returns {A} (validate : Raw → nat → Outcome A) (index : nat)
    (items : list Raw) (out : list A) :
  mapIndexed validate index items = Returns out
  ↔ length out = length items
    ∧ ∀ i item, items !! i = Some item →
        ∃ a, validate item (index + i)%nat = Returns a ∧ out !! i = Some a.
Proof.
  revert index out. induction items as [|item rest IH]; intros index out; cbn [mapIndexed].
  { split.
    - intros [= <-]. split; [done|]. by intros i item.
    - intros [Hlen _]. by destruct out. }
  destruct (validate item index) as [a|message] eqn:Hitem.
  - destruct (mapIndexed validate (S index) rest) as [others|message] eqn:Hrest.
    + apply IH in Hrest as [Hlen Hall]. split.
      * intros [= <-]. split; [cbn; by rewrite Hlen|].
        intros [|i] item' Hi; cbn in Hi.
        -- injection Hi as <-. exists a. by rewrite Nat.add_0_r.
        -- destruct (Hall i item' Hi) as (a' & Ha' & Hout).
           exists a'. split; [|done].
           by replace (index + S i)%nat with (S index + i)%nat by lia.
      * intros [Hlen' Hall']. destruct out as [|a' out]; [done|].
        destruct (Hall' 0%nat item eq_refl) as (a'' & Ha'' & [= <-]).
        rewrite Nat.add_0_r, Hitem in Ha''. injection Ha'' as <-. do 2 f_equal.
        apply list_eq. intros i.
        destruct (rest !! i) as [item'|] eqn:Hi.
        -- destruct (Hall i item' Hi) as (b & Hb & ->).
           destruct (Hall' (S i) item' Hi) as (b' & Hb' & Hout). cbn in Hout.
           replace (index + S i)%nat with (S index + i)%nat in Hb' by lia.
           rewrite Hb in Hb'. injection Hb' as <-. done.
        -- apply lookup_ge_None in Hi. cbn in Hlen'.
           rewrite (proj2 (lookup_ge_None others i)) by lia.
           rewrite (proj2 (lookup_ge_None out i)) by lia. done.
    + split; [done|]. intros [Hlen' Hall'].
      destruct out as [|a' out]; [done|].
      assert (mapIndexed validate (S index) rest = Returns out) as Hcontra; [|congruence].
      apply IH. split; [cbn in Hlen'; lia|].
      intros i item' Hi. destruct (Hall' (S i) item' Hi) as (b & Hb & Hout).
      exists b. split; [|done].
      by replace (S index + i)%nat with (index + S i)%nat by lia.
  - split; [done|]. intros [_ Hall'].
    destruct (Hall' 0%nat item eq_refl) as (a & Ha & _).
    rewrite Nat.add_0_r in Ha. congruence.
Qed.

(** The first item that is refused gives the error. *)
Lemma mapIndexed_throws {A} (validate : Raw → nat → Outcome A) (index : nat)
    (pre : list Raw) (bad : Raw) (post : list Raw) (message : string) :
  (∀ i item, pre !! i = Some item → ∃ a, validate item (index + i)%nat = Returns a) →
  validate bad (index + length pre)%nat = Throws message →
  mapIndexed validate index (pre ++ bad :: post) = Throws message.
Proof.
  revert index. induction pre as [|item pre IH]; intros index Hpre Hbad; cbn [app mapIndexed].
  - cbn in Hbad. rewrite Nat.add_0_r in Hbad. by rewrite Hbad.
  - destruct (Hpre 0%nat item eq_refl) as (a & Ha). rewrite Nat.add_0_r in Ha.
    rewrite Ha, IH; [done| |].
    + intros i item' Hi. destruct (Hpre (S i) item' Hi) as (b & Hb). exists b.
      by replace (S index + i)%nat with (index + S i)%nat by lia.
    + cbn in Hbad. by replace (S index + length pre)%nat
                        with (index + S (length pre))%nat by lia.
Qed.

Lemma validateStep_returns (raw : Raw) (taskId : string) (index : nat)
    (v : UncheckedStep.t) :
  validateStep raw taskId index = Returns v →
  isValidType (UncheckedStep.type v) = true
  ∧ UncheckedStep.name v ≠ EmptyString
  ∧ UncheckedStep.command v ≠ EmptyString.
Proof.
  unfold validateStep. cbv zeta.
  destruct (isObject raw); cbn [negb]; [|done].
  destruct (nonEmptyString (field raw "name")) as [name|] eqn:Hname; [|done].
  destruct (nonEmptyString (field raw "type")) as [type|] eqn:Htype; [|done].
  destruct (isValidType type) eqn:Hvalid; cbn [negb]; [|done].
  destruct (nonEmptyString (field raw "command")) as [command|] eqn:Hcommand; [|done].
  intros [= <-]. cbn.
  apply nonEmptyString_Some in Hname as [_ Hname].
  apply nonEmptyString_Some in Hcommand as [_ Hcommand]. done.
Qed.

(** X23: a task definition accepted by [validateTaskDefinition] has the
    non-empty id and name of the input and one step for each item of the
    input's steps, in order, each accepted by [validateStep] at its index;
    so [buildCommand] returns a command for every one of its steps read at
    the declared types.  When an item of the steps is refused, the error is
    the one of the first refused item, which names its index. *)
Theorem validateTaskDefinition_steps (raw : Raw) :
  (∀ def,
     validateTaskDefinition raw = Returns def →
     nonEmptyString (field raw "id") = Some (UncheckedDefinition.id def)
     ∧ nonEmptyString (field raw "name") = Some (UncheckedDefinition.name def)
     ∧ ∃ rawSteps,
         field raw "steps" = RArray rawSteps
         ∧ length (UncheckedDefinition.steps def) = length rawSteps
         ∧ (∀ i rawStep, rawSteps !! i = Some rawStep →
              ∃ v, validateStep rawStep (UncheckedDefinition.id def) i = Returns v
                   ∧ UncheckedDefinition.steps def !! i = Some v)
         ∧ (∀ v step, v ∈ UncheckedDefinition.steps def → asInstallStep v = Some step →
              ∃ command args, buildCommand step = Returns (command, args)))
  ∧ (∀ id name pre bad post message,
       nonEmptyString (field raw "id") = Some id →
       nonEmptyString (field raw "name") = Some name →
       field raw "steps" = RArray (pre ++ bad :: post) →
       (∀ i rawStep, pre !! i = Some rawStep →
          ∃ v, validateStep rawStep id i = Returns v) →
       validateStep bad id (length pre) = Throws message →
       validateTaskDefinition raw = Throws message).
Proof.
  unfold validateTaskDefinition. split.
  - intros def.
    destruct (nonEmptyString (field raw "id")) as [id|]; [|done].
    destruct (nonEmptyString (field raw "name")) as [name|]; [|done].
    destruct (field raw "steps") as [| | | |rawSteps|]; try done.
    destruct (mapIndexed _ 0 rawSteps) as [steps|] eqn:Hsteps; [|done].
    intros [= <-]. cbn. split; [done|]. split; [done|].
    apply mapIndexed_returns in Hsteps as [Hlen Hall].
    exists rawSteps. split; [done|]. split; [done|]. split; [exact Hall|].
    intros v step [i Hi]%list_elem_of_lookup Hstep.
    assert (is_Some (rawSteps !! i)) as [rawStep HrawStep].
    { apply lookup_lt_is_Some. rewrite <-Hlen. by eapply lookup_lt_Some. }
    destruct (Hall i rawStep HrawStep) as (v' & Hv' & Hi'). cbn in Hv'.
    rewrite Hi in Hi'. injection Hi' as <-.
    apply validateStep_returns in Hv' as [Hvalid _].
    apply asInstallStep_checked in Hstep as (_ & Htype & _).
    apply buildCommand_known. by rewrite Htype.
  - intros id name pre bad post message -> -> -> Hpre Hbad.
    rewrite (mapIndexed_throws _ 0 pre bad post message); [done| |done].
    intros i rawStep Hi. by apply Hpre.
Qed.

(** X24: [parse] refuses what is not an object.  A formula it accepts has a
    non-empty name and version and one task reference for each item of the
    input's tasks, in order, each with a non-empty id and category.  When an
    item of the tasks is refused, the error is the one of the first refused
    item, which names its index. *)
Theorem parse_tasks (raw : Raw) :
  (isObject raw = false → parse raw = Throws "Invalid YAML: expected an object")
  ∧ (∀ formula,
       parse raw = Returns formula →
       UncheckedFormula.name formula ≠ EmptyString
       ∧ UncheckedFormula.version formula ≠ EmptyString
       ∧ ∃ rawTasks,
           field raw "tasks" = RArray rawTasks
           ∧ length (UncheckedFormula.tasks formula) = length rawTasks
           ∧ (∀ i rawTask, rawTasks !! i = Some rawTask →
                ∃ ref, validateTaskReference rawTask i = Returns ref
                       ∧ UncheckedFormula.tasks formula !! i = Some ref)
           ∧ Forall (λ ref, UncheckedReference.id ref ≠ EmptyString
                            ∧ UncheckedReference.category ref ≠ EmptyString)
               (UncheckedFormula.tasks formula))
  ∧ (∀ pre bad post message,
       isObject raw = true →
       is_Some (nonEmptyString (field raw "name")) →
       is_Some (nonEmptyString (field raw "version")) →
       field raw "tasks" = RArray (pre ++ bad :: post) →
       (∀ i rawTask, pre !! i = Some rawTask →
          ∃ ref, validateTaskReference rawTask i = Returns ref) →
       validateTaskReference bad (length pre) = Throws message →
       parse raw = Throws message).
Proof.
  unfold parse, validateFormula. split; [by intros ->|]. split.
  - intros formula. destruct (isObject raw); cbn [negb]; [|done].
    destruct (nonEmptyString (field raw "name")) as [name|] eqn:Hname; [|done].
    destruct (nonEmptyString (field raw "version")) as [version|] eqn:Hversion; [|done].
    destruct (field raw "tasks") as [| | | |rawTasks|]; try done.
    destruct (mapIndexed _ 0 rawTasks) as [tasks|] eqn:Htasks; [|done].
    intros [= <-]. cbn.
    apply nonEmptyString_Some in Hname as [_ Hname].
    apply nonEmptyString_Some in Hversion as [_ Hversion].
    split; [done|]. split; [done|].
    apply mapIndexed_returns in Htasks as [Hlen Hall].
    exists rawTasks. split; [done|]. split; [done|]. split; [exact Hall|].
    apply Forall_forall. intros ref [i Hi]%list_elem_of_lookup.
    assert (is_Some (rawTasks !! i)) as [rawTask HrawTask].
    { apply lookup_lt_is_Some. rewrite <-Hlen. by eapply lookup_lt_Some. }
    destruct (Hall i rawTask HrawTask) as (ref' & Href' & Hi'). cbn in Href'.
    rewrite Hi in Hi'. injection Hi' as <-.
    unfold validateTaskReference in Href'. cbv zeta in Href'.
    destruct (isObject rawTask); cbn [negb] in Href'; [|done].
    destruct (nonEmptyString (field rawTask "id")) as [id|] eqn:Hid; [|done].
    destruct (nonEmptyString (field rawTask "category")) as [category|] eqn:Hcat; [|done].
    injection Href' as <-. cbn.
    apply nonEmptyString_Some in Hid as [_ Hid].
    apply nonEmptyString_Some in Hcat as [_ Hcat]. done.
  - intros pre bad post message -> [name ->] [version ->] -> Hpre Hbad. cbn [negb].
    rewrite (mapIndexed_throws _ 0 pre bad post message); [done| |done].
    intros i rawTask Hi. by apply Hpre.
Qed.

Lemma parse_tasks_witness :
  parse SampleYaml.formula
  = Throws ("Task at index 1 must have a " +:+ quote +:+ "category" +:+ quote +:+ " field").
Proof.
  destruct (parse_tasks SampleYaml.formula) as (_ & _ & Hfirst).
  apply (Hfirst [RObject [("id", RString "git"); ("category", RString "vcs")]]
           (RObject [("id", RString "gh")]) []).
  - reflexivity.
  - by vm_compute; eauto.
  - by vm_compute; eauto.
  - reflexivity.
  - intros [|i] rawTask Hi; cbn in Hi; [|done]. injection Hi as <-.
    eexists. reflexivity.
  - reflexivity.
Defined.

Lemma validateTaskDefinition_steps_witness :
  validateTaskDefinition
    (RObject [("id", RString "jq"); ("name", RString "jq");
              ("steps", RArray [SampleYaml.step; SampleYaml.badStep])])
  = Throws ("Step 1 of " +:+ quote +:+ "jq" +:+ quote +:+ " has invalid type "
            +:+ quote +:+ "snap" +:+ quote
            +:+ ". Valid types: brew, npm, apt, shell, curl, git, pip").
Proof.
  destruct (validateTaskDefinition_steps
              (RObject [("id", RString "jq"); ("name", RString "jq");
                        ("steps", RArray [SampleYaml.step; SampleYaml.badStep])]))
    as [_ Hfirst].
  apply (Hfirst "jq" "jq" [SampleYaml.step] SampleYaml.badStep []).
  - reflexivity.
  - reflexivity.
  - reflexivity.
  - intros [|i] rawStep Hi; cbn in Hi; [|done]. injection Hi as <-.
    eexists. reflexivity.
  - reflexivity.
Defined.

(** ** Version check: what every result has in common *)

(** X26: the results of [checkVersion] are consistent.  A tool reported as
    not installed always needs an update and has no version; a reported
    version is never empty and comes with [installed = true]; an update is
    needed only when the tool is not installed or its version does not
    satisfy the desired one; and the version command is executed exactly
    once when the task has one and never otherwise.  When the task's own
    pattern cannot be used (the match throws), the tool is reported as not
    installed although its version command ran. *)
Theorem checkVersion_consistent (M : Machine) (task : BaseTask.t)
    (desiredVersion : option string) (tr : Trace) :
  let r := (checkVersion M task desiredVersion tr).1 in
  let tr' := (checkVersion M task desiredVersion tr).2 in
  (installed r = false → needsUpdate r = true ∧ currentVersion r = None)
  ∧ (∀ v, currentVersion r = Some v →
          installed r = true ∧ v ≠ EmptyString
          ∧ needsUpdate r = negb (satisfiesVersion v (default "latest" desiredVersion)))
  ∧ (needsUpdate r = true →
     installed r = false
     ∨ ∃ v, currentVersion r = Some v
            ∧ satisfiesVersion v (default "latest" desiredVersion) = false)
  ∧ (tr' = if truthyString (BaseTask.versionCommand task)
           then tr ++ [EvExecSync (default EmptyString (BaseTask.versionCommand task))]
           else tr)
  ∧ (∀ stdout message,
       truthyString (BaseTask.versionCommand task) = true →
       execSync M tr (default EmptyString (BaseTask.versionCommand task)) = Some stdout →
       parseVersion M task (Js.trim stdout) = Throws message →
       installed r = false).
Proof.
  cbv zeta. unfold checkVersion.
  destruct (truthyString (BaseTask.versionCommand task)) eqn:Hcmd; cbn [negb].
  2:{ cbn. split; [done|]. split; [done|]. split; [by left|]. split; [done|]. done. }
  cbv zeta.
  destruct (execSync M tr _) as [stdout|] eqn:Hexec.
  2:{ cbn. split; [done|]. split; [done|]. split; [by left|]. split; [done|]. done. }
  destruct (parseVersion M task (Js.trim stdout)) as [parsed|message] eqn:Hparse.
  2:{ cbn. split; [done|]. split; [done|]. split; [by left|]. split; [done|]. done. }
  destruct (truthyString parsed) eqn:Htruthy; cbn [negb].
  - destruct parsed as [v|]; [|done]. cbn in Htruthy.
    apply negb_true_iff in Htruthy.
    destruct (String.eqb_spec v EmptyString) as [|Hne]; [done|].
    cbn. split; [done|]. split.
    { intros v' [= <-]. done. }
    split.
    { intros Hupdate%negb_true_iff. right. by exists v. }
    split; [done|]. intros stdout' message _ [= <-] Hthrow. congruence.
  - cbn. split; [done|]. split; [done|]. split; [done|]. split; [done|].
    intros stdout' message _ [= <-] Hthrow. congruence.
Qed.
